(** * Coalfield truck simulation: the engine, the planner and their properties

    A shallow embedding of [src/services/geometry.ts],
    [src/services/pathfinding.ts] and [src/services/SimulationEngine.ts],
    followed by the properties of the specification that concern them and
    by further properties of the code: of the planner, of the whole life of
    an engine, and of the edits of the map.

    - JavaScript numbers are kept abstract: the class [JSNumber] lists the
      arithmetic and comparison operations the sources apply to them, and
      the definitions and the general theorems are stated for an arbitrary
      instance, so they hold for IEEE doubles as well as for exact numbers.
      The exact rationals [Q] give one instance; it runs the definitions on
      a concrete site whose numbers doubles represent exactly.  A statement
      that is proved for the rationals only says so; what the planner
      guarantees in rounded arithmetic is stated for any instance, with the
      order facts it needs as premises.
    - Counters that the code only ever increments, decrements or compares
      (loads, capacities, hysteresis counts, trip counts, the truck counter)
      are integers [Z].  A double holds such an integer exactly below 2^53,
      where [n++] stops changing it; the statements that depend on a counter
      growing state that bound.
    - [Map<string, _>] is a [gmap string _]; arrays are lists; objects that
      the engine mutates in place are rebuilt, the arrays that hold them
      being threaded through each loop in the order of the source.
    - The two [while] loops of the planner need not terminate, so they take
      fuel; an outer [None] means that the fuel ran out, and operations that
      call the planner return an [option] for that reason.
    - [Math.random] and [gaussianRandom] are inputs: the sample a call
      returns is an argument of the operation that makes the call. *)

From Stdlib Require Import ZArith QArith Qpower Lqa.
From stdpp Require Import gmap strings list fin_maps pretty.

Local Open Scope string_scope.
Local Open Scope Z_scope.
Local Open Scope list_scope.

(** ** JavaScript numbers *)

Class JSNumber (num : Type) := {
  zero : num;
  one : num;
  add : num -> num -> num;          (* a + b *)
  sub : num -> num -> num;          (* a - b *)
  mul : num -> num -> num;          (* a * b *)
  div : num -> num -> num;          (* a / b *)
  rem : num -> num -> num;          (* a % b *)
  ltb : num -> num -> bool;         (* a < b *)
  geb : num -> num -> bool;         (* a >= b *)
  lt_infinity : num -> bool;        (* a < Infinity *)
  Math_sqrt : num -> num;
  Math_pow : num -> num -> num;
  Math_min : num -> num -> num;
  of_Z : Z -> num                   (* an integer read as a number *)
}.

(** [a < b] where [b] is either a stored number or the literal [Infinity]
    ([None]), as in [let minF = Infinity] and [gScore.get(n) ?? Infinity]. *)
Definition lt_or_infinity {num : Type} `{JSNumber num} (a : num) (b : option num) : bool :=
  match b with
  | Some b' => ltb a b'
  | None => lt_infinity a
  end.

(** JavaScript truthiness of a [string | null]: [null] and the empty string
    are falsy. *)
Definition truthy (o : option string) : bool :=
  match o with
  | Some s => negb (String.eqb s "")
  | None => false
  end.

(** ** Data model ([src/types.ts]) *)

Module Point.
Record t {num : Type} := mk { x : num; y : num }.
Arguments t : clear implicits.
End Point.

Module Node.
Record t {num : Type} := mk {
  id : string;
  x : num;
  y : num;
  label : string
}.
Arguments t : clear implicits.
(** A node used where a [Point] is expected. *)
Definition point {num} (n : t num) : Point.t num := Point.mk num (x n) (y n).
End Node.

Module Edge.
Record t {num : Type} := mk {
  id : string;
  sourceId : string;
  targetId : string;
  length : num;
  capacity : Z;
  baseSpeed : num;
  baseTravelTime : num;
  currentLoad : Z;
  currentWeight : num;
  isClosed : bool
}.
Arguments t : clear implicits.

Definition set_currentLoad {num} (n : Z) (e : t num) : t num :=
  mk num (id e) (sourceId e) (targetId e) (length e) (capacity e) (baseSpeed e)
     (baseTravelTime e) n (currentWeight e) (isClosed e).

Definition set_currentWeight {num} (w : num) (e : t num) : t num :=
  mk num (id e) (sourceId e) (targetId e) (length e) (capacity e) (baseSpeed e)
     (baseTravelTime e) (currentLoad e) w (isClosed e).
End Edge.

Module Router.
Record t {num : Type} := mk {
  id : string;
  x : num;
  y : num;
  mappedEdgeIds : list string
}.
Arguments t : clear implicits.
Definition point {num} (r : t num) : Point.t num := Point.mk num (x r) (y r).
End Router.

Inductive TruckState := moving | waiting | broken | idle | finished.

Definition TruckState_eqb (a b : TruckState) : bool :=
  match a, b with
  | moving, moving | waiting, waiting | broken, broken
  | idle, idle | finished, finished => true
  | _, _ => false
  end.

Module Truck.
Record t {num : Type} := mk {
  id : string;
  position : Point.t num;
  currentEdgeId : option string;
  distanceAlongEdge : num;
  speed : num;
  state : TruckState;
  routePlan : list string;
  destinationNodeId : option string;
  inferredRouterId : option string;
  inferredEdgeId : option string;
  lastRouterSwitchTime : num;
  consecutiveRouterReads : Z;
  potentialRouterId : option string;
  totalDistance : num;
  totalTime : num;
  rerouteCount : Z
}.
Arguments t : clear implicits.
End Truck.

Inductive Policy := queue | closed_when_full.

Module Config.
Record t {num : Type} := mk {
  dt : num;
  hysteresisN : Z;
  routerNoiseSigma : num;
  alpha : num;
  beta : num;
  rerouteInterval : num;
  truckSpeedMin : num;
  truckSpeedMax : num;
  policy : Policy
}.
Arguments t : clear implicits.
End Config.

(** ** Geometry ([src/services/geometry.ts]) *)

Section Geometry.
Context {num : Type} `{JSNumber num}.

Definition distance (p1 p2 : Point.t num) : num :=
  Math_sqrt (add (Math_pow (sub (Point.x p2) (Point.x p1)) (of_Z 2))
                 (Math_pow (sub (Point.y p2) (Point.y p1)) (of_Z 2))).

Definition getPointOnSegment (p1 p2 : Point.t num) (ratio : num) : Point.t num :=
  Point.mk num
    (add (Point.x p1) (mul (sub (Point.x p2) (Point.x p1)) ratio))
    (add (Point.y p1) (mul (sub (Point.y p2) (Point.y p1)) ratio)).
End Geometry.

(** ** Array helpers

    [arr.find(p)] and [arr.filter(p)] are [List.find] and [List.filter]. *)

Section Arrays.
Context {A : Type}.

(** In-place update of the object that [arr.find(p)] returns. *)
Fixpoint update_first (p : A -> bool) (f : A -> A) (l : list A) : list A :=
  match l with
  | [] => []
  | a :: l' => if p a then f a :: l' else a :: update_first p f l'
  end.
End Arrays.

Definition has_id {num} (i : string) (e : Edge.t num) : bool :=
  String.eqb (Edge.id e) i.

(** [edges.find(e => e.id === i)] for an [i] that may be [null]. *)
Definition find_edge {num} (i : option string) (edges : list (Edge.t num))
  : option (Edge.t num) :=
  match i with
  | Some i' => List.find (has_id i') edges
  | None => None
  end.

(** ** The planner ([src/services/pathfinding.ts]) *)

Module PathResult.
Record t {num : Type} := mk { path : list string; eta : num }.
Arguments t : clear implicits.
End PathResult.

Section Pathfinding.
Context {num : Type} `{JSNumber num}.

(** The four collections of [findPath].  A JavaScript [Set] iterates in
    insertion order, so [openSet] is a duplicate-free list. *)
Record Search := mkSearch {
  openSet : list string;
  cameFrom : gmap string (string * string);   (* node -> (edgeId, nodeId) *)
  gScore : gmap string num;
  fScore : gmap string num
}.

Definition set_add (x : string) (s : list string) : list string :=
  if existsb (String.eqb x) s then s else s ++ [x].

Definition set_delete (x : string) (s : list string) : list string :=
  List.filter (fun y => negb (String.eqb y x)) s.

(** The scan for the member of [openSet] with the lowest [fScore]:
    [current] starts as the empty string and [minF] as [Infinity]. *)
Definition pick (fs : gmap string num) (acc : string * option num) (nodeId : string)
  : string * option num :=
  match fs !! nodeId with
  | Some f => if lt_or_infinity f (snd acc) then (nodeId, Some f) else acc
  | None => acc                     (* Infinity < minF is false *)
  end.

Definition lowest (s : Search) : string :=
  fst (fold_left (pick (fScore s)) (openSet s) ("", None)).

Definition heuristic (nodes : gmap string (Node.t num)) (endNode : Node.t num)
    (edge : Edge.t num) : num :=
  match nodes !! Edge.targetId edge with
  | Some neighborNode =>
      div (distance (Node.point neighborNode) (Node.point endNode)) (Edge.baseSpeed edge)
  | None => zero
  end.

(** One turn of [for (const edge of neighbors)].  When [gScore] has no
    entry for [current] the tentative score is [Infinity + weight], which
    is below nothing. *)
Definition relax (nodes : gmap string (Node.t num)) (endNode : Node.t num)
    (current : string) (s : Search) (edge : Edge.t num) : Search :=
  match gScore s !! current with
  | None => s
  | Some g =>
      let neighbor := Edge.targetId edge in
      let tentativeGScore := add g (Edge.currentWeight edge) in
      if lt_or_infinity tentativeGScore (gScore s !! neighbor) then
        mkSearch (set_add neighbor (openSet s))
                 (<[neighbor := (Edge.id edge, current)]> (cameFrom s))
                 (<[neighbor := tentativeGScore]> (gScore s))
                 (<[neighbor := add tentativeGScore (heuristic nodes endNode edge)]> (fScore s))
      else s
  end.

Definition neighbors (current : string) (edges : list (Edge.t num)) : list (Edge.t num) :=
  List.filter (fun e => String.eqb (Edge.sourceId e) current && negb (Edge.isClosed e)) edges.

(** [reconstructPath]: walk [cameFrom] back from [curr], putting each edge
    id in front of the path and adding its weight when the id resolves. *)
Fixpoint reconstructPath (fuel : nat) (cf : gmap string (string * string))
    (curr : string) (edges : list (Edge.t num))
    (totalPath : list string) (totalTime : num) : option (PathResult.t num) :=
  match cf !! curr with
  | None => Some (PathResult.mk num totalPath totalTime)
  | Some (edgeId, nodeId) =>
      match fuel with
      | O => None
      | S fuel' =>
          reconstructPath fuel' cf nodeId edges (edgeId :: totalPath)
            (match List.find (has_id edgeId) edges with
             | Some edge => add totalTime (Edge.currentWeight edge)
             | None => totalTime
             end)
      end
  end.

(** The main loop.  Outer [None]: out of fuel.  [Some None]: the loop left
    with an empty [openSet] and the function returned [null]. *)
Fixpoint search (fuel : nat) (nodes : gmap string (Node.t num)) (endNode : Node.t num)
    (endNodeId : string) (edges : list (Edge.t num)) (s : Search)
    : option (option (PathResult.t num)) :=
  match fuel with
  | O => None
  | S fuel' =>
      match openSet s with
      | [] => Some None
      | _ :: _ =>
          let current := lowest s in
          if String.eqb current endNodeId then
            option_map Some (reconstructPath fuel' (cameFrom s) current edges [] zero)
          else
            let s1 := mkSearch (set_delete current (openSet s))
                               (cameFrom s) (gScore s) (fScore s) in
            search fuel' nodes endNode endNodeId edges
              (fold_left (relax nodes endNode current) (neighbors current edges) s1)
      end
  end.

Definition findPath (fuel : nat) (startNodeId endNodeId : string)
    (nodes : gmap string (Node.t num)) (edges : list (Edge.t num))
    : option (option (PathResult.t num)) :=
  match nodes !! startNodeId, nodes !! endNodeId with
  | Some startNode, Some endNode =>
      search fuel nodes endNode endNodeId edges
        (mkSearch [startNodeId] ∅ (<[startNodeId := zero]> ∅)
                  (<[startNodeId := distance (Node.point startNode) (Node.point endNode)]> ∅))
  | _, _ => Some None
  end.
End Pathfinding.

(** ** The engine ([src/services/SimulationEngine.ts]) *)

Module Engine.
Record t {num : Type} := mk {
  nodes : gmap string (Node.t num);
  edges : list (Edge.t num);
  routers : list (Router.t num);
  trucks : list (Truck.t num);
  time : num;
  config : Config.t num;
  nextTruckId : Z;
  completedTrips : Z;
  totalTripTime : num;
  totalTripDistance : num;
  baseTripTimeAccumulator : num
}.
Arguments t : clear implicits.

Definition set_edges {num} (es : list (Edge.t num)) (s : t num) : t num :=
  mk num (nodes s) es (routers s) (trucks s) (time s) (config s) (nextTruckId s)
     (completedTrips s) (totalTripTime s) (totalTripDistance s)
     (baseTripTimeAccumulator s).

Definition set_trucks {num} (ts : list (Truck.t num)) (s : t num) : t num :=
  mk num (nodes s) (edges s) (routers s) ts (time s) (config s) (nextTruckId s)
     (completedTrips s) (totalTripTime s) (totalTripDistance s)
     (baseTripTimeAccumulator s).

Definition set_time {num} (now : num) (s : t num) : t num :=
  mk num (nodes s) (edges s) (routers s) (trucks s) now (config s) (nextTruckId s)
     (completedTrips s) (totalTripTime s) (totalTripDistance s)
     (baseTripTimeAccumulator s).
End Engine.

Section SimulationEngine.
Context {num : Type} `{JSNumber num}.

Definition increment_load (e : Edge.t num) : Edge.t num :=
  Edge.set_currentLoad (Edge.currentLoad e + 1) e.

(** [currentLoad = Math.max(0, currentLoad - 1)]. *)
Definition decrement_load (e : Edge.t num) : Edge.t num :=
  Edge.set_currentLoad (Z.max 0 (Edge.currentLoad e - 1)) e.

(** *** Topology edits *)

Definition addEdge (edge : Edge.t num) (s : Engine.t num) : Engine.t num :=
  Engine.set_edges (Engine.edges s ++ [edge]) s.

Definition purge_mapping (alive : string -> bool) (r : Router.t num) : Router.t num :=
  Router.mk num (Router.id r) (Router.x r) (Router.y r)
    (List.filter alive (Router.mappedEdgeIds r)).

Definition removeEdge (i : string) (s : Engine.t num) : Engine.t num :=
  Engine.mk num (Engine.nodes s)
    (List.filter (fun e => negb (has_id i e)) (Engine.edges s))
    (map (purge_mapping (fun eid => negb (String.eqb eid i))) (Engine.routers s))
    (Engine.trucks s) (Engine.time s) (Engine.config s) (Engine.nextTruckId s)
    (Engine.completedTrips s) (Engine.totalTripTime s) (Engine.totalTripDistance s)
    (Engine.baseTripTimeAccumulator s).

Definition clearSimulation (s : Engine.t num) : Engine.t num :=
  Engine.mk num (Engine.nodes s)
    (map (fun e => Edge.set_currentWeight (Edge.baseTravelTime e)
                     (Edge.set_currentLoad 0 e)) (Engine.edges s))
    (Engine.routers s) [] zero (Engine.config s) 1 0 zero zero zero.

(** *** spawnTruck

    [rand] is the value [Math.random()] returns.  The function has no
    return value; what the caller can observe besides the new state is the
    list of [console.warn] messages. *)

Definition no_path_warning : string := "No path found for new truck".

Definition newTruck (s : Engine.t num) (rand : num) (startNode : Node.t num)
    (firstEdge : Edge.t num) (path : list string) (endNodeId : string) : Truck.t num :=
  let cfg := Engine.config s in
  Truck.mk num
    ("T-" +:+ pretty (Engine.nextTruckId s))
    (Node.point startNode)
    (Some (Edge.id firstEdge))
    zero
    (add (mul rand (sub (Config.truckSpeedMax cfg) (Config.truckSpeedMin cfg)))
         (Config.truckSpeedMin cfg))
    moving
    path
    (Some endNodeId)
    None None zero 0 None zero zero 0.

Definition spawnTruck (fuel : nat) (rand : num) (startNodeId endNodeId : string)
    (s : Engine.t num) : option (Engine.t num * list string) :=
  match Engine.nodes s !! startNodeId with
  | None => Some (s, [])
  | Some startNode =>
      match findPath fuel startNodeId endNodeId (Engine.nodes s) (Engine.edges s) with
      | None => None
      | Some None => Some (s, [no_path_warning])
      | Some (Some routeResult) =>
          match PathResult.path routeResult with
          | [] => Some (s, [no_path_warning])
          | first :: _ =>
              match List.find (has_id first) (Engine.edges s) with
              | None => Some (s, [])
              | Some firstEdge =>
                  let truck := newTruck s rand startNode firstEdge
                                 (PathResult.path routeResult) endNodeId in
                  Some (Engine.mk num (Engine.nodes s)
                          (update_first (has_id first) increment_load (Engine.edges s))
                          (Engine.routers s)
                          (Engine.trucks s ++ [truck])
                          (Engine.time s) (Engine.config s)
                          (Engine.nextTruckId s + 1)
                          (Engine.completedTrips s) (Engine.totalTripTime s)
                          (Engine.totalTripDistance s)
                          (Engine.baseTripTimeAccumulator s), [])
              end
          end
      end
  end.

(** *** tick, phase 1: motion *)

(** [truck.routePlan[0] === truck.currentEdgeId]. *)
Definition head_is (plan : list string) (i : option string) : bool :=
  match plan, i with
  | h :: _, Some c => String.eqb h c
  | _, _ => false
  end.

Definition may_enter (cfg : Config.t num) (nextEdge : Edge.t num) : bool :=
  negb (Edge.isClosed nextEdge) ||
  match Config.policy cfg with queue => true | closed_when_full => false end.

(** The body of the first [this.trucks.forEach]: the truck after the
    callback, and the engine with the edge loads and the trip counters the
    callback changed. *)
Definition moveTruck (s : Engine.t num) (truck : Truck.t num)
  : Engine.t num * Truck.t num :=
  let cfg := Engine.config s in
  match Truck.state truck with
  | moving =>
      match find_edge (Truck.currentEdgeId truck) (Engine.edges s) with
      | None =>
          (s, Truck.mk num (Truck.id truck) (Truck.position truck)
                (Truck.currentEdgeId truck) (Truck.distanceAlongEdge truck)
                (Truck.speed truck) idle (Truck.routePlan truck)
                (Truck.destinationNodeId truck) (Truck.inferredRouterId truck)
                (Truck.inferredEdgeId truck) (Truck.lastRouterSwitchTime truck)
                (Truck.consecutiveRouterReads truck) (Truck.potentialRouterId truck)
                (Truck.totalDistance truck) (Truck.totalTime truck)
                (Truck.rerouteCount truck))
      | Some currentEdge =>
          let moveDist := mul (Truck.speed truck) (Config.dt cfg) in
          let along := add (Truck.distanceAlongEdge truck) moveDist in
          let totalDistance := add (Truck.totalDistance truck) moveDist in
          let totalTime := add (Truck.totalTime truck) (Config.dt cfg) in
          let position :=
            match Engine.nodes s !! Edge.sourceId currentEdge,
                  Engine.nodes s !! Edge.targetId currentEdge with
            | Some startNode, Some endNode =>
                getPointOnSegment (Node.point startNode) (Node.point endNode)
                  (Math_min one (div along (Edge.length currentEdge)))
            | _, _ => Truck.position truck
            end in
          let moved (edgeId : option string) (along' : num) (st : TruckState)
                    (plan : list string) :=
            Truck.mk num (Truck.id truck) position edgeId along'
              (Truck.speed truck) st plan
              (Truck.destinationNodeId truck) (Truck.inferredRouterId truck)
              (Truck.inferredEdgeId truck) (Truck.lastRouterSwitchTime truck)
              (Truck.consecutiveRouterReads truck) (Truck.potentialRouterId truck)
              totalDistance totalTime (Truck.rerouteCount truck) in
          if geb along (Edge.length currentEdge) then
            let edges1 := update_first (has_id (Edge.id currentEdge)) decrement_load
                            (Engine.edges s) in
            let plan := if head_is (Truck.routePlan truck) (Truck.currentEdgeId truck)
                        then tail (Truck.routePlan truck)
                        else Truck.routePlan truck in
            match plan with
            | [] =>
                (Engine.mk num (Engine.nodes s) edges1 (Engine.routers s)
                   (Engine.trucks s) (Engine.time s) (Engine.config s)
                   (Engine.nextTruckId s)
                   (Engine.completedTrips s + 1)
                   (add (Engine.totalTripTime s) totalTime)
                   (add (Engine.totalTripDistance s) totalDistance)
                   (Engine.baseTripTimeAccumulator s),
                 moved None zero finished plan)
            | nextEdgeId :: _ =>
                match List.find (has_id nextEdgeId) edges1 with
                | Some nextEdge =>
                    if may_enter cfg nextEdge then
                      (Engine.set_edges
                         (update_first (has_id nextEdgeId) increment_load edges1) s,
                       moved (Some (Edge.id nextEdge)) zero moving plan)
                    else
                      (Engine.set_edges edges1 s,
                       moved (Truck.currentEdgeId truck) zero waiting plan)
                | None =>
                    (Engine.set_edges edges1 s,
                     moved (Truck.currentEdgeId truck) zero waiting plan)
                end
            end
          else
            (s, moved (Truck.currentEdgeId truck) along moving (Truck.routePlan truck))
      end
  | _ => (s, truck)
  end.

(** [this.trucks.forEach(truck => ...)]: the trucks in array order, each
    callback seeing the edges as the previous ones left them. *)
Fixpoint moveTrucks (s : Engine.t num) (todo : list (Truck.t num))
  : Engine.t num * list (Truck.t num) :=
  match todo with
  | [] => (s, [])
  | truck :: rest =>
      let (s1, truck') := moveTruck s truck in
      let (s2, rest') := moveTrucks s1 rest in
      (s2, truck' :: rest')
  end.

(** The engine immediately after the motion phase (before the finished
    trucks are filtered out). *)
Definition motionPhase (s : Engine.t num) : Engine.t num :=
  let (s', ts) := moveTrucks s (Engine.trucks s) in
  Engine.set_trucks ts s'.

Definition prunePhase (s : Engine.t num) : Engine.t num :=
  Engine.set_trucks
    (List.filter (fun t => negb (TruckState_eqb (Truck.state t) finished))
                 (Engine.trucks s)) s.
End SimulationEngine.

Section Tick.
Context {num : Type} `{JSNumber num}.

(** *** tick, phase 2: localization

    [gaussianRandom(0, sigma)] draws from [Math.random]; its results are an
    input here: [noise j] is the sample drawn for the [j]-th router. *)

Fixpoint nearestRouter (sigma : num) (noise : nat -> num) (position : Point.t num)
    (routers : list (Router.t num)) (j : nat)
    (minD : option num) (nearestRouterId : option string) : option string :=
  match routers with
  | [] => nearestRouterId
  | router :: rest =>
      let d := add (distance position (Router.point router))
                   (if ltb zero sigma then noise j else zero) in
      if lt_or_infinity d minD
      then nearestRouter sigma noise position rest (S j) (Some d) (Some (Router.id router))
      else nearestRouter sigma noise position rest (S j) minD nearestRouterId
  end.

Definition set_localization (truck : Truck.t num)
    (inferredRouterId inferredEdgeId : option string) (lastRouterSwitchTime : num)
    (consecutiveRouterReads : Z) (potentialRouterId : option string) : Truck.t num :=
  Truck.mk num (Truck.id truck) (Truck.position truck) (Truck.currentEdgeId truck)
    (Truck.distanceAlongEdge truck) (Truck.speed truck) (Truck.state truck)
    (Truck.routePlan truck) (Truck.destinationNodeId truck)
    inferredRouterId inferredEdgeId lastRouterSwitchTime
    consecutiveRouterReads potentialRouterId
    (Truck.totalDistance truck) (Truck.totalTime truck) (Truck.rerouteCount truck).

(** The first mapped edge of the router [this.routers.find] returns, if
    there is one; otherwise the inferred edge stays. *)
Definition mapped_edge (routers : list (Router.t num)) (c : string)
    (inferredEdgeId : option string) : option string :=
  match List.find (fun r => String.eqb (Router.id r) c) routers with
  | Some router =>
      match Router.mappedEdgeIds router with
      | first :: _ => Some first
      | [] => inferredEdgeId
      end
  | None => inferredEdgeId
  end.

(** The block under the comment [// Hysteresis]. *)
Definition hysteresis (hysteresisN : Z) (now : num) (routers : list (Router.t num))
    (nearestRouterId : option string) (truck : Truck.t num) : Truck.t num :=
  match nearestRouterId with
  | Some c =>
      if truthy nearestRouterId then
        if bool_decide (nearestRouterId = Truck.inferredRouterId truck) then
          set_localization truck (Truck.inferredRouterId truck)
            (Truck.inferredEdgeId truck) (Truck.lastRouterSwitchTime truck) 0 None
        else
          let reads :=
            if bool_decide (nearestRouterId = Truck.potentialRouterId truck)
            then Truck.consecutiveRouterReads truck + 1
            else 1 in
          if hysteresisN <=? reads then
            set_localization truck nearestRouterId
              (mapped_edge routers c (Truck.inferredEdgeId truck)) now reads nearestRouterId
          else
            set_localization truck (Truck.inferredRouterId truck)
              (Truck.inferredEdgeId truck) (Truck.lastRouterSwitchTime truck)
              reads nearestRouterId
      else truck
  | None => truck
  end.

Definition localizeTruck (cfg : Config.t num) (now : num) (routers : list (Router.t num))
    (noise : nat -> num) (truck : Truck.t num) : Truck.t num :=
  match Truck.state truck with
  | finished => truck
  | _ =>
      hysteresis (Config.hysteresisN cfg) now routers
        (nearestRouter (Config.routerNoiseSigma cfg) noise (Truck.position truck)
           routers 0%nat None None)
        truck
  end.

(** [noise i j]: the sample for the [i]-th truck of the array and the
    [j]-th router. *)
Fixpoint localizeTrucks (cfg : Config.t num) (now : num) (routers : list (Router.t num))
    (noise : nat -> nat -> num) (i : nat) (ts : list (Truck.t num))
    : list (Truck.t num) :=
  match ts with
  | [] => []
  | truck :: rest =>
      localizeTruck cfg now routers (noise i) truck
        :: localizeTrucks cfg now routers noise (S i) rest
  end.

Definition localizationPhase (noise : nat -> nat -> num) (s : Engine.t num)
  : Engine.t num :=
  Engine.set_trucks
    (localizeTrucks (Engine.config s) (Engine.time s) (Engine.routers s) noise 0%nat
       (Engine.trucks s)) s.

(** *** tick, phase 3: congestion model *)

(** [T0 * (1 + alpha * Math.pow(n / C, beta))]. *)
Definition congestionWeight (cfg : Config.t num) (edge : Edge.t num) : num :=
  let n := of_Z (Edge.currentLoad edge) in
  let C := of_Z (Edge.capacity edge) in
  let congestionFactor :=
    add one (mul (Config.alpha cfg) (Math_pow (div n C) (Config.beta cfg))) in
  mul (Edge.baseTravelTime edge) congestionFactor.

Definition updateWeight (cfg : Config.t num) (edge : Edge.t num) : Edge.t num :=
  Edge.set_currentWeight (congestionWeight cfg edge) edge.

Definition congestionPhase (s : Engine.t num) : Engine.t num :=
  Engine.set_edges (map (updateWeight (Engine.config s)) (Engine.edges s)) s.

(** *** tick, phase 4: periodic rerouting *)

Definition set_plan (truck : Truck.t num) (plan : list string) (rerouteCount : Z)
  : Truck.t num :=
  Truck.mk num (Truck.id truck) (Truck.position truck) (Truck.currentEdgeId truck)
    (Truck.distanceAlongEdge truck) (Truck.speed truck) (Truck.state truck)
    plan (Truck.destinationNodeId truck)
    (Truck.inferredRouterId truck) (Truck.inferredEdgeId truck)
    (Truck.lastRouterSwitchTime truck) (Truck.consecutiveRouterReads truck)
    (Truck.potentialRouterId truck)
    (Truck.totalDistance truck) (Truck.totalTime truck) rerouteCount.

(** The guard [truck.state !== 'moving' || !truck.destinationNodeId ||
    !truck.currentEdgeId] negated. *)
Definition reroutable (truck : Truck.t num) : bool :=
  TruckState_eqb (Truck.state truck) moving
  && truthy (Truck.destinationNodeId truck)
  && truthy (Truck.currentEdgeId truck).

Definition rerouteTruck (fuel : nat) (nodes : gmap string (Node.t num))
    (edges : list (Edge.t num)) (truck : Truck.t num) : option (Truck.t num) :=
  if reroutable truck then
    match Truck.currentEdgeId truck, Truck.destinationNodeId truck,
          find_edge (Truck.currentEdgeId truck) edges with
    | Some currentEdgeId, Some destinationNodeId, Some currentEdge =>
        match findPath fuel (Edge.targetId currentEdge) destinationNodeId nodes edges with
        | None => None
        | Some None => Some truck
        | Some (Some result) =>
            Some (set_plan truck (currentEdgeId :: PathResult.path result)
                    (Truck.rerouteCount truck + 1))
        end
    | _, _, _ => Some truck
    end
  else Some truck.

Fixpoint rerouteTrucks (fuel : nat) (nodes : gmap string (Node.t num))
    (edges : list (Edge.t num)) (ts : list (Truck.t num))
    : option (list (Truck.t num)) :=
  match ts with
  | [] => Some []
  | truck :: rest =>
      match rerouteTruck fuel nodes edges truck with
      | None => None
      | Some truck' =>
          match rerouteTrucks fuel nodes edges rest with
          | None => None
          | Some rest' => Some (truck' :: rest')
          end
      end
  end.

(** [this.time % this.config.rerouteInterval < dt]. *)
Definition reroute_due (s : Engine.t num) : bool :=
  ltb (rem (Engine.time s) (Config.rerouteInterval (Engine.config s)))
      (Config.dt (Engine.config s)).

Definition reroutePhase (fuel : nat) (s : Engine.t num) : option (Engine.t num) :=
  if reroute_due s then
    match rerouteTrucks fuel (Engine.nodes s) (Engine.edges s) (Engine.trucks s) with
    | Some ts => Some (Engine.set_trucks ts s)
    | None => None
    end
  else Some s.

(** *** tick *)

Definition advanceTime (s : Engine.t num) : Engine.t num :=
  Engine.set_time (add (Engine.time s) (Config.dt (Engine.config s))) s.

(** The engine after the motion phase of a tick that starts in [s]. *)
Definition afterMotion (s : Engine.t num) : Engine.t num :=
  motionPhase (advanceTime s).

Definition tick (fuel : nat) (noise : nat -> nat -> num) (s : Engine.t num)
  : option (Engine.t num) :=
  reroutePhase fuel
    (congestionPhase (localizationPhase noise (prunePhase (afterMotion s)))).
End Tick.

(** ** Exact rational numbers as an instance

    Every operation is the exact one.  [Math.sqrt] and [Math.pow] are
    parameters of the instance; [Qexact] takes the integer square root of
    numerator and denominator and integer powers, which is what JavaScript
    computes on the perfect squares and integer exponents of the examples
    below.  [Infinity] is not a member, so every number is below it. *)

Definition Qltb (a b : Q) : bool := negb (Qle_bool b a).

(** [a % b]: [a - b * trunc(a / b)]. *)
Definition Qrem (a b : Q) : Q :=
  (a - b * inject_Z (Z.quot (Qnum a * Zpos (Qden b)) (Qnum b * Zpos (Qden a))))%Q.

Definition Qnumber (sqrt : Q -> Q) (pow : Q -> Q -> Q) : JSNumber Q := {|
  zero := 0%Q;
  one := 1%Q;
  add := Qplus;
  sub := Qminus;
  mul := Qmult;
  div := Qdiv;
  rem := Qrem;
  ltb := Qltb;
  geb := fun a b => Qle_bool b a;
  lt_infinity := fun _ => true;
  Math_sqrt := sqrt;
  Math_pow := pow;
  Math_min := fun a b => if Qle_bool a b then a else b;
  of_Z := inject_Z
|}.

Definition Qsqrt_exact (q : Q) : Q :=
  let r := Qred q in (Z.sqrt (Qnum r) # Pos.sqrt (Qden r))%Q.

Definition Qpow_integer (a b : Q) : Q := Qred (Qpower a (Qnum (Qred b))).

Definition Qexact : JSNumber Q := Qnumber Qsqrt_exact Qpow_integer.

(** ** A small site used to run the definitions

    Three collinear nodes.  The direct road [sg] has free-flow time
    [60 / 1.5 = 40]; the detour takes [sa] ([30 / 1 = 30]) and then the fast
    road [ag] ([30 / 30 = 1]).  Every weight is the free-flow time of its
    edge (no load). *)

Module Site.
#[local] Existing Instance Qexact.
Local Open Scope Q_scope.

Definition node (i : string) (x y : Z) : Node.t Q :=
  Node.mk Q i (inject_Z x) (inject_Z y) i.

Definition road (i s t : string) (len speed time : Q) (closed : bool) : Edge.t Q :=
  Edge.mk Q i s t len 2%Z speed time 0%Z time closed.

Definition nodes : gmap string (Node.t Q) :=
  <["S" := node "S" 0 0]> (<["A" := node "A" 30 0]> (<["G" := node "G" 60 0]> ∅)).

Definition sg : Edge.t Q := road "sg" "S" "G" 60 (3 # 2) 40 false.
Definition sa : Edge.t Q := road "sa" "S" "A" 30 1 30 false.
Definition ag : Edge.t Q := road "ag" "A" "G" 30 30 1 false.

Definition edges : list (Edge.t Q) := [sg; sa; ag].

Definition router (i : string) (x y : Z) (mapped : list string) : Router.t Q :=
  Router.mk Q i (inject_Z x) (inject_Z y) mapped.

Definition routers : list (Router.t Q) :=
  [router "R-1" 0 0 ["sa"]; router "R-2" 60 0 ["ag"]].

Definition config (p : Policy) : Config.t Q :=
  Config.mk Q 1 3%Z 0 1 2 2 20 40 p.

Definition engine (p : Policy) (es : list (Edge.t Q)) (ts : list (Truck.t Q))
  : Engine.t Q :=
  Engine.mk Q nodes es routers ts 0 (config p) 1%Z 0%Z 0 0 0.

(** A truck on edge [e] that has covered [along] of it, at [x] on the line
    of the three nodes. *)
Definition truck (i e : string) (along x : Q) (st : TruckState) (plan : list string)
  : Truck.t Q :=
  Truck.mk Q i (Point.mk Q x 0) (Some e) along 20 st plan (Some "G")
    None None 0 0%Z None 0 0 0%Z.

Definition no_noise : nat -> nat -> Q := fun _ _ => 0.

Definition engine_at (now : Q) (p : Policy) (es : list (Edge.t Q))
    (ts : list (Truck.t Q)) : Engine.t Q :=
  Engine.mk Q nodes es routers ts now (config p) 1%Z 0%Z 0 0 0.

(** The engine after a tick with fuel 10 and no noise ([s] itself should
    the tick not complete). *)
Definition ticked (s : Engine.t Q) : Engine.t Q :=
  match tick 10 no_noise s with
  | Some s' => s'
  | None => s
  end.

Definition ag_closed : Edge.t Q := road "ag" "A" "G" 30 30 1 true.

(** One truck 20 units into [sa], about to reach its end, with the closed
    edge [ag] next on its plan, under the policy [closed_when_full]. *)
Definition blocked : Engine.t Q :=
  engine closed_when_full [Edge.set_currentLoad 1 sa; ag_closed]
    [truck "T-1" "sa" 20 20 moving ["sa"; "ag"]].

(** One truck at the start of [sa], one second before a re-plan is due. *)
Definition cruising : Engine.t Q :=
  engine_at 1 queue [sg; Edge.set_currentLoad 1 sa; ag]
    [truck "T-1" "sa" 0 0 moving ["sa"; "ag"]].

(** A truck halted at the end of [sa], in front of the closed edge. *)
Definition halted_truck : Truck.t Q := truck "T-1" "sa" 0 30 waiting ["ag"].

Definition halted : Engine.t Q :=
  engine_at 1 closed_when_full [sa; ag_closed] [halted_truck].

(** A truck that has read the beacon [R-2] twice in a row. *)
Definition pending_truck : Truck.t Q :=
  Truck.mk Q "T-1" (Point.mk Q 0 0) (Some "sa") 0 20 moving ["sa"; "ag"] (Some "G")
    None None 0 2%Z (Some "R-2") 0 0 0%Z.

(** The same site with a fast road from [S] to [A]: the heuristic then
    never overestimates. *)
Definition fast_sa : Edge.t Q := road "sa" "S" "A" 30 30 1 false.
Definition fast_edges : list (Edge.t Q) := [sg; fast_sa; ag].

(** An edge with capacity 0. *)
Definition no_capacity : Edge.t Q :=
  Edge.mk Q "e-S-A" "S" "A" 30 0%Z 30 1 0%Z 1 false.
End Site.

(** ** Two edges under one identifier

    What the map editor leaves when the same two nodes are joined twice:
    both edges are called [e-S-G].  The first carries a truck and is closed,
    the second is free and open. *)

Module Twins.
Local Open Scope Q_scope.

Definition twin_closed : Edge.t Q :=
  Edge.mk Q "e-S-G" "S" "G" 60 2%Z 30 2 1%Z (5 # 2) true.

Definition twin_open : Edge.t Q :=
  Edge.mk Q "e-S-G" "S" "G" 60 2%Z 30 2 0%Z 2 false.

Definition twins : list (Edge.t Q) := [twin_closed; twin_open].
End Twins.

(** ** Vocabulary of the statements *)

Section Vocabulary.
Context {num : Type} `{JSNumber num}.

(** The hysteresis filter fed a sequence of readings, each with the
    simulation time at which it is taken. *)
Definition feed (hysteresisN : Z) (routers : list (Router.t num))
    (readings : list (num * string)) (truck : Truck.t num) : Truck.t num :=
  fold_left (fun t r => hysteresis hysteresisN (fst r) routers (Some (snd r)) t)
            readings truck.

(** Two snapshots of a truck that differ at most in the localization
    fields. *)
Definition frozen (t t' : Truck.t num) : Prop :=
  Truck.id t' = Truck.id t /\
  Truck.state t' = Truck.state t /\
  Truck.position t' = Truck.position t /\
  Truck.currentEdgeId t' = Truck.currentEdgeId t /\
  Truck.distanceAlongEdge t' = Truck.distanceAlongEdge t /\
  Truck.speed t' = Truck.speed t /\
  Truck.routePlan t' = Truck.routePlan t /\
  Truck.destinationNodeId t' = Truck.destinationNodeId t /\
  Truck.totalDistance t' = Truck.totalDistance t /\
  Truck.totalTime t' = Truck.totalTime t /\
  Truck.rerouteCount t' = Truck.rerouteCount t.

(** What may happen to an engine between two observations: a completed
    tick, or an edit of nodes, edges, routers or configuration, which
    leaves the truck array alone. *)
Inductive step : Engine.t num -> Engine.t num -> Prop :=
| step_tick fuel noise s s' : tick fuel noise s = Some s' -> step s s'
| step_edit s s' : Engine.trucks s' = Engine.trucks s -> step s s'.

Inductive steps : Engine.t num -> Engine.t num -> Prop :=
| steps_refl s : steps s s
| steps_cons s1 s2 s3 : step s1 s2 -> steps s2 s3 -> steps s1 s3.

(** A truck that occupies the edge with identifier [i]: it is moving and
    [i] is its current edge. *)
Definition occupies (i : string) (t : Truck.t num) : bool :=
  TruckState_eqb (Truck.state t) moving
  && bool_decide (Truck.currentEdgeId t = Some i).

(** A truck of the active set whose current edge is [i], whatever its
    state. *)
Definition is_on (i : string) (t : Truck.t num) : bool :=
  bool_decide (Truck.currentEdgeId t = Some i).

Definition count_trucks (p : Truck.t num -> bool) (ts : list (Truck.t num)) : Z :=
  Z.of_nat (List.length (List.filter p ts)).

(** Every edge carries as load the number of trucks that occupy it. *)
Definition loads_match (es : list (Edge.t num)) (ts : list (Truck.t num)) : Prop :=
  forall e, In e es -> Edge.currentLoad e = count_trucks (occupies (Edge.id e)) ts.

Definition unique_ids (es : list (Edge.t num)) : Prop :=
  NoDup (map Edge.id es).

(** What one callback of the motion loop does to the edge array: every
    edge keeps its identifier, loses one unit of load if the truck occupied
    it before and gains one if the truck occupies it afterwards. *)
Definition load_shift (t t1 : Truck.t num) (es es1 : list (Edge.t num)) : Prop :=
  exists g, es1 = map g es /\
    (forall e, Edge.id (g e) = Edge.id e) /\
    (forall e, In e es ->
       (occupies (Edge.id e) t = true -> 1 <= Edge.currentLoad e) ->
       Edge.currentLoad (g e) =
         Edge.currentLoad e - Z.b2z (occupies (Edge.id e) t)
                            + Z.b2z (occupies (Edge.id e) t1)).

(** *** Paths

    The weight the planner's bookkeeping gives to an edge identifier: the
    [currentWeight] of the edge [find] returns for it. *)
Definition weight_of (edges : list (Edge.t num)) (i : string) : num :=
  match List.find (has_id i) edges with
  | Some e => Edge.currentWeight e
  | None => zero
  end.

(** The sum of the weights of a path of edge identifiers, accumulated from
    its last edge back to its first, the order of [reconstructPath]. *)
Definition path_cost (edges : list (Edge.t num)) (path : list string) : num :=
  fold_right (fun i acc => add acc (weight_of edges i)) zero path.

(** [i] is the identifier of an edge of the array that is not closed. *)
Definition open_id (edges : list (Edge.t num)) (i : string) : Prop :=
  exists e, In e edges /\ Edge.id e = i /\ Edge.isClosed e = false.

(** [i] resolves, by [find], to an edge that is not closed. *)
Definition resolves_open (edges : list (Edge.t num)) (i : string) : Prop :=
  exists e, List.find (has_id i) edges = Some e /\ Edge.isClosed e = false.

(** Every link of [cameFrom] is an edge of the array that is not closed
    and joins the two nodes of the link. *)
Definition sound_links (edges : list (Edge.t num))
    (cf : gmap string (string * string)) : Prop :=
  forall v i u, cf !! v = Some (i, u) ->
    exists e, In e edges /\ Edge.id e = i /\ Edge.isClosed e = false /\
              Edge.sourceId e = u /\ Edge.targetId e = v.

(** A route: consecutive edges of the array, none closed, from [a] to
    [b]. *)
Inductive route (edges : list (Edge.t num)) : string -> string -> list (Edge.t num) -> Prop :=
| route_nil a : route edges a a []
| route_cons e b rest :
    In e edges -> Edge.isClosed e = false ->
    route edges (Edge.targetId e) b rest ->
    route edges (Edge.sourceId e) b (e :: rest).

Definition route_cost (r : list (Edge.t num)) : num :=
  fold_right (fun e acc => add acc (Edge.currentWeight e)) zero r.

(** The states an engine goes through when, after [clearSimulation], it is
    only asked to spawn trucks and to tick. *)
Inductive run : Engine.t num -> Prop :=
| run_clear s : unique_ids (Engine.edges s) -> run (clearSimulation s)
| run_spawn fuel rand a b s s' w :
    run s -> spawnTruck fuel rand a b s = Some (s', w) -> run s'
| run_tick fuel noise s s' :
    run s -> tick fuel noise s = Some s' -> run s'.

(** The state the engine is in before the re-plan phase of a tick. *)
Definition beforeReroute (noise : nat -> nat -> num) (s : Engine.t num) : Engine.t num :=
  congestionPhase (localizationPhase noise (prunePhase (afterMotion s))).

(** The effect of the re-plan phase on one truck that passes its guard. *)
Definition replanned (fuel : nat) (nodes : gmap string (Node.t num))
    (edges : list (Edge.t num)) (t t' : Truck.t num) : Prop :=
  forall currentEdgeId destinationNodeId currentEdge,
    Truck.state t = moving ->
    Truck.destinationNodeId t = Some destinationNodeId -> destinationNodeId <> "" ->
    Truck.currentEdgeId t = Some currentEdgeId -> currentEdgeId <> "" ->
    List.find (has_id currentEdgeId) edges = Some currentEdge ->
    (forall result,
       findPath fuel (Edge.targetId currentEdge) destinationNodeId nodes edges
         = Some (Some result) ->
       Truck.routePlan t' = currentEdgeId :: PathResult.path result /\
       Truck.rerouteCount t' = Truck.rerouteCount t + 1 /\
       t' = set_plan t (Truck.routePlan t') (Truck.rerouteCount t')) /\
    (findPath fuel (Edge.targetId currentEdge) destinationNodeId nodes edges = Some None ->
       t' = t).
End Vocabulary.

(** ** The planner over exact numbers

    What the search maintains when numbers are the exact rationals, weights
    are not negative and the heuristic never overestimates.  [a] is the start
    node, [b] the goal. *)

Section ExactPlanner.
Variables (sqrt : Q -> Q) (pow : Q -> Q -> Q).
#[local] Instance exact_numbers : JSNumber Q := Qnumber sqrt pow.

Definition nonneg_weights (edges : list (Edge.t Q)) : Prop :=
  forall e, In e edges -> Edge.isClosed e = false -> (0 <= Edge.currentWeight e)%Q.

(** The heuristic value given to the target of an open edge is not negative
    and is at most the cost of any route from that target to the goal. *)
Definition admissible (nodes : gmap string (Node.t Q)) (endNode : Node.t Q)
    (b : string) (edges : list (Edge.t Q)) : Prop :=
  forall e, In e edges -> Edge.isClosed e = false ->
    (0 <= heuristic nodes endNode e)%Q /\
    forall p, route edges (Edge.targetId e) b p ->
      (heuristic nodes endNode e <= route_cost p)%Q.

(** The bookkeeping of the search.  [relaxed e] tells for which edges the
    loop over the neighbours has already run. *)
Record search_inv (nodes : gmap string (Node.t Q)) (endNode : Node.t Q)
    (a : string) (edges : list (Edge.t Q)) (relaxed : Edge.t Q -> Prop)
    (s : Search) : Prop := {
  inv_start : exists g0, gScore s !! a = Some g0 /\ (g0 == 0)%Q;
  inv_nonneg : forall v g, gScore s !! v = Some g -> (0 <= g)%Q;
  inv_scored : forall v, In v (openSet s) ->
    (exists f, fScore s !! v = Some f) /\ (exists g, gScore s !! v = Some g);
  inv_open : forall v, In v (openSet s) -> v <> a ->
    exists e g, In e edges /\ Edge.isClosed e = false /\ Edge.targetId e = v /\
                gScore s !! v = Some g /\
                fScore s !! v = Some (g + heuristic nodes endNode e)%Q;
  inv_relaxed : forall e, In e edges -> Edge.isClosed e = false -> relaxed e ->
    ~ In (Edge.sourceId e) (openSet s) ->
    forall gu, gScore s !! Edge.sourceId e = Some gu ->
      exists gv, gScore s !! Edge.targetId e = Some gv /\
                 (gv <= gu + Edge.currentWeight e)%Q;
  inv_links : forall v i u, cameFrom s !! v = Some (i, u) ->
    v <> a /\
    exists e gu gv, In e edges /\ Edge.id e = i /\ Edge.isClosed e = false /\
                    Edge.sourceId e = u /\ Edge.targetId e = v /\
                    gScore s !! u = Some gu /\ gScore s !! v = Some gv /\
                    (gu + Edge.currentWeight e <= gv)%Q;
  inv_reached : forall v g, gScore s !! v = Some g -> v <> a ->
    exists l, cameFrom s !! v = Some l
}.

(** Between two turns of the [while] loop every open edge is relaxed, and
    the start node is in the open set only before the first turn. *)
Definition between_turns nodes endNode a edges (s : Search) : Prop :=
  search_inv nodes endNode a edges (fun _ => True) s /\
  (In a (openSet s) -> openSet s = [a]).

(** Inside the loop over the neighbours of [current], after the edges of
    [done]. *)
Definition within_turn nodes endNode a edges (current : string)
    (done : list (Edge.t Q)) (s : Search) : Prop :=
  search_inv nodes endNode a edges
    (fun e => Edge.sourceId e <> current \/ In e done) s /\
  ~ In a (openSet s) /\
  ~ In current (openSet s) /\
  exists g, gScore s !! current = Some g.
End ExactPlanner.

(** ** The planner in any arithmetic

    What the search needs of the numbers it runs on, stated for any
    interpretation of the JavaScript numbers, rounded or not.  The premises
    [tame] and [steady] below ask for no exact sum: [<] on the doubles other
    than [NaN] is a strict total order and a sum rounded to nearest is
    monotone in each argument, so the finite doubles that are not negative
    meet them whenever the weights are such doubles and are small enough
    (below 2^970) for no sum with a finite double to overflow.  The exact
    rationals meet them as well ([exact_tame], [exact_steady]). *)

Section ReachVocabulary.
Context {num : Type} `{JSNumber num}.

(** Scores stay below [Infinity]: zero is, and so is the sum of a score
    that is and the weight of an open edge.  It rules out weights that are
    [NaN] or [Infinity] and sums that overflow. *)
Definition finite_sums (edges : list (Edge.t num)) : Prop :=
  lt_infinity zero = true /\
  forall g e, lt_infinity g = true -> In e edges -> Edge.isClosed e = false ->
    lt_infinity (add g (Edge.currentWeight e)) = true.

(** What the search has explored: every score is below [Infinity]; the
    goal, once scored, is in the open set; and an open edge that leaves a
    scored node outside the open set leads to a scored node. *)
Definition surveyed (edges : list (Edge.t num)) (b : string) (s : Search) : Prop :=
  (forall v g, gScore s !! v = Some g -> lt_infinity g = true) /\
  (forall g, gScore s !! b = Some g -> In b (openSet s)) /\
  (forall e, In e edges -> Edge.isClosed e = false ->
     is_Some (gScore s !! Edge.sourceId e) -> ~ In (Edge.sourceId e) (openSet s) ->
     is_Some (gScore s !! Edge.targetId e)).
End ReachVocabulary.

Section RoundedVocabulary.
Context {num : Type} `{JSNumber num}.

(** [x] is not above [y]: the test [y < x] fails. *)
Definition not_above (x y : num) : Prop := ltb y x = false.

(** The numbers a search meets, [ok], behave: they are below [Infinity]
    and [<] orders them. *)
Record tame (ok : num -> Prop) : Prop := {
  tame_zero : ok zero;
  tame_finite : forall x, ok x -> lt_infinity x = true;
  tame_refl : forall x, ok x -> not_above x x;
  tame_trans : forall x y z, ok x -> ok y -> ok z ->
    not_above x y -> not_above y z -> not_above x z;
  tame_lt : forall x y, ok x -> ok y -> ltb x y = true -> not_above x y
}.

(** Adding the weight of an open edge to such a number gives such a
    number, does not lower it, and keeps the order: the weights are not
    negative and [+], rounded or not, is monotone. *)
Record steady (ok : num -> Prop) (edges : list (Edge.t num)) : Prop := {
  steady_ok : forall g e, ok g -> In e edges -> Edge.isClosed e = false ->
    ok (add g (Edge.currentWeight e));
  steady_up : forall g e, ok g -> In e edges -> Edge.isClosed e = false ->
    not_above g (add g (Edge.currentWeight e));
  steady_mono : forall g g' e, ok g -> ok g' -> In e edges -> Edge.isClosed e = false ->
    not_above g g' ->
    not_above (add g (Edge.currentWeight e)) (add g' (Edge.currentWeight e))
}.

(** The cost of walking a route from a node scored [g]: the weights added
    to [g] one after the other, from the first edge to the last, as the
    search adds them. *)
Definition walk_cost (g : num) (p : list (Edge.t num)) : num :=
  fold_left (fun acc e => add acc (Edge.currentWeight e)) p g.

(** The heuristic never overestimates, in the arithmetic of the search:
    added to a score it gives a number that is not below the score and not
    above what walking any route to the goal from there gives. *)
Definition cautious (ok : num -> Prop) (nodes : gmap string (Node.t num))
    (endNode : Node.t num) (b : string) (edges : list (Edge.t num)) : Prop :=
  forall e g, In e edges -> Edge.isClosed e = false -> ok g ->
    ok (add g (heuristic nodes endNode e)) /\
    not_above g (add g (heuristic nodes endNode e)) /\
    forall p, route edges (Edge.targetId e) b p ->
      not_above (add g (heuristic nodes endNode e)) (walk_cost g p).

(** The bookkeeping of the search in that arithmetic. *)
Record rounded_inv (ok : num -> Prop) (nodes : gmap string (Node.t num))
    (endNode : Node.t num) (a : string) (edges : list (Edge.t num))
    (relaxed : Edge.t num -> Prop) (s : Search) : Prop := {
  r_start : gScore s !! a = Some zero;
  r_ok : forall v g, gScore s !! v = Some g -> ok g /\ not_above zero g;
  r_scored : forall v, In v (openSet s) ->
    (exists f, fScore s !! v = Some f /\ ok f) /\ (exists g, gScore s !! v = Some g);
  r_open : forall v, In v (openSet s) -> v <> a ->
    exists e g, In e edges /\ Edge.isClosed e = false /\ Edge.targetId e = v /\
                gScore s !! v = Some g /\
                fScore s !! v = Some (add g (heuristic nodes endNode e));
  r_relaxed : forall e, In e edges -> Edge.isClosed e = false -> relaxed e ->
    ~ In (Edge.sourceId e) (openSet s) ->
    forall gu, gScore s !! Edge.sourceId e = Some gu ->
      exists gv, gScore s !! Edge.targetId e = Some gv /\
                 not_above gv (add gu (Edge.currentWeight e));
  r_links : forall v i u, cameFrom s !! v = Some (i, u) ->
    v <> a /\
    exists e gu gv, In e edges /\ Edge.id e = i /\ Edge.isClosed e = false /\
                    Edge.sourceId e = u /\ Edge.targetId e = v /\
                    gScore s !! u = Some gu /\ gScore s !! v = Some gv /\
                    not_above (add gu (Edge.currentWeight e)) gv;
  r_reached : forall v g, gScore s !! v = Some g -> v <> a ->
    exists l, cameFrom s !! v = Some l
}.

Definition r_between_turns ok nodes endNode a edges (s : Search) : Prop :=
  rounded_inv ok nodes endNode a edges (fun _ => True) s /\
  (In a (openSet s) -> openSet s = [a]).

Definition r_within_turn ok nodes endNode a edges (current : string)
    (done : list (Edge.t num)) (s : Search) : Prop :=
  rounded_inv ok nodes endNode a edges
    (fun e => Edge.sourceId e <> current \/ In e done) s /\
  ~ In a (openSet s) /\
  ~ In current (openSet s) /\
  exists g, gScore s !! current = Some g.
End RoundedVocabulary.

(** ** The remaining operations of the engine and of the geometry

    [distanceToSegment] and [getStats] use two operations on numbers that
    the code modelled so far does not: strict equality and [Math.max]. *)

Class JSMath (num : Type) := {
  strict_eq : num -> num -> bool;   (* a === b *)
  Math_max : num -> num -> num
}.

Module Stats.
Record t {num : Type} := mk {
  time : num;
  activeTrucks : Z;
  completedTrips : Z;
  avgTravelTime : num;
  totalDistance : num;
  avgDelay : num
}.
Arguments t : clear implicits.
End Stats.

(** The argument of [loadMap]. *)
Module MapData.
Record t {num : Type} := mk {
  nodes : list (Node.t num);
  edges : list (Edge.t num);
  routers : list (Router.t num)
}.
Arguments t : clear implicits.
End MapData.

Section Remaining.
Context {num : Type} `{JSNumber num} `{JSMath num}.

(** *** [src/services/geometry.ts] *)

Definition distanceToSegment (p v w : Point.t num) : num :=
  let l2 := Math_pow (distance v w) (of_Z 2) in
  if strict_eq l2 zero then distance p v
  else
    let t := div (add (mul (sub (Point.x p) (Point.x v)) (sub (Point.x w) (Point.x v)))
                      (mul (sub (Point.y p) (Point.y v)) (sub (Point.y w) (Point.y v))))
                 l2 in
    let t := Math_max zero (Math_min one t) in
    let projection :=
      Point.mk num (add (Point.x v) (mul t (sub (Point.x w) (Point.x v))))
                   (add (Point.y v) (mul t (sub (Point.y w) (Point.y v)))) in
    distance p projection.

(** The [forEach] of [findNearestEdge], from the edge it has reached, with
    the two variables [minDist] (initially [Infinity]) and [nearestId]
    (initially [null]). *)
Fixpoint nearestEdgeFrom (p : Point.t num) (nodes : gmap string (Node.t num))
    (edges : list (Edge.t num)) (minDist : option num) (nearestId : option string)
    : option string :=
  match edges with
  | [] => nearestId
  | edge :: rest =>
      match nodes !! Edge.sourceId edge, nodes !! Edge.targetId edge with
      | Some start, Some end_ =>
          let d := distanceToSegment p (Node.point start) (Node.point end_) in
          if lt_or_infinity d minDist
          then nearestEdgeFrom p nodes rest (Some d) (Some (Edge.id edge))
          else nearestEdgeFrom p nodes rest minDist nearestId
      | _, _ => nearestEdgeFrom p nodes rest minDist nearestId
      end
  end.

Definition findNearestEdge (p : Point.t num) (edges : list (Edge.t num))
    (nodes : gmap string (Node.t num)) : option string :=
  nearestEdgeFrom p nodes edges None None.

(** *** [src/services/SimulationEngine.ts] *)

Definition set_mapping (ids : list string) (r : Router.t num) : Router.t num :=
  Router.mk num (Router.id r) (Router.x r) (Router.y r) ids.

(** [loadMap]'s pass over the routers: one without mapped edges gets the
    nearest edge, if there is one with a truthy identifier. *)
Definition automap (edges : list (Edge.t num)) (nodes : gmap string (Node.t num))
    (r : Router.t num) : Router.t num :=
  match Router.mappedEdgeIds r with
  | [] =>
      let nearest := findNearestEdge (Router.point r) edges nodes in
      match nearest with
      | Some i => if truthy nearest then set_mapping [i] r else r
      | None => r
      end
  | _ :: _ => r
  end.

(** [data.nodes.forEach(n => this.nodes.set(n.id, n))] on the cleared map. *)
Definition index_nodes (ns : list (Node.t num)) : gmap string (Node.t num) :=
  fold_left (fun m n => <[Node.id n := n]> m) ns ∅.

Definition loadMap (data : MapData.t num) (s : Engine.t num) : Engine.t num :=
  let nodes := index_nodes (MapData.nodes data) in
  Engine.mk num nodes (MapData.edges data)
    (map (automap (MapData.edges data) nodes) (MapData.routers data))
    [] zero (Engine.config s) 1 0 zero zero (Engine.baseTripTimeAccumulator s).

Definition set_nodes (ns : gmap string (Node.t num)) (s : Engine.t num) : Engine.t num :=
  Engine.mk num ns (Engine.edges s) (Engine.routers s) (Engine.trucks s) (Engine.time s)
    (Engine.config s) (Engine.nextTruckId s) (Engine.completedTrips s)
    (Engine.totalTripTime s) (Engine.totalTripDistance s)
    (Engine.baseTripTimeAccumulator s).

Definition set_routers (rs : list (Router.t num)) (s : Engine.t num) : Engine.t num :=
  Engine.mk num (Engine.nodes s) (Engine.edges s) rs (Engine.trucks s) (Engine.time s)
    (Engine.config s) (Engine.nextTruckId s) (Engine.completedTrips s)
    (Engine.totalTripTime s) (Engine.totalTripDistance s)
    (Engine.baseTripTimeAccumulator s).

Definition addNode (node : Node.t num) (s : Engine.t num) : Engine.t num :=
  set_nodes (<[Node.id node := node]> (Engine.nodes s)) s.

(** [this.edges.some(e => e.id === eid)]. *)
Definition edge_exists (edges : list (Edge.t num)) (eid : string) : bool :=
  existsb (has_id eid) edges.

Definition removeNode (i : string) (s : Engine.t num) : Engine.t num :=
  let edges :=
    List.filter (fun e => negb (String.eqb (Edge.sourceId e) i)
                          && negb (String.eqb (Edge.targetId e) i)) (Engine.edges s) in
  Engine.mk num (delete i (Engine.nodes s)) edges
    (map (purge_mapping (edge_exists edges)) (Engine.routers s))
    (Engine.trucks s) (Engine.time s) (Engine.config s) (Engine.nextTruckId s)
    (Engine.completedTrips s) (Engine.totalTripTime s) (Engine.totalTripDistance s)
    (Engine.baseTripTimeAccumulator s).

Definition addRouter (router : Router.t num) (s : Engine.t num) : Engine.t num :=
  let nearest := findNearestEdge (Router.point router) (Engine.edges s) (Engine.nodes s) in
  let mapped :=
    match nearest with
    | Some i => if truthy nearest then [i] else []
    | None => []
    end in
  set_routers (Engine.routers s ++ [set_mapping mapped router]) s.

Definition removeRouter (i : string) (s : Engine.t num) : Engine.t num :=
  set_routers (List.filter (fun r => negb (String.eqb (Router.id r) i)) (Engine.routers s)) s.

Definition getStats (s : Engine.t num) : Stats.t num :=
  let cfg := Engine.config s in
  let totalDelay :=
    if 0 <? Engine.completedTrips s then
      sub (Engine.totalTripTime s)
          (div (Engine.totalTripDistance s)
               (div (add (Config.truckSpeedMax cfg) (Config.truckSpeedMin cfg)) (of_Z 2)))
    else zero in
  Stats.mk num
    (Engine.time s)
    (Z.of_nat (List.length (Engine.trucks s)))
    (Engine.completedTrips s)
    (if 0 <? Engine.completedTrips s
     then div (Engine.totalTripTime s) (of_Z (Engine.completedTrips s))
     else zero)
    (Engine.totalTripDistance s)
    (Math_max zero totalDelay).
End Remaining.

(** Exact rationals: strict equality is equality of the values. *)
Definition Qmath : JSMath Q := {|
  strict_eq := Qeq_bool;
  Math_max := fun a b => if Qle_bool a b then b else a
|}.

(** ** Vocabulary for the whole life of an engine *)

Section Reachable.
Context {num : Type} `{JSNumber num} `{JSMath num}.

(** The field initializers and the constructor of [SimulationEngine]. *)
Definition newSimulationEngine (config : Config.t num) : Engine.t num :=
  Engine.mk num ∅ [] [] [] zero config 1 0 zero zero zero.

Definition toggle_isClosed (e : Edge.t num) : Edge.t num :=
  Edge.mk num (Edge.id e) (Edge.sourceId e) (Edge.targetId e) (Edge.length e)
    (Edge.capacity e) (Edge.baseSpeed e) (Edge.baseTravelTime e) (Edge.currentLoad e)
    (Edge.currentWeight e) (negb (Edge.isClosed e)).

(** [handleToggleClosure] of [App.tsx], which writes [isClosed] on the edge
    object of the engine. *)
Definition handleToggleClosure (edgeId : string) (s : Engine.t num) : Engine.t num :=
  Engine.set_edges (update_first (has_id edgeId) toggle_isClosed (Engine.edges s)) s.

(** The states an engine can be in: it is constructed, and then the
    methods of the class and the closure toggle of the application act on
    it.  [removals] tells whether [removeNode] and [removeEdge] are among
    them. *)
Inductive reachable (removals : bool) : Engine.t num -> Prop :=
| reach_new config : reachable removals (newSimulationEngine config)
| reach_loadMap data s : reachable removals s -> reachable removals (loadMap data s)
| reach_clearSimulation s : reachable removals s -> reachable removals (clearSimulation s)
| reach_addNode node s : reachable removals s -> reachable removals (addNode node s)
| reach_removeNode i s :
    removals = true -> reachable removals s -> reachable removals (removeNode i s)
| reach_addEdge edge s : reachable removals s -> reachable removals (addEdge edge s)
| reach_removeEdge i s :
    removals = true -> reachable removals s -> reachable removals (removeEdge i s)
| reach_addRouter router s : reachable removals s -> reachable removals (addRouter router s)
| reach_removeRouter i s : reachable removals s -> reachable removals (removeRouter i s)
| reach_toggle i s : reachable removals s -> reachable removals (handleToggleClosure i s)
| reach_spawn fuel rand a b s s' w :
    reachable removals s -> spawnTruck fuel rand a b s = Some (s', w) ->
    reachable removals s'
| reach_tick fuel noise s s' :
    reachable removals s -> tick fuel noise s = Some s' -> reachable removals s'.

(** A truck that is moving, waiting or idle. *)
Definition active (t : Truck.t num) : Prop :=
  Truck.state t = moving \/ Truck.state t = waiting \/ Truck.state t = idle.

(** An identifier the counter [nextTruckId] has given out since it was last
    reset. *)
Definition issued (next : Z) (i : string) : Prop :=
  exists k, 1 <= k < next /\ i = "T-" +:+ pretty k.

(** The test of the filter that ends the motion phase. *)
Definition not_finished (t : Truck.t num) : bool :=
  negb (TruckState_eqb (Truck.state t) finished).

(** The shape of a truck's plan: that of a moving or idle truck starts with
    the truck's current edge, that of a waiting truck is not empty. *)
Definition planned (t : Truck.t num) : Prop :=
  ((Truck.state t = moving \/ Truck.state t = idle) /\
   exists c rest, Truck.currentEdgeId t = Some c /\ Truck.routePlan t = c :: rest) \/
  (Truck.state t = waiting /\ Truck.routePlan t <> []).

(** A truck that is under way on an edge of the array, or waits. *)
Definition on_the_map (ids : list string) (t : Truck.t num) : Prop :=
  (Truck.state t = moving /\
   exists c rest, Truck.currentEdgeId t = Some c /\ Truck.routePlan t = c :: rest /\
                  In c ids) \/
  (Truck.state t = waiting /\ Truck.routePlan t <> []).

(** Every edge a router is mapped to is an edge of the array. *)
Definition mappings_valid (edges : list (Edge.t num)) (routers : list (Router.t num))
  : Prop :=
  forall r i, In r routers -> In i (Router.mappedEdgeIds r) -> In i (map Edge.id edges).

(** Every edge joins two nodes of the map. *)
Definition attached (nodes : gmap string (Node.t num)) (edges : list (Edge.t num))
  : Prop :=
  forall e, In e edges ->
    is_Some (nodes !! Edge.sourceId e) /\ is_Some (nodes !! Edge.targetId e).

(** The distance at which the localization phase perceives the [j]-th
    router: the distance from the position plus the noise sample, if
    [sigma] is positive. *)
Definition perceived (sigma : num) (noise : nat -> num) (position : Point.t num)
    (j : nat) (router : Router.t num) : num :=
  add (distance position (Router.point router))
      (if ltb zero sigma then noise j else zero).

(** What localization and re-planning leave of a truck: everything but the
    localization fields, the reroute count and, for a moving truck, the plan
    behind its current edge. *)
Definition carried (t t' : Truck.t num) : Prop :=
  Truck.id t' = Truck.id t /\
  Truck.state t' = Truck.state t /\
  Truck.currentEdgeId t' = Truck.currentEdgeId t /\
  Truck.position t' = Truck.position t /\
  Truck.distanceAlongEdge t' = Truck.distanceAlongEdge t /\
  (Truck.routePlan t' = Truck.routePlan t \/
   (Truck.state t = moving /\
    exists c path, Truck.currentEdgeId t = Some c /\ Truck.routePlan t' = c :: path)).

(** What may happen to an engine while a truck is watched: a completed
    tick, a spawn, or an edit that leaves the truck array alone. *)
Inductive evolves : Engine.t num -> Engine.t num -> Prop :=
| evolves_refl s : evolves s s
| evolves_tick fuel noise s1 s2 s3 :
    tick fuel noise s1 = Some s2 -> evolves s2 s3 -> evolves s1 s3
| evolves_spawn fuel rand a b w s1 s2 s3 :
    spawnTruck fuel rand a b s1 = Some (s2, w) -> evolves s2 s3 -> evolves s1 s3
| evolves_edit s1 s2 s3 :
    Engine.trucks s2 = Engine.trucks s1 -> evolves s2 s3 -> evolves s1 s3.
End Reachable.

(** ** The example site in use

    The site of the examples loaded into a fresh engine, with a beacon that
    comes without mapped edges, and what becomes of it when trucks are
    spawned, a tick passes, or the direct road is removed under a truck. *)

Module Yard.
#[local] Existing Instance Qexact.
#[local] Existing Instance Qmath.
Local Open Scope Q_scope.

Definition fresh : Engine.t Q := newSimulationEngine (Site.config queue).

Definition site_map : MapData.t Q :=
  MapData.mk Q [Site.node "S" 0 0; Site.node "A" 30 0; Site.node "G" 60 0]
    Site.edges [Site.router "R-1" 0 0 []; Site.router "R-2" 60 0 ["ag"]].

Definition opened : Engine.t Q := loadMap site_map fresh.

(** The engine after a request for a truck from [S] to [G] ([s] itself
    should the planner run out of fuel). *)
Definition spawn (s : Engine.t Q) : Engine.t Q :=
  match spawnTruck 10 (1 # 2) "S" "G" s with
  | Some (s', _) => s'
  | None => s
  end.

Definition busy : Engine.t Q := Site.ticked (spawn (spawn opened)).

Definition stranded : Engine.t Q := Site.ticked (removeEdge "sg" (spawn opened)).

Definition first_truck (s : Engine.t Q) : Truck.t Q :=
  hd Site.halted_truck (Engine.trucks s).

(** A run on the site with the fast road: cleared, one truck sent, one
    tick. *)
Definition cleared : Engine.t Q := clearSimulation (Site.engine queue Site.fast_edges []).

Definition underway : Engine.t Q := Site.ticked (spawn cleared).
End Yard.

(** * Properties *)

(** ** Localization filter *)

Section HysteresisProperties.
Context {num : Type} `{JSNumber num}.

Lemma truthy_Some (c : string) : c <> "" -> truthy (Some c) = true.
Proof.
  intros Hc. unfold truthy. destruct (String.eqb_spec c ""); [contradiction | reflexivity].
Qed.

(** The second branch of the filter, for a reading that is not the inferred
    beacon and is the pending candidate. *)
Lemma reading_pending
    (N : Z) (now : num) (routers : list (Router.t num)) (c : string) (t : Truck.t num) :
  c <> "" ->
  Truck.inferredRouterId t <> Some c ->
  Truck.potentialRouterId t = Some c ->
  hysteresis N now routers (Some c) t =
    if N <=? Truck.consecutiveRouterReads t + 1 then
      set_localization t (Some c) (mapped_edge routers c (Truck.inferredEdgeId t)) now
        (Truck.consecutiveRouterReads t + 1) (Some c)
    else
      set_localization t (Truck.inferredRouterId t) (Truck.inferredEdgeId t)
        (Truck.lastRouterSwitchTime t) (Truck.consecutiveRouterReads t + 1) (Some c).
Proof.
  intros Hc Hinf Hpot. unfold hysteresis.
  rewrite (truthy_Some c Hc).
  rewrite bool_decide_eq_false_2 by congruence.
  rewrite bool_decide_eq_true_2 by congruence.
  reflexivity.
Qed.

(** C3 (as amended): a reading [c] that differs from the inferred beacon
    and equals the pending candidate increments the consecutive count; if
    the incremented count is at least the threshold the filter commits
    (inferred beacon [c], inferred edge the first mapped edge of [c] if it
    has one, switch time recorded) and the count and the pending candidate
    stay as they are; below the threshold nothing else changes. *)
Theorem hysteresis_pending_reading
    (N : Z) (now : num) (routers : list (Router.t num)) (c : string) (t : Truck.t num) :
  c <> "" ->
  Truck.inferredRouterId t <> Some c ->
  Truck.potentialRouterId t = Some c ->
  let t' := hysteresis N now routers (Some c) t in
  Truck.consecutiveRouterReads t' = Truck.consecutiveRouterReads t + 1 /\
  Truck.potentialRouterId t' = Some c /\
  (N <= Truck.consecutiveRouterReads t + 1 ->
     Truck.inferredRouterId t' = Some c /\
     Truck.inferredEdgeId t' = mapped_edge routers c (Truck.inferredEdgeId t) /\
     Truck.lastRouterSwitchTime t' = now) /\
  (Truck.consecutiveRouterReads t + 1 < N ->
     Truck.inferredRouterId t' = Truck.inferredRouterId t /\
     Truck.inferredEdgeId t' = Truck.inferredEdgeId t /\
     Truck.lastRouterSwitchTime t' = Truck.lastRouterSwitchTime t).
Proof.
  intros Hc Hinf Hpot t'. subst t'.
  rewrite (reading_pending N now routers c t Hc Hinf Hpot).
  destruct (Z.leb_spec N (Truck.consecutiveRouterReads t + 1)) as [Hge | Hlt]; simpl.
  - repeat split; intros; try reflexivity; lia.
  - repeat split; intros; try reflexivity; lia.
Qed.

(** The inferred edge after a commit: the first mapped edge of the first
    router with the committed identifier. *)
Lemma mapped_edge_first (routers : list (Router.t num)) c old r first rest :
  List.find (fun r => String.eqb (Router.id r) c) routers = Some r ->
  Router.mappedEdgeIds r = first :: rest ->
  mapped_edge routers c old = Some first.
Proof. intros Hf Hm. unfold mapped_edge. now rewrite Hf, Hm. Qed.

Lemma mapped_edge_none (routers : list (Router.t num)) c old r :
  List.find (fun r => String.eqb (Router.id r) c) routers = Some r ->
  Router.mappedEdgeIds r = [] ->
  mapped_edge routers c old = old.
Proof. intros Hf Hm. unfold mapped_edge. now rewrite Hf, Hm. Qed.

(** A reading other than [B] leaves a truck that is not on [B] with an
    inferred beacon and a pending candidate other than [B]. *)
Lemma reading_other (N : Z) now routers (A B : string) (t : Truck.t num) :
  A <> B -> A <> "" ->
  Truck.inferredRouterId t <> Some B ->
  let t' := hysteresis N now routers (Some A) t in
  Truck.inferredRouterId t' <> Some B /\ Truck.potentialRouterId t' <> Some B.
Proof.
  intros HAB HA Hinf t'. subst t'. unfold hysteresis. rewrite (truthy_Some A HA).
  case_bool_decide; simpl.
  - split; [assumption | discriminate].
  - destruct (_ <=? _); simpl; split; congruence.
Qed.

(** A reading [B] on a truck whose inferred beacon is not [B]: the count
    after it, and whether it commits. *)
Lemma reading_fresh (N : Z) now routers (B : string) (t : Truck.t num) :
  B <> "" ->
  Truck.inferredRouterId t <> Some B ->
  Truck.potentialRouterId t <> Some B ->
  1 < N ->
  let t' := hysteresis N now routers (Some B) t in
  Truck.inferredRouterId t' = Truck.inferredRouterId t /\
  Truck.potentialRouterId t' = Some B /\
  Truck.consecutiveRouterReads t' = 1.
Proof.
  intros HB Hinf Hpot HN t'. subst t'. unfold hysteresis. rewrite (truthy_Some B HB).
  rewrite bool_decide_eq_false_2 by congruence.
  rewrite bool_decide_eq_false_2 by congruence.
  destruct (Z.leb_spec N 1); [lia | simpl; auto].
Qed.

(** C6: with threshold 3 and an inferred beacon other than [B], the
    readings [A, B, B, B] (two distinct beacon identifiers) leave the
    inferred beacon different from [B] after the first, second and third
    reading and make it [B] at the fourth, the third consecutive [B]. *)
Theorem hysteresis_commit_at_third
    (routers : list (Router.t num)) (A B : string) (n1 n2 n3 n4 : num)
    (t : Truck.t num) :
  A <> B -> A <> "" -> B <> "" ->
  Truck.inferredRouterId t <> Some B ->
  Truck.inferredRouterId (feed 3 routers [(n1, A)] t) <> Some B /\
  Truck.inferredRouterId (feed 3 routers [(n1, A); (n2, B)] t) <> Some B /\
  Truck.inferredRouterId (feed 3 routers [(n1, A); (n2, B); (n3, B)] t) <> Some B /\
  Truck.inferredRouterId (feed 3 routers [(n1, A); (n2, B); (n3, B); (n4, B)] t) = Some B /\
  Truck.lastRouterSwitchTime (feed 3 routers [(n1, A); (n2, B); (n3, B); (n4, B)] t) = n4.
Proof.
  intros HAB HA HB Hinf. unfold feed. cbn [fold_left fst snd].
  destruct (reading_other 3 n1 routers A B t HAB HA Hinf) as [H1 P1].
  set (t1 := hysteresis 3 n1 routers (Some A) t) in *.
  destruct (reading_fresh 3 n2 routers B t1 HB H1 P1 ltac:(lia)) as (I2 & P2 & C2).
  set (t2 := hysteresis 3 n2 routers (Some B) t1) in *.
  assert (H2 : Truck.inferredRouterId t2 <> Some B) by congruence.
  assert (E3 : hysteresis 3 n3 routers (Some B) t2 =
               set_localization t2 (Truck.inferredRouterId t2) (Truck.inferredEdgeId t2)
                 (Truck.lastRouterSwitchTime t2) 2 (Some B)).
  { rewrite (reading_pending 3 n3 routers B t2 HB H2 P2), C2. reflexivity. }
  set (t3 := hysteresis 3 n3 routers (Some B) t2) in *.
  assert (H3 : Truck.inferredRouterId t3 <> Some B) by (rewrite E3; simpl; congruence).
  assert (P3 : Truck.potentialRouterId t3 = Some B) by (rewrite E3; reflexivity).
  assert (C3 : Truck.consecutiveRouterReads t3 = 2) by (rewrite E3; reflexivity).
  assert (E4 : hysteresis 3 n4 routers (Some B) t3 =
               set_localization t3 (Some B)
                 (mapped_edge routers B (Truck.inferredEdgeId t3)) n4 3 (Some B)).
  { rewrite (reading_pending 3 n4 routers B t3 HB H3 P3), C3. reflexivity. }
  assert (I4 : Truck.inferredRouterId (hysteresis 3 n4 routers (Some B) t3) = Some B)
    by (rewrite E4; reflexivity).
  assert (T4 : Truck.lastRouterSwitchTime (hysteresis 3 n4 routers (Some B) t3) = n4)
    by (rewrite E4; reflexivity).
  repeat split; assumption.
Qed.
End HysteresisProperties.

(** ** Topology edits and the congestion model *)

Section EdgeProperties.
Context {num : Type} `{JSNumber num}.

(** C9 (as amended): [addEdge] validates nothing.  It appends the edge it
    is given, so the stored edges all have capacity at least 1 exactly
    when the edges stored before and the new edge do. *)
Theorem addEdge_appends_unchecked (edge : Edge.t num) (s : Engine.t num) :
  Engine.edges (addEdge edge s) = Engine.edges s ++ [edge] /\
  (Forall (fun e => 1 <= Edge.capacity e) (Engine.edges (addEdge edge s)) <->
   Forall (fun e => 1 <= Edge.capacity e) (Engine.edges s) /\ 1 <= Edge.capacity edge).
Proof.
  split; [reflexivity |]. simpl. rewrite Forall_app. split.
  - intros [Hs He]. split; [assumption | now inversion He].
  - intros [Hs He]. split; [assumption | now constructor].
Qed.

Lemma moveTruck_config (s : Engine.t num) t :
  Engine.config (fst (moveTruck s t)) = Engine.config s.
Proof.
  unfold moveTruck.
  repeat match goal with
         | |- context [match ?x with _ => _ end] => destruct x; simpl; try reflexivity
         end.
Qed.

Lemma moveTrucks_config ts : forall s : Engine.t num,
  Engine.config (fst (moveTrucks s ts)) = Engine.config s.
Proof.
  induction ts as [|t ts IH]; intros s; simpl; [reflexivity |].
  pose proof (moveTruck_config s t) as Hc.
  destruct (moveTruck s t) as [s1 t1]. specialize (IH s1).
  destruct (moveTrucks s1 ts) as [s2 ts2]. simpl in *. congruence.
Qed.

Lemma afterMotion_config (s : Engine.t num) :
  Engine.config (afterMotion s) = Engine.config s.
Proof.
  unfold afterMotion, motionPhase.
  pose proof (moveTrucks_config (Engine.trucks (advanceTime s)) (advanceTime s)) as Hc.
  destruct (moveTrucks _ _) as [s1 ts1]. simpl in *. exact Hc.
Qed.

Lemma reroutePhase_edges fuel (s s' : Engine.t num) :
  reroutePhase fuel s = Some s' ->
  Engine.edges s' = Engine.edges s /\ Engine.config s' = Engine.config s.
Proof.
  unfold reroutePhase. destruct (reroute_due s).
  - destruct (rerouteTrucks _ _ _ _); [|discriminate].
    intros [= <-]. split; reflexivity.
  - intros [= <-]. split; reflexivity.
Qed.

Lemma Forall2_map_r {A B} (R : A -> B -> Prop) (f : A -> B) (l : list A) :
  (forall a, R a (f a)) -> Forall2 R l (map f l).
Proof. intros Hf. induction l; simpl; constructor; auto. Qed.

(** C4: when a tick completes, the edge array is the one the motion phase
    left, each edge with its weight replaced by
    [T0 * (1 + alpha * (n / C)^beta)] where [n] is the load the motion
    phase left on that edge, [C] its capacity and [T0] its free-flow
    time. *)
Theorem tick_recomputes_weights fuel noise (s s' : Engine.t num) :
  tick fuel noise s = Some s' ->
  Forall2
    (fun e e' =>
       Edge.currentWeight e' =
         mul (Edge.baseTravelTime e)
             (add one
                (mul (Config.alpha (Engine.config s))
                     (Math_pow (div (of_Z (Edge.currentLoad e)) (of_Z (Edge.capacity e)))
                               (Config.beta (Engine.config s))))) /\
       e' = Edge.set_currentWeight (Edge.currentWeight e') e)
    (Engine.edges (afterMotion s)) (Engine.edges s').
Proof.
  unfold tick. intros Ht. apply reroutePhase_edges in Ht as [-> _].
  simpl. rewrite afterMotion_config.
  apply Forall2_map_r. intros e. split; reflexivity.
Qed.
End EdgeProperties.

(** ** Spawning *)

Section SpawnProperties.
Context {num : Type} `{JSNumber num}.

Lemma findPath_unknown_end fuel a b (nodes : gmap string (Node.t num)) edges :
  nodes !! b = None -> findPath fuel a b nodes edges = Some None.
Proof. intros Hb. unfold findPath. rewrite Hb. now destruct (nodes !! a). Qed.

(** C8 (as amended): a spawn whose start node is unknown, whose
    destination node is unknown or for which the planner returns no path
    returns normally, creates no truck and leaves the engine as it was.
    Nothing is handed back to the caller; when the start node is known, the
    failure is reported by one console warning. *)
Theorem spawnTruck_failure_keeps_state fuel rand a b (s : Engine.t num) :
  Engine.nodes s !! a = None \/
  Engine.nodes s !! b = None \/
  findPath fuel a b (Engine.nodes s) (Engine.edges s) = Some None ->
  exists warnings,
    spawnTruck fuel rand a b s = Some (s, warnings) /\
    (Engine.nodes s !! a <> None -> warnings = [no_path_warning]).
Proof.
  intros Hfail. unfold spawnTruck.
  destruct (Engine.nodes s !! a) as [startNode|] eqn:Ha.
  - exists [no_path_warning]. split; [|reflexivity].
    destruct Hfail as [Hfail | [Hfail | Hfail]]; [discriminate | |].
    + now rewrite (findPath_unknown_end fuel a b _ _ Hfail).
    + now rewrite Hfail.
  - exists []. split; [reflexivity | congruence].
Qed.
End SpawnProperties.

(** ** The re-plan phase *)

Section RerouteProperties.
Context {num : Type} `{JSNumber num}.

Lemma truthy_inv (o : option string) :
  truthy o = true -> exists c, o = Some c /\ c <> "".
Proof.
  destruct o as [c|]; simpl; [|discriminate].
  destruct (String.eqb_spec c ""); [discriminate |]. eauto.
Qed.

Lemma set_plan_same (t : Truck.t num) :
  set_plan t (Truck.routePlan t) (Truck.rerouteCount t) = t.
Proof. now destruct t. Qed.

Lemma rerouteTruck_replanned fuel nodes edges (t t' : Truck.t num) :
  rerouteTruck fuel nodes edges t = Some t' -> replanned fuel nodes edges t t'.
Proof.
  unfold rerouteTruck, replanned, reroutable.
  intros Hr c d ce Hst Hd Hdne Hc Hcne Hfind.
  rewrite Hst, Hd, Hc, (truthy_Some d Hdne), (truthy_Some c Hcne) in Hr.
  simpl in Hr. rewrite Hfind in Hr.
  destruct (findPath fuel (Edge.targetId ce) d nodes edges) as [[r|]|]; [| |discriminate].
  - injection Hr as <-. split; [|discriminate].
    intros result [= <-]. simpl. auto.
  - injection Hr as <-. split; [discriminate | reflexivity].
Qed.

Lemma rerouteTrucks_replanned fuel nodes edges (ts : list (Truck.t num)) :
  forall ts', rerouteTrucks fuel nodes edges ts = Some ts' ->
              Forall2 (replanned fuel nodes edges) ts ts'.
Proof.
  induction ts as [|t ts IH]; simpl; intros ts' Hr.
  - injection Hr as <-. constructor.
  - destruct (rerouteTruck fuel nodes edges t) as [t1|] eqn:Ht; [|discriminate].
    destruct (rerouteTrucks fuel nodes edges ts) as [ts1|]; [|discriminate].
    injection Hr as <-. constructor; [now apply rerouteTruck_replanned | now apply IH].
Qed.

(** C5: in a tick whose re-plan phase runs, every truck that is moving and
    has a destination and a current edge gets, when the planner returns a
    path, the plan [currentEdge :: path] and a reroute count one higher,
    with no comparison against the plan it had; when the planner returns
    no path the truck is left as it is. *)
Theorem tick_replans fuel noise (s s' : Engine.t num) :
  tick fuel noise s = Some s' ->
  reroute_due (beforeReroute noise s) = true ->
  Forall2 (replanned fuel (Engine.nodes (beforeReroute noise s))
                     (Engine.edges (beforeReroute noise s)))
          (Engine.trucks (beforeReroute noise s)) (Engine.trucks s').
Proof.
  unfold tick. fold (beforeReroute noise s). unfold reroutePhase.
  intros Ht Hdue. rewrite Hdue in Ht.
  destruct (rerouteTrucks _ _ _ _) as [ts|] eqn:Hr; [|discriminate].
  injection Ht as <-. simpl. now apply rerouteTrucks_replanned.
Qed.

(** An identical new path still counts as a reroute. *)
Lemma replanned_counts_identical fuel nodes edges (t t' : Truck.t num) c d ce r :
  replanned fuel nodes edges t t' ->
  Truck.state t = moving ->
  Truck.destinationNodeId t = Some d -> d <> "" ->
  Truck.currentEdgeId t = Some c -> c <> "" ->
  List.find (has_id c) edges = Some ce ->
  findPath fuel (Edge.targetId ce) d nodes edges = Some (Some r) ->
  Truck.routePlan t = c :: PathResult.path r ->
  Truck.routePlan t' = Truck.routePlan t /\
  Truck.rerouteCount t' = Truck.rerouteCount t + 1.
Proof.
  intros Hrep Hst Hd Hdne Hc Hcne Hf Hp Hsame.
  destruct (Hrep c d ce Hst Hd Hdne Hc Hcne Hf) as [Hok _].
  destruct (Hok r Hp) as (Hplan & Hcount & _). split; congruence.
Qed.
End RerouteProperties.

(** ** Waiting trucks *)

Section WaitingProperties.
Context {num : Type} `{JSNumber num}.

Lemma frozen_refl (t : Truck.t num) : frozen t t.
Proof. unfold frozen. repeat split. Qed.

Lemma frozen_trans (t1 t2 t3 : Truck.t num) :
  frozen t1 t2 -> frozen t2 t3 -> frozen t1 t3.
Proof.
  unfold frozen. intros H12 H23.
  decompose [and] H12. decompose [and] H23. repeat split; congruence.
Qed.

Lemma moveTruck_not_moving (s : Engine.t num) t :
  Truck.state t <> moving -> moveTruck s t = (s, t).
Proof. unfold moveTruck. destruct (Truck.state t); congruence. Qed.

Lemma moveTrucks_waiting ts : forall (s : Engine.t num) t,
  In t ts -> Truck.state t = waiting -> In t (snd (moveTrucks s ts)).
Proof.
  induction ts as [|t0 ts IH]; intros s t Hin Hw; simpl in *; [contradiction |].
  destruct Hin as [-> | Hin].
  - rewrite moveTruck_not_moving by (rewrite Hw; discriminate).
    destruct (moveTrucks s ts). simpl. now left.
  - destruct (moveTruck s t0) as [s1 t1]. specialize (IH s1 t Hin Hw).
    destruct (moveTrucks s1 ts). simpl in *. now right.
Qed.

Lemma hysteresis_frozen N now routers c (t : Truck.t num) :
  frozen t (hysteresis N now routers c t).
Proof.
  unfold hysteresis.
  repeat match goal with
         | |- context [match ?x with _ => _ end] => destruct x
         end; try apply frozen_refl; unfold frozen; simpl; repeat split.
Qed.

Lemma localizeTruck_frozen cfg now routers noise (t : Truck.t num) :
  frozen t (localizeTruck cfg now routers noise t).
Proof.
  unfold localizeTruck.
  destruct (Truck.state t); try apply hysteresis_frozen. apply frozen_refl.
Qed.

Lemma localizeTrucks_frozen cfg now routers noise (ts : list (Truck.t num)) :
  forall i t, In t ts ->
    exists t', In t' (localizeTrucks cfg now routers noise i ts) /\ frozen t t'.
Proof.
  induction ts as [|t0 ts IH]; intros i t Hin; simpl in *; [contradiction |].
  destruct Hin as [-> | Hin].
  - eexists. split; [now left | apply localizeTruck_frozen].
  - destruct (IH (S i) t Hin) as (t' & Hin' & Hfr). eauto.
Qed.

Lemma rerouteTruck_not_moving fuel nodes edges (t : Truck.t num) :
  Truck.state t <> moving -> rerouteTruck fuel nodes edges t = Some t.
Proof.
  intros Hs. unfold rerouteTruck, reroutable.
  destruct (Truck.state t); simpl; congruence.
Qed.

Lemma rerouteTrucks_waiting fuel nodes edges (ts : list (Truck.t num)) :
  forall ts' t, rerouteTrucks fuel nodes edges ts = Some ts' ->
    In t ts -> Truck.state t = waiting -> In t ts'.
Proof.
  induction ts as [|t0 ts IH]; simpl; intros ts' t Hr Hin Hw; [contradiction |].
  destruct (rerouteTruck fuel nodes edges t0) as [t1|] eqn:Ht; [|discriminate].
  destruct (rerouteTrucks fuel nodes edges ts) as [ts1|]; [|discriminate].
  injection Hr as <-. destruct Hin as [-> | Hin].
  - rewrite rerouteTruck_not_moving in Ht by (rewrite Hw; discriminate).
    injection Ht as <-. now left.
  - right. now apply IH.
Qed.

Lemma tick_keeps_waiting fuel noise (s s' : Engine.t num) t :
  tick fuel noise s = Some s' ->
  In t (Engine.trucks s) -> Truck.state t = waiting ->
  exists t', In t' (Engine.trucks s') /\ frozen t t'.
Proof.
  intros Ht Hin Hw.
  assert (H1 : In t (Engine.trucks (prunePhase (afterMotion s)))).
  { unfold prunePhase, afterMotion, motionPhase. simpl.
    pose proof (moveTrucks_waiting (Engine.trucks s) (advanceTime s) t Hin Hw) as Hm.
    change (Engine.trucks (advanceTime s)) with (Engine.trucks s).
    destruct (moveTrucks (advanceTime s) (Engine.trucks s)) as [s1 ts1]. simpl in *.
    apply filter_In. split; [assumption | now rewrite Hw]. }
  set (p := prunePhase (afterMotion s)) in *.
  destruct (localizeTrucks_frozen (Engine.config p) (Engine.time p) (Engine.routers p)
              noise (Engine.trucks p) 0%nat t H1) as (t' & Hin' & Hfr).
  exists t'. split; [|assumption].
  unfold tick in Ht. fold p in Ht. unfold reroutePhase in Ht.
  destruct (reroute_due _).
  - destruct (rerouteTrucks _ _ _ _) as [ts|] eqn:Hr; [|discriminate].
    injection Ht as <-. simpl in *.
    eapply rerouteTrucks_waiting; [exact Hr | exact Hin' |].
    destruct Hfr as (_ & Hst & _). congruence.
  - injection Ht as <-. exact Hin'.
Qed.

(** C10: a truck that is waiting stays waiting.  Through any number of
    completed ticks, with any edits of the topology in between, the active
    set holds a truck with the same identifier that is still waiting, at
    the same position, with the same current edge, progress, plan and
    reroute count: only its localization fields can differ. *)
Theorem waiting_is_forever (s s' : Engine.t num) (t : Truck.t num) :
  steps s s' ->
  In t (Engine.trucks s) -> Truck.state t = waiting ->
  exists t', In t' (Engine.trucks s') /\ Truck.state t' = waiting /\ frozen t t'.
Proof.
  intros Hsteps. revert t.
  induction Hsteps as [s | s1 s2 s3 Hstep _ IH]; intros t Hin Hw.
  - exists t. auto using frozen_refl.
  - assert (exists t2, In t2 (Engine.trucks s2) /\ frozen t t2) as (t2 & Hin2 & Hfr2).
    { destruct Hstep as [fuel noise s s' Ht | s s' He].
      - eapply tick_keeps_waiting; eauto.
      - exists t. rewrite He. auto using frozen_refl. }
    assert (Hw2 : Truck.state t2 = waiting).
    { destruct Hfr2 as (_ & Hst & _). congruence. }
    destruct (IH t2 Hin2 Hw2) as (t3 & Hin3 & Hw3 & Hfr3).
    exists t3. eauto using frozen_trans.
Qed.
End WaitingProperties.

(** ** Edge loads through the motion phase *)

Section LoadProperties.
Context {num : Type} `{JSNumber num}.

Lemma has_id_true i (e : Edge.t num) : has_id i e = true <-> Edge.id e = i.
Proof. unfold has_id. apply String.eqb_eq. Qed.

Lemma has_id_false i (e : Edge.t num) : has_id i e = false <-> Edge.id e <> i.
Proof. unfold has_id. apply String.eqb_neq. Qed.

Lemma find_has_id i (es : list (Edge.t num)) e :
  List.find (has_id i) es = Some e -> In e es /\ Edge.id e = i.
Proof. intros Hf. apply find_some in Hf as [Hin Hid]. now rewrite has_id_true in Hid. Qed.

Lemma find_has_id_none i (es : list (Edge.t num)) e :
  List.find (has_id i) es = None -> In e es -> Edge.id e <> i.
Proof.
  intros Hf Hin. apply has_id_false. exact (find_none _ _ Hf e Hin).
Qed.

Lemma map_other_ids i (f : Edge.t num -> Edge.t num) (es : list (Edge.t num)) :
  ~ In i (map Edge.id es) ->
  map (fun e => if has_id i e then f e else e) es = es.
Proof.
  induction es as [|a es IH]; simpl; intros Hnot; [reflexivity |].
  destruct (has_id i a) eqn:Ha.
  - apply has_id_true in Ha. tauto.
  - f_equal. apply IH. tauto.
Qed.

(** With unique identifiers, updating the edge that [find] returns is a
    map over the array. *)
Lemma update_first_map i (f : Edge.t num -> Edge.t num) (es : list (Edge.t num)) :
  unique_ids es ->
  update_first (has_id i) f es = map (fun e => if has_id i e then f e else e) es.
Proof.
  unfold unique_ids. induction es as [|a es IH]; simpl; intros Hu; [reflexivity |].
  apply NoDup_cons in Hu as [Hnotin Hu]. rewrite list_elem_of_In in Hnotin.
  destruct (has_id i a) eqn:Ha.
  - f_equal. apply has_id_true in Ha. subst i.
    symmetry. now apply map_other_ids.
  - f_equal. now apply IH.
Qed.

Lemma map_keeps_ids (g : Edge.t num -> Edge.t num) (es : list (Edge.t num)) :
  (forall e, Edge.id (g e) = Edge.id e) -> map Edge.id (map g es) = map Edge.id es.
Proof. intros Hg. rewrite map_map. apply map_ext. exact Hg. Qed.

Lemma occupies_true i (t : Truck.t num) :
  occupies i t = true <-> Truck.state t = moving /\ Truck.currentEdgeId t = Some i.
Proof.
  unfold occupies. rewrite andb_true_iff, bool_decide_eq_true.
  destruct (Truck.state t); simpl; split; intros [? ?]; split; congruence.
Qed.

Lemma occupies_not_moving i (t : Truck.t num) :
  Truck.state t <> moving -> occupies i t = false.
Proof. unfold occupies. destruct (Truck.state t); simpl; congruence. Qed.

Lemma occupies_moving i (t : Truck.t num) :
  Truck.state t = moving ->
  occupies i t = bool_decide (Truck.currentEdgeId t = Some i).
Proof. unfold occupies. now intros ->. Qed.

Lemma count_trucks_app p (l1 l2 : list (Truck.t num)) :
  count_trucks p (l1 ++ l2) = count_trucks p l1 + count_trucks p l2.
Proof. unfold count_trucks. rewrite List.filter_app, length_app. lia. Qed.

Lemma count_trucks_cons p t (l : list (Truck.t num)) :
  count_trucks p (t :: l) = Z.b2z (p t) + count_trucks p l.
Proof. unfold count_trucks. simpl. destruct (p t); simpl; lia. Qed.

Lemma count_trucks_nonneg p (l : list (Truck.t num)) : 0 <= count_trucks p l.
Proof. unfold count_trucks. lia. Qed.

Lemma count_trucks_middle p (l1 l2 : list (Truck.t num)) t :
  count_trucks p (l1 ++ t :: l2) = count_trucks p l1 + Z.b2z (p t) + count_trucks p l2.
Proof. rewrite count_trucks_app, count_trucks_cons. lia. Qed.

Lemma load_shift_same (t t1 : Truck.t num) es :
  (forall e, In e es -> occupies (Edge.id e) t1 = occupies (Edge.id e) t) ->
  load_shift t t1 es es.
Proof.
  intros Hsame. exists (fun e => e). split; [now rewrite map_id |].
  split; [reflexivity |]. intros e Hin _. rewrite (Hsame e Hin). lia.
Qed.

Lemma decrement_load_id (e : Edge.t num) : Edge.id (decrement_load e) = Edge.id e.
Proof. reflexivity. Qed.

Lemma increment_load_id (e : Edge.t num) : Edge.id (increment_load e) = Edge.id e.
Proof. reflexivity. Qed.

(** Leaving the edge [c] without entering another one. *)
Lemma load_shift_leave (t t1 : Truck.t num) es c :
  unique_ids es ->
  Truck.state t = moving -> Truck.currentEdgeId t = Some c ->
  Truck.state t1 <> moving ->
  load_shift t t1 es (update_first (has_id c) decrement_load es).
Proof.
  intros Hu Hst Hc Hst1. rewrite (update_first_map c decrement_load es Hu).
  eexists. split; [reflexivity |]. split.
  - intros e. now destruct (has_id c e).
  - intros e Hin Hpos. rewrite (occupies_not_moving _ t1 Hst1).
    rewrite (occupies_moving _ t Hst) in *. rewrite Hc in *.
    destruct (has_id c e) eqn:Hid.
    + apply has_id_true in Hid. rewrite bool_decide_eq_true_2 in * by congruence.
      specialize (Hpos eq_refl). simpl. lia.
    + apply has_id_false in Hid. rewrite bool_decide_eq_false_2 by congruence.
      simpl. lia.
Qed.

(** Leaving the edge [c] and entering the edge [n]. *)
Lemma load_shift_enter (t t1 : Truck.t num) es c n :
  unique_ids es ->
  Truck.state t = moving -> Truck.currentEdgeId t = Some c ->
  Truck.state t1 = moving -> Truck.currentEdgeId t1 = Some n ->
  load_shift t t1 es
    (update_first (has_id n) increment_load
       (update_first (has_id c) decrement_load es)).
Proof.
  intros Hu Hst Hc Hst1 Hn.
  rewrite (update_first_map c decrement_load es Hu).
  rewrite update_first_map.
  2:{ unfold unique_ids. rewrite map_keeps_ids; [exact Hu |].
      intros e. now destruct (has_id c e). }
  rewrite map_map. eexists. split; [reflexivity |]. split.
  - intros e. destruct (has_id c e); simpl;
      match goal with |- context [if ?b then _ else _] => now destruct b end.
  - intros e Hin Hpos.
    rewrite (occupies_moving _ t Hst) in *. rewrite (occupies_moving _ t1 Hst1).
    rewrite Hc in *. rewrite Hn.
    destruct (has_id c e) eqn:Hide.
    + apply has_id_true in Hide.
      rewrite (bool_decide_eq_true_2 (Some c = Some (Edge.id e))) in * by congruence.
      specialize (Hpos eq_refl).
      change (has_id n (decrement_load e)) with (has_id n e).
      destruct (has_id n e) eqn:Hidn.
      * apply has_id_true in Hidn. rewrite bool_decide_eq_true_2 by congruence.
        simpl. lia.
      * apply has_id_false in Hidn. rewrite bool_decide_eq_false_2 by congruence.
        simpl. lia.
    + apply has_id_false in Hide.
      rewrite (bool_decide_eq_false_2 (Some c = Some (Edge.id e))) by congruence.
      destruct (has_id n e) eqn:Hidn.
      * apply has_id_true in Hidn. rewrite bool_decide_eq_true_2 by congruence.
        simpl. lia.
      * apply has_id_false in Hidn. rewrite bool_decide_eq_false_2 by congruence.
        simpl. lia.
Qed.
End LoadProperties.

Section MotionLoads.
Context {num : Type} `{JSNumber num}.

Lemma find_edge_inv (i : option string) (es : list (Edge.t num)) e :
  find_edge i es = Some e -> i = Some (Edge.id e) /\ In e es.
Proof.
  destruct i as [c|]; simpl; [|discriminate].
  intros Hf. apply find_has_id in Hf as [Hin <-]. auto.
Qed.

(** One callback shifts the loads as the truck's occupancy changes, and
    keeps the identifiers. *)
Lemma moveTruck_load_shift (s : Engine.t num) t :
  unique_ids (Engine.edges s) ->
  load_shift t (snd (moveTruck s t)) (Engine.edges s) (Engine.edges (fst (moveTruck s t))).
Proof.
  intros Hu. unfold moveTruck.
  destruct (Truck.state t) eqn:Hst;
    try (simpl; apply load_shift_same; reflexivity).
  destruct (find_edge (Truck.currentEdgeId t) (Engine.edges s)) as [ce|] eqn:Hfe.
  - apply find_edge_inv in Hfe as [Hc Hin].
    destruct (geb _ _).
    + destruct (if head_is _ _ then _ else _) as [|next plan].
      * simpl. apply load_shift_leave; simpl; auto; discriminate.
      * destruct (List.find (has_id next) _) as [ne|] eqn:Hfn.
        -- apply find_has_id in Hfn as [_ Hidn].
           destruct (may_enter _ ne); simpl.
           ++ apply load_shift_enter; simpl; auto; congruence.
           ++ apply load_shift_leave; simpl; auto; discriminate.
        -- simpl. apply load_shift_leave; simpl; auto; discriminate.
    + simpl. apply load_shift_same. intros e _.
      rewrite (occupies_moving _ t Hst). unfold occupies. reflexivity.
  - simpl. apply load_shift_same. intros e Hin.
    rewrite occupies_not_moving by (simpl; discriminate).
    rewrite (occupies_moving _ t Hst).
    symmetry. apply bool_decide_eq_false_2. intros Hc. rewrite Hc in Hfe. simpl in Hfe.
    now apply (find_has_id_none _ _ e Hfe Hin).
Qed.

Lemma load_shift_unique (t t1 : Truck.t num) es es1 :
  load_shift t t1 es es1 -> unique_ids es -> unique_ids es1.
Proof.
  intros (g & -> & Hid & _) Hu. unfold unique_ids. now rewrite map_keeps_ids.
Qed.

Lemma load_shift_match (t t1 : Truck.t num) es es1 done rest :
  load_shift t t1 es es1 ->
  loads_match es (done ++ t :: rest) ->
  loads_match es1 (done ++ t1 :: rest).
Proof.
  intros (g & -> & Hid & Hload) Hm e1 Hin1.
  apply in_map_iff in Hin1 as (e & <- & Hin).
  rewrite Hid, count_trucks_middle.
  specialize (Hm e Hin). rewrite count_trucks_middle in Hm.
  rewrite Hload; [lia | assumption |].
  intros Hocc. rewrite Hocc in Hm. simpl in Hm.
  pose proof (count_trucks_nonneg (occupies (Edge.id e)) done).
  pose proof (count_trucks_nonneg (occupies (Edge.id e)) rest). lia.
Qed.

Lemma moveTrucks_loads todo : forall (s : Engine.t num) done,
  unique_ids (Engine.edges s) ->
  loads_match (Engine.edges s) (done ++ todo) ->
  unique_ids (Engine.edges (fst (moveTrucks s todo))) /\
  loads_match (Engine.edges (fst (moveTrucks s todo))) (done ++ snd (moveTrucks s todo)).
Proof.
  induction todo as [|t todo IH]; intros s done Hu Hm; simpl; [auto |].
  pose proof (moveTruck_load_shift s t Hu) as Hshift.
  destruct (moveTruck s t) as [s1 t1]. simpl in Hshift.
  pose proof (load_shift_unique _ _ _ _ Hshift Hu) as Hu1.
  pose proof (load_shift_match _ _ _ _ done todo Hshift Hm) as Hm1.
  change (done ++ t1 :: todo) with (done ++ [t1] ++ todo) in Hm1.
  rewrite app_assoc in Hm1.
  destruct (IH s1 (done ++ [t1]) Hu1 Hm1) as [Hu2 Hm2].
  destruct (moveTrucks s1 todo) as [s2 todo']. simpl in *.
  split; [assumption |]. now rewrite <- app_assoc in Hm2.
Qed.

Lemma count_trucks_pruned i (ts : list (Truck.t num)) :
  count_trucks (occupies i)
    (List.filter (fun t => negb (TruckState_eqb (Truck.state t) finished)) ts)
  = count_trucks (occupies i) ts.
Proof.
  induction ts as [|t ts IH]; simpl; [reflexivity |].
  destruct (Truck.state t) eqn:Hst; simpl;
    rewrite ?count_trucks_cons, IH; try reflexivity.
  rewrite occupies_not_moving by (rewrite Hst; discriminate). simpl. lia.
Qed.

Lemma motion_loads_after (s : Engine.t num) :
  unique_ids (Engine.edges s) ->
  loads_match (Engine.edges s) (Engine.trucks s) ->
  loads_match (Engine.edges (afterMotion s)) (Engine.trucks (afterMotion s)).
Proof.
  intros Hu Hm. unfold afterMotion, motionPhase.
  destruct (moveTrucks_loads (Engine.trucks (advanceTime s)) (advanceTime s) []
              Hu Hm) as [_ Hm'].
  destruct (moveTrucks (advanceTime s) (Engine.trucks (advanceTime s))) as [s1 ts1].
  exact Hm'.
Qed.

(** C1 (as amended): if edge identifiers are unique and every edge's load
    equals the number of moving trucks whose current edge it is when a
    tick begins, then the same holds immediately after the motion phase of
    that tick, before as well as after the finished trucks are filtered
    out.  The count is over moving trucks: a waiting truck keeps the
    identifier of the edge it left and is not counted. *)
Theorem motion_keeps_loads (s : Engine.t num) :
  unique_ids (Engine.edges s) ->
  loads_match (Engine.edges s) (Engine.trucks s) ->
  (forall e, In e (Engine.edges (afterMotion s)) ->
     Edge.currentLoad e =
       count_trucks (occupies (Edge.id e)) (Engine.trucks (afterMotion s))) /\
  (forall e, In e (Engine.edges (prunePhase (afterMotion s))) ->
     Edge.currentLoad e =
       count_trucks (occupies (Edge.id e)) (Engine.trucks (prunePhase (afterMotion s)))).
Proof.
  intros Hu Hm. pose proof (motion_loads_after s Hu Hm) as Hafter.
  split; [exact Hafter |].
  intros e Hin. simpl in *. rewrite count_trucks_pruned. now apply Hafter.
Qed.

(** The other phases of a tick, [spawnTruck] and [clearSimulation] keep the
    loads in step with the moving trucks as well. *)
Lemma count_trucks_same p q (ts ts' : list (Truck.t num)) :
  Forall2 (fun t t' => q t' = p t) ts ts' -> count_trucks q ts' = count_trucks p ts.
Proof.
  induction 1 as [|t t' ts ts' Ht _ IH]; [reflexivity |].
  rewrite !count_trucks_cons, Ht, IH. reflexivity.
Qed.

Lemma frozen_occupies i (t t' : Truck.t num) :
  frozen t t' -> occupies i t' = occupies i t.
Proof. intros (_ & Hst & _ & Hc & _). unfold occupies. now rewrite Hst, Hc. Qed.

Lemma localizeTrucks_Forall2 cfg now routers noise (ts : list (Truck.t num)) :
  forall i, Forall2 frozen ts (localizeTrucks cfg now routers noise i ts).
Proof.
  induction ts as [|t ts IH]; intros i; simpl; constructor; auto.
  apply localizeTruck_frozen.
Qed.

Lemma rerouteTruck_frozen_edge fuel nodes edges (t t' : Truck.t num) i :
  rerouteTruck fuel nodes edges t = Some t' -> occupies i t' = occupies i t.
Proof.
  unfold rerouteTruck. intros Hr.
  repeat match type of Hr with
         | (if ?b then _ else _) = _ => destruct b
         | match ?x with _ => _ end = _ => destruct x
         end; try discriminate; injection Hr as <-; reflexivity.
Qed.

Lemma rerouteTrucks_occupies fuel nodes edges i (ts : list (Truck.t num)) :
  forall ts', rerouteTrucks fuel nodes edges ts = Some ts' ->
    Forall2 (fun t t' => occupies i t' = occupies i t) ts ts'.
Proof.
  induction ts as [|t ts IH]; simpl; intros ts' Hr.
  - injection Hr as <-. constructor.
  - destruct (rerouteTruck fuel nodes edges t) as [t1|] eqn:Ht; [|discriminate].
    destruct (rerouteTrucks fuel nodes edges ts) as [ts1|]; [|discriminate].
    injection Hr as <-. constructor; [|now apply IH].
    now apply (rerouteTruck_frozen_edge fuel nodes edges).
Qed.

Lemma afterMotion_unique (s : Engine.t num) :
  unique_ids (Engine.edges s) -> unique_ids (Engine.edges (afterMotion s)).
Proof.
  intros Hu. unfold afterMotion, motionPhase.
  assert (Hgen : forall todo (s0 : Engine.t num),
             unique_ids (Engine.edges s0) ->
             unique_ids (Engine.edges (fst (moveTrucks s0 todo)))).
  { induction todo as [|t todo IH]; intros s0 Hu0; simpl; [assumption |].
    pose proof (moveTruck_load_shift s0 t Hu0) as Hshift.
    destruct (moveTruck s0 t) as [s1 t1]. simpl in Hshift.
    pose proof (load_shift_unique _ _ _ _ Hshift Hu0) as Hu1.
    specialize (IH s1 Hu1). destruct (moveTrucks s1 todo). exact IH. }
  specialize (Hgen (Engine.trucks (advanceTime s)) (advanceTime s) Hu).
  destruct (moveTrucks (advanceTime s) (Engine.trucks (advanceTime s))). exact Hgen.
Qed.

Lemma tick_keeps_loads fuel noise (s s' : Engine.t num) :
  unique_ids (Engine.edges s) ->
  loads_match (Engine.edges s) (Engine.trucks s) ->
  tick fuel noise s = Some s' ->
  unique_ids (Engine.edges s') /\ loads_match (Engine.edges s') (Engine.trucks s').
Proof.
  intros Hu Hm Ht.
  assert (Hpruned : loads_match (Engine.edges (prunePhase (afterMotion s)))
                               (Engine.trucks (prunePhase (afterMotion s)))).
  { intros e Hin. simpl in *. rewrite count_trucks_pruned.
    now apply (motion_loads_after s Hu Hm). }
  pose proof (afterMotion_unique s Hu) as Hu1.
  set (p := prunePhase (afterMotion s)) in *.
  assert (Hedges : Engine.edges (beforeReroute noise s)
                   = map (updateWeight (Engine.config p)) (Engine.edges p)) by reflexivity.
  assert (Hloc : Forall2 frozen (Engine.trucks p) (Engine.trucks (beforeReroute noise s))).
  { apply localizeTrucks_Forall2. }
  assert (Hmid : unique_ids (Engine.edges (beforeReroute noise s)) /\
                 loads_match (Engine.edges (beforeReroute noise s))
                             (Engine.trucks (beforeReroute noise s))).
  { rewrite Hedges. split.
    - unfold unique_ids. rewrite map_keeps_ids; [exact Hu1 | reflexivity].
    - intros e Hin. apply in_map_iff in Hin as (e0 & <- & Hin0).
      change (Edge.currentLoad (updateWeight (Engine.config p) e0))
        with (Edge.currentLoad e0).
      change (Edge.id (updateWeight (Engine.config p) e0)) with (Edge.id e0).
      rewrite (Hpruned e0 Hin0). symmetry. apply count_trucks_same.
      eapply Forall2_impl; [exact Hloc |]. intros t t'. apply frozen_occupies. }
  unfold tick in Ht. fold (beforeReroute noise s) in Ht. unfold reroutePhase in Ht.
  destruct (reroute_due _); [|injection Ht as <-; exact Hmid].
  destruct (rerouteTrucks _ _ _ _) as [ts|] eqn:Hr; [|discriminate].
  injection Ht as <-. simpl. destruct Hmid as [Hu2 Hm2]. split; [exact Hu2 |].
  intros e Hin. rewrite (Hm2 e Hin). symmetry. apply count_trucks_same.
  now apply (rerouteTrucks_occupies fuel _ _ (Edge.id e)) in Hr.
Qed.

Lemma spawnTruck_keeps_loads fuel rand a b (s s' : Engine.t num) w :
  unique_ids (Engine.edges s) ->
  loads_match (Engine.edges s) (Engine.trucks s) ->
  spawnTruck fuel rand a b s = Some (s', w) ->
  unique_ids (Engine.edges s') /\ loads_match (Engine.edges s') (Engine.trucks s').
Proof.
  intros Hu Hm. unfold spawnTruck.
  destruct (Engine.nodes s !! a) as [startNode|]; [|intros [= <- _]; auto].
  destruct (findPath _ _ _ _ _) as [[r|]|]; [| intros [= <- _]; auto | discriminate].
  destruct (PathResult.path r) as [|first rest] eqn:Hp; [intros [= <- _]; auto |].
  destruct (List.find (has_id first) (Engine.edges s)) as [fe|] eqn:Hf;
    [|intros [= <- _]; auto].
  intros [= <- _]. simpl.
  apply find_has_id in Hf as [Hin Hid].
  rewrite (update_first_map first increment_load _ Hu). split.
  - unfold unique_ids. rewrite map_keeps_ids; [exact Hu |].
    intros e. now destruct (has_id first e).
  - intros e1 Hin1. apply in_map_iff in Hin1 as (e & <- & Hine).
    rewrite count_trucks_app, count_trucks_cons.
    change (count_trucks _ []) with 0.
    unfold occupies at 2. simpl. rewrite Hid.
    destruct (has_id first e) eqn:He.
    + apply has_id_true in He. simpl. rewrite He.
      rewrite bool_decide_eq_true_2 by reflexivity.
      rewrite (Hm e Hine), He. simpl. lia.
    + apply has_id_false in He.
      rewrite bool_decide_eq_false_2 by congruence.
      rewrite (Hm e Hine). simpl. lia.
Qed.

Lemma clearSimulation_loads (s : Engine.t num) :
  unique_ids (Engine.edges s) ->
  unique_ids (Engine.edges (clearSimulation s)) /\
  loads_match (Engine.edges (clearSimulation s)) (Engine.trucks (clearSimulation s)).
Proof.
  intros Hu. simpl. split.
  - unfold unique_ids. rewrite map_keeps_ids; [exact Hu | reflexivity].
  - intros e Hin. apply in_map_iff in Hin as (e0 & <- & _). reflexivity.
Qed.

(** After [clearSimulation], spawning and ticking keep the identifiers
    unique and the loads in step, so the hypotheses of the theorem above
    hold at the start of every tick of such a run. *)
Lemma run_loads (s : Engine.t num) :
  run s -> unique_ids (Engine.edges s) /\ loads_match (Engine.edges s) (Engine.trucks s).
Proof.
  induction 1 as [s Hu | fuel rand a b s s' w _ [Hu Hm] Hs | fuel noise s s' _ [Hu Hm] Ht].
  - now apply clearSimulation_loads.
  - now apply (spawnTruck_keeps_loads fuel rand a b s s' w).
  - now apply (tick_keeps_loads fuel noise s s').
Qed.
End MotionLoads.

(** ** The planner *)

Section PlannerSoundness.
Context {num : Type} `{JSNumber num}.

Lemma neighbors_spec current (edges : list (Edge.t num)) e :
  In e (neighbors current edges) <->
  In e edges /\ Edge.sourceId e = current /\ Edge.isClosed e = false.
Proof.
  unfold neighbors. rewrite filter_In, andb_true_iff, String.eqb_eq, negb_true_iff.
  tauto.
Qed.

Lemma relax_sound nodes endNode current edges (s : Search) edge :
  In edge edges -> Edge.isClosed edge = false -> Edge.sourceId edge = current ->
  sound_links edges (cameFrom s) ->
  sound_links edges (cameFrom (relax nodes endNode current s edge)).
Proof.
  intros Hin Hopen Hsrc Hs. unfold relax.
  destruct (gScore s !! current); [|assumption].
  destruct (lt_or_infinity _ _); [|assumption].
  simpl. intros v i u Hv.
  destruct (decide (Edge.targetId edge = v)) as [<- | Hne].
  - rewrite lookup_insert_eq in Hv. injection Hv as <- <-. eauto 6.
  - rewrite lookup_insert_ne in Hv by assumption. eauto.
Qed.

Lemma relax_all_sound nodes endNode current edges (l : list (Edge.t num)) :
  forall s : Search,
  (forall e, In e l -> In e edges /\ Edge.sourceId e = current /\ Edge.isClosed e = false) ->
  sound_links edges (cameFrom s) ->
  sound_links edges (cameFrom (fold_left (relax nodes endNode current) l s)).
Proof.
  induction l as [|e l IH]; simpl; intros s Hl Hs; [assumption |].
  apply IH; [auto |].
  destruct (Hl e (or_introl eq_refl)) as (Hin & Hsrc & Hopen).
  now apply relax_sound.
Qed.

Lemma find_has_id_some i (edges : list (Edge.t num)) e :
  In e edges -> Edge.id e = i -> exists e', List.find (has_id i) edges = Some e'.
Proof.
  intros Hin Hid. destruct (List.find (has_id i) edges) as [e'|] eqn:Hf; [eauto |].
  exfalso. exact (find_has_id_none i edges e Hf Hin Hid).
Qed.

(** [reconstructPath] puts in front of the path the identifiers of the
    links it follows, and adds their weights to the running total, the
    last edge first. *)
Lemma reconstructPath_spec edges (cf : gmap string (string * string)) :
  sound_links edges cf ->
  forall fuel curr p0 (t0 : num) r,
    reconstructPath fuel cf curr edges p0 t0 = Some r ->
    exists ids,
      PathResult.path r = ids ++ p0 /\
      PathResult.eta r = fold_right (fun i acc => add acc (weight_of edges i)) t0 ids /\
      Forall (open_id edges) ids.
Proof.
  intros Hs. induction fuel as [|fuel IH]; intros curr p0 t0 r Hr; simpl in Hr.
  - destruct (cf !! curr) as [[i u]|]; [discriminate |].
    injection Hr as <-. exists []. simpl. auto.
  - destruct (cf !! curr) as [[i u]|] eqn:Hc.
    + destruct (Hs curr i u Hc) as (e & Hin & Hid & Hopen & _).
      destruct (find_has_id_some i edges e Hin Hid) as (e' & Hf).
      apply IH in Hr as (ids & Hp & Heta & Hall).
      exists (ids ++ [i]). split; [now rewrite <- app_assoc |]. split.
      * rewrite Heta, fold_right_app. simpl. unfold weight_of. now rewrite Hf.
      * apply Forall_app. split; [assumption |]. constructor; [|constructor].
        exists e. auto.
    + injection Hr as <-. exists []. simpl. auto.
Qed.

Lemma search_sound nodes endNode endNodeId edges :
  forall fuel (s : Search) r,
    sound_links edges (cameFrom s) ->
    search fuel nodes endNode endNodeId edges s = Some (Some r) ->
    PathResult.eta r = path_cost edges (PathResult.path r) /\
    Forall (open_id edges) (PathResult.path r).
Proof.
  induction fuel as [|fuel IH]; intros s r Hs Hr; simpl in Hr; [discriminate |].
  destruct (openSet s) as [|o os] eqn:Ho; [discriminate |].
  destruct (String.eqb (lowest s) endNodeId).
  - destruct (reconstructPath fuel (cameFrom s) (lowest s) edges [] zero) as [r'|] eqn:Hrec;
      [|discriminate].
    injection Hr as <-.
    apply (reconstructPath_spec edges _ Hs) in Hrec as (ids & Hp & Heta & Hall).
    rewrite app_nil_r in Hp. rewrite Hp. auto.
  - eapply IH; [|exact Hr].
    apply relax_all_sound; [|exact Hs].
    intros e He. now apply neighbors_spec.
Qed.

(** Fuel only bounds the number of turns: a result obtained with some fuel
    is the result with any larger amount. *)
Lemma reconstructPath_more_fuel cf edges (k : nat) :
  forall fuel curr p0 (t0 : num) r,
    reconstructPath fuel cf curr edges p0 t0 = Some r ->
    reconstructPath (fuel + k) cf curr edges p0 t0 = Some r.
Proof.
  induction fuel as [|fuel IH]; intros curr p0 t0 r Hr; simpl in Hr.
  - destruct (cf !! curr) as [[i u]|] eqn:Hc; [discriminate |].
    destruct k; simpl; now rewrite Hc.
  - simpl. destruct (cf !! curr) as [[i u]|]; [|exact Hr]. now apply IH.
Qed.

Lemma search_more_fuel nodes endNode endNodeId edges (k : nat) :
  forall fuel (s : Search) (x : option (PathResult.t num)),
    search fuel nodes endNode endNodeId edges s = Some x ->
    search (fuel + k) nodes endNode endNodeId edges s = Some x.
Proof.
  induction fuel as [|fuel IH]; intros s x Hs; simpl in Hs; [discriminate |].
  simpl. destruct (openSet s) as [|o os]; [exact Hs |].
  destruct (String.eqb (lowest s) endNodeId).
  - destruct (reconstructPath fuel (cameFrom s) (lowest s) edges [] zero) as [r|] eqn:Hr;
      [|discriminate].
    now rewrite (reconstructPath_more_fuel _ _ k _ _ _ _ _ Hr).
  - now apply IH.
Qed.

Lemma findPath_more_fuel (k fuel : nat) a b nodes (edges : list (Edge.t num)) x :
  findPath fuel a b nodes edges = Some x ->
  findPath (fuel + k) a b nodes edges = Some x.
Proof.
  unfold findPath. destruct (nodes !! a); [|auto]. destruct (nodes !! b); [|auto].
  apply search_more_fuel.
Qed.

Lemma find_unique (es : list (Edge.t num)) (e : Edge.t num) :
  unique_ids es -> In e es -> List.find (has_id (Edge.id e)) es = Some e.
Proof.
  unfold unique_ids. intros Hu Hin.
  induction es as [|x es IH]; simpl in *; [contradiction |].
  apply NoDup_cons in Hu as [Hnotin Hu]. rewrite list_elem_of_In in Hnotin.
  destruct Hin as [-> | Hin].
  - unfold has_id at 1. now rewrite String.eqb_refl.
  - destruct (has_id (Edge.id e) x) eqn:Hx; [|auto].
    apply has_id_true in Hx. exfalso. apply Hnotin. rewrite Hx. now apply in_map.
Qed.

Lemma open_id_resolves edges i :
  unique_ids edges -> open_id edges i -> resolves_open (num := num) edges i.
Proof.
  intros Hu (e & Hin & Hid & Hopen).
  exists e. split; [|assumption]. subst i. now apply find_unique.
Qed.

(** With unique identifiers a list of identifiers of open edges is the
    list of the identifiers of those edges, and the weights [find] gives the
    identifiers are theirs. *)
Lemma open_ids_edges edges (ids : list string) :
  unique_ids edges -> Forall (open_id edges) ids ->
  exists q : list (Edge.t num),
    ids = map Edge.id q /\
    Forall (fun e => In e edges /\ Edge.isClosed e = false) q /\
    path_cost edges ids = route_cost q.
Proof.
  intros Hu. induction 1 as [|i ids (e & Hin & Hid & Hopen) _ (q & Hq & Hall & Hcost)].
  - exists []. repeat split. constructor.
  - exists (e :: q). split; [simpl; congruence |]. split; [constructor; auto |].
    simpl. rewrite Hcost. unfold weight_of.
    now rewrite <- Hid, (find_unique edges e Hu Hin).
Qed.

(** C7 (as amended): when [findPath] returns a result, every identifier of
    the path is that of an edge of the array that is not closed, and [eta]
    is the sum, added up from the last identifier to the first, of the
    [currentWeight] of the edge [find] resolves each identifier to.  When
    moreover edge identifiers are unique, the path is the list of the
    identifiers of edges of the array, none of them closed, [eta] is the sum
    of the [currentWeight] of these edges, and the edge each identifier of
    the path resolves to is not closed. *)
Theorem findPath_cost_and_closures fuel a b nodes (edges : list (Edge.t num)) r :
  findPath fuel a b nodes edges = Some (Some r) ->
  (Forall (open_id edges) (PathResult.path r) /\
   PathResult.eta r = path_cost edges (PathResult.path r)) /\
  (unique_ids edges ->
   exists q : list (Edge.t num),
     PathResult.path r = map Edge.id q /\
     Forall (fun e => In e edges /\ Edge.isClosed e = false) q /\
     PathResult.eta r = route_cost q /\
     Forall (resolves_open edges) (PathResult.path r)).
Proof.
  unfold findPath. intros Hr.
  destruct (nodes !! a) as [startNode|]; [|discriminate].
  destruct (nodes !! b) as [endNode|]; [|discriminate].
  apply search_sound in Hr as [Heta Hall].
  - split; [split; [exact Hall | exact Heta] |]. intros Hu.
    destruct (open_ids_edges edges _ Hu Hall) as (q & Hq & Hopen & Hcost).
    exists q. split; [exact Hq |]. split; [exact Hopen |].
    split; [congruence |].
    eapply Forall_impl; [exact Hall |].
    intros i. now apply open_id_resolves.
  - simpl. intros v i u Hv. now rewrite lookup_empty in Hv.
Qed.
End PlannerSoundness.

(** ** The planner with an admissible heuristic *)

Section PlannerOptimality.
Variables (sqrt : Q -> Q) (pow : Q -> Q -> Q).
#[local] Existing Instance exact_numbers.

Lemma Qltb_true (x y : Q) : Qltb x y = true <-> (x < y)%Q.
Proof.
  unfold Qltb. rewrite negb_true_iff. split.
  - intros Hle. apply Qnot_le_lt. intros Hyx. apply Qle_bool_iff in Hyx. congruence.
  - intros Hlt. destruct (Qle_bool y x) eqn:Hle; [|reflexivity].
    apply Qle_bool_iff in Hle. exfalso. exact (Qlt_not_le _ _ Hlt Hle).
Qed.

Lemma Qltb_false (x y : Q) : Qltb x y = false <-> (y <= x)%Q.
Proof.
  unfold Qltb. rewrite negb_false_iff. apply Qle_bool_iff.
Qed.

Lemma set_add_In x v (l : list string) : In v (set_add x l) <-> v = x \/ In v l.
Proof.
  unfold set_add. destruct (existsb (String.eqb x) l) eqn:Hex.
  - apply existsb_exists in Hex as (y & Hy & Hxy). apply String.eqb_eq in Hxy. subst y.
    split; [auto |]. intros [-> | Hin]; assumption.
  - rewrite in_app_iff. simpl. split; [intros [Hin | [<- | []]]; auto |].
    intros [-> | Hin]; auto.
Qed.

Lemma set_delete_In x v (l : list string) : In v (set_delete x l) <-> In v l /\ v <> x.
Proof.
  unfold set_delete. rewrite filter_In, negb_true_iff, String.eqb_neq. reflexivity.
Qed.

Lemma pick_scored (fs : gmap string Q) c fm x fx :
  fs !! x = Some fx ->
  pick (H := exact_numbers sqrt pow) fs (c, Some fm) x
  = if Qltb fx fm then (x, Some fx) else (c, Some fm).
Proof. intros Hfx. unfold pick. now rewrite Hfx. Qed.

Lemma pick_first (fs : gmap string Q) c x fx :
  fs !! x = Some fx -> pick (H := exact_numbers sqrt pow) fs (c, None) x = (x, Some fx).
Proof. intros Hfx. unfold pick. now rewrite Hfx. Qed.

(** The scan of the open set returns a member with the least [fScore]. *)
Lemma pick_least (fs : gmap string Q) (l : list string) :
  forall c fm,
    (forall v, In v l -> exists f, fs !! v = Some f) ->
    fs !! c = Some fm ->
    exists fr,
      fs !! fst (fold_left (pick (H := exact_numbers sqrt pow) fs) l (c, Some fm)) = Some fr /\
      (fst (fold_left (pick (H := exact_numbers sqrt pow) fs) l (c, Some fm)) = c \/
       In (fst (fold_left (pick (H := exact_numbers sqrt pow) fs) l (c, Some fm))) l) /\
      (forall v fv, In v l -> fs !! v = Some fv -> (fr <= fv)%Q) /\
      (fr <= fm)%Q.
Proof.
  induction l as [|x l IH]; intros c fm Hall Hc.
  - exists fm. simpl. repeat split; auto.
    + intros v fv [].
    + apply Qle_refl.
  - destruct (Hall x (or_introl eq_refl)) as (fx & Hfx).
    assert (Hall' : forall v, In v l -> exists f, fs !! v = Some f)
      by (intros v Hv; apply Hall; now right).
    simpl fold_left. rewrite (pick_scored fs c fm x fx Hfx).
    destruct (Qltb fx fm) eqn:Hlt.
    + apply Qltb_true in Hlt.
      destruct (IH x fx Hall' Hfx) as (fr & Hr1 & Hr3 & Hr4 & Hr5).
      exists fr. split; [exact Hr1 |]. split; [|split].
      * destruct Hr3 as [-> | Hin]; [right; now left | right; now right].
      * intros v fv [<- | Hv] Hfv.
        -- rewrite Hfx in Hfv. injection Hfv as <-. exact Hr5.
        -- now apply (Hr4 v).
      * lra.
    + apply Qltb_false in Hlt.
      destruct (IH c fm Hall' Hc) as (fr & Hr1 & Hr3 & Hr4 & Hr5).
      exists fr. split; [exact Hr1 |]. split; [|split].
      * destruct Hr3 as [-> | Hin]; [now left | right; now right].
      * intros v fv [<- | Hv] Hfv.
        -- rewrite Hfx in Hfv. injection Hfv as <-. lra.
        -- now apply (Hr4 v).
      * exact Hr5.
Qed.

Lemma lowest_least (s : Search) :
  openSet s <> [] ->
  (forall v, In v (openSet s) -> exists f, fScore s !! v = Some f) ->
  In (lowest (H := exact_numbers sqrt pow) s) (openSet s) /\
  exists fl, fScore s !! lowest (H := exact_numbers sqrt pow) s = Some fl /\
    forall v fv, In v (openSet s) -> fScore s !! v = Some fv -> (fl <= fv)%Q.
Proof.
  intros Hne Hall. unfold lowest.
  destruct (openSet s) as [|x l] eqn:Ho; [congruence |].
  destruct (Hall x (or_introl eq_refl)) as (fx & Hfx).
  assert (Hall' : forall v, In v l -> exists f, fScore s !! v = Some f)
    by (intros v Hv; apply Hall; now right).
  simpl fold_left. rewrite (pick_first (fScore s) "" x fx Hfx).
  destruct (pick_least (fScore s) l x fx Hall' Hfx) as (fr & Hr1 & Hr3 & Hr4 & Hr5).
  split.
  - destruct Hr3 as [-> | Hin]; [now left | now right].
  - exists fr. split; [exact Hr1 |].
    intros v fv [<- | Hv] Hfv.
    + rewrite Hfx in Hfv. injection Hfv as <-. exact Hr5.
    + now apply (Hr4 v).
Qed.
Section Graph.
Variables (nodes : gmap string (Node.t Q)) (endNode : Node.t Q) (a : string)
          (edges : list (Edge.t Q)).
Hypothesis Hw : nonneg_weights edges.

Lemma lt_or_infinity_Some (x y : Q) :
  lt_or_infinity (H := exact_numbers sqrt pow) x (Some y) = true <-> (x < y)%Q.
Proof. apply Qltb_true. Qed.

Lemma lt_or_infinity_Some_false (x y : Q) :
  lt_or_infinity (H := exact_numbers sqrt pow) x (Some y) = false <-> (y <= x)%Q.
Proof. apply Qltb_false. Qed.

Lemma relax_within current done (s : Search) e0 :
  within_turn sqrt pow nodes endNode a edges current done s ->
  In e0 edges -> Edge.isClosed e0 = false -> Edge.sourceId e0 = current ->
  within_turn sqrt pow nodes endNode a edges current (e0 :: done)
    (relax (H := exact_numbers sqrt pow) nodes endNode current s e0).
Proof.
  intros (Hinv & Ha & Hcur & gc & Hgc) Hin0 Hopen0 Hsrc0.
  unfold relax. rewrite Hgc.
  pose proof (inv_nonneg _ _ _ _ _ _ _ _ Hinv current gc Hgc) as Hgc0.
  pose proof (Hw e0 Hin0 Hopen0) as Hw0.
  change (add gc (Edge.currentWeight e0)) with (gc + Edge.currentWeight e0)%Q.
  destruct (lt_or_infinity (gc + Edge.currentWeight e0)%Q
              (gScore s !! Edge.targetId e0)) eqn:Hlt.
  - (* the neighbour is improved *)
    assert (Hta : Edge.targetId e0 <> a).
    { intros Heq. destruct (inv_start _ _ _ _ _ _ _ _ Hinv) as (g0 & Hg0 & Hz).
      rewrite Heq, Hg0 in Hlt. apply lt_or_infinity_Some in Hlt. lra. }
    assert (Htc : Edge.targetId e0 <> current).
    { intros Heq. rewrite Heq, Hgc in Hlt. apply lt_or_infinity_Some in Hlt. lra. }
    assert (Hold : forall g, gScore s !! Edge.targetId e0 = Some g ->
                             (gc + Edge.currentWeight e0 < g)%Q).
    { intros g Hg. rewrite Hg in Hlt. now apply lt_or_infinity_Some in Hlt. }
    split; [|split; [|split]].
    + constructor; simpl.
      * destruct (inv_start _ _ _ _ _ _ _ _ Hinv) as (g0 & Hg0 & Hz).
        exists g0. rewrite lookup_insert_ne by congruence. auto.
      * intros v g Hv. destruct (decide (Edge.targetId e0 = v)) as [<- | Hne].
        -- rewrite lookup_insert_eq in Hv. injection Hv as <-. lra.
        -- rewrite lookup_insert_ne in Hv by assumption.
           exact (inv_nonneg _ _ _ _ _ _ _ _ Hinv v g Hv).
      * intros v Hv. destruct (decide (Edge.targetId e0 = v)) as [<- | Hne].
        -- rewrite !lookup_insert_eq. eauto.
        -- rewrite !lookup_insert_ne by assumption.
           apply set_add_In in Hv as [-> | Hv]; [congruence |].
           exact (inv_scored _ _ _ _ _ _ _ _ Hinv v Hv).
      * intros v Hv Hva. destruct (decide (Edge.targetId e0 = v)) as [<- | Hne].
        -- exists e0, (gc + Edge.currentWeight e0)%Q.
           rewrite !lookup_insert_eq. auto 10.
        -- apply set_add_In in Hv as [-> | Hv]; [congruence |].
           destruct (inv_open _ _ _ _ _ _ _ _ Hinv v Hv Hva)
             as (e & g & He1 & He2 & He3 & He4 & He5).
           exists e, g. rewrite !lookup_insert_ne by assumption. auto 10.
      * intros e Hin Hopen Hrel Hnot gu Hgu.
        assert (Hsrc_t : Edge.sourceId e <> Edge.targetId e0).
        { intros Heq. apply Hnot. apply set_add_In. now left. }
        assert (Hnot' : ~ In (Edge.sourceId e) (openSet s)).
        { intros Hi. apply Hnot. apply set_add_In. now right. }
        rewrite lookup_insert_ne in Hgu by congruence.
        assert (Hcase : e0 = e \/ (Edge.sourceId e <> current \/ In e done)).
        { destruct Hrel as [Hr | [Hr | Hr]]; auto. }
        destruct Hcase as [<- | Hrel'].
        -- exists (gc + Edge.currentWeight e0)%Q. rewrite lookup_insert_eq.
           split; [reflexivity |]. rewrite Hsrc0, Hgc in Hgu. injection Hgu as <-. lra.
        -- destruct (inv_relaxed _ _ _ _ _ _ _ _ Hinv e Hin Hopen Hrel' Hnot' gu Hgu)
             as (gv & Hgv & Hle).
           destruct (decide (Edge.targetId e0 = Edge.targetId e)) as [Heq | Hne].
           ++ exists (gc + Edge.currentWeight e0)%Q. rewrite Heq, lookup_insert_eq.
              split; [reflexivity |]. rewrite <- Heq in Hgv.
              specialize (Hold gv Hgv). lra.
           ++ exists gv. rewrite lookup_insert_ne by assumption. auto.
      * intros v i u Hv. destruct (decide (Edge.targetId e0 = v)) as [<- | Hne].
        -- rewrite lookup_insert_eq in Hv. injection Hv as <- <-.
           split; [assumption |].
           exists e0, gc, (gc + Edge.currentWeight e0)%Q.
           rewrite lookup_insert_eq, lookup_insert_ne by assumption.
           repeat split; auto. lra.
        -- rewrite lookup_insert_ne in Hv by assumption.
           destruct (inv_links _ _ _ _ _ _ _ _ Hinv v i u Hv)
             as (Hva & e & gu & gv & He1 & He2 & He3 & He4 & He5 & He6 & He7 & He8).
           split; [assumption |].
           destruct (decide (Edge.targetId e0 = u)) as [Heq | Hneu].
           ++ exists e, (gc + Edge.currentWeight e0)%Q, gv.
              rewrite Heq, lookup_insert_eq, lookup_insert_ne by congruence.
              repeat split; auto. rewrite <- Heq in He6.
              specialize (Hold gu He6). lra.
           ++ exists e, gu, gv. rewrite !lookup_insert_ne by assumption.
              repeat split; auto.
      * intros v g Hv Hva. destruct (decide (Edge.targetId e0 = v)) as [<- | Hne].
        -- rewrite lookup_insert_eq. eauto.
        -- rewrite lookup_insert_ne in Hv by assumption.
           rewrite lookup_insert_ne by assumption.
           exact (inv_reached _ _ _ _ _ _ _ _ Hinv v g Hv Hva).
    + simpl. intros Hi. apply set_add_In in Hi as [Hi | Hi]; [congruence | auto].
    + simpl. intros Hi. apply set_add_In in Hi as [Hi | Hi]; [congruence | auto].
    + simpl. exists gc. now rewrite lookup_insert_ne.
  - (* nothing changes *)
    split; [|split; [|split]]; auto; [|eauto].
    constructor; try apply Hinv.
    intros e Hin Hopen Hrel Hnot gu Hgu.
    assert (Hcase : e0 = e \/ (Edge.sourceId e <> current \/ In e done)).
    { destruct Hrel as [Hr | [Hr | Hr]]; auto. }
    destruct Hcase as [<- | Hrel'].
    + destruct (gScore s !! Edge.targetId e0) as [gv|] eqn:Hgv; [|discriminate].
      apply lt_or_infinity_Some_false in Hlt.
      exists gv. split; [reflexivity |]. rewrite Hsrc0, Hgc in Hgu. injection Hgu as <-. lra.
    + exact (inv_relaxed _ _ _ _ _ _ _ _ Hinv e Hin Hopen Hrel' Hnot gu Hgu).
Qed.

Lemma relax_all_within current (todo : list (Edge.t Q)) :
  forall done (s : Search),
    within_turn sqrt pow nodes endNode a edges current done s ->
    (forall e, In e todo ->
       In e edges /\ Edge.sourceId e = current /\ Edge.isClosed e = false) ->
    within_turn sqrt pow nodes endNode a edges current (rev todo ++ done)
      (fold_left (relax (H := exact_numbers sqrt pow) nodes endNode current) todo s).
Proof.
  induction todo as [|e0 todo IH]; intros done s Hin Hall; simpl; [exact Hin |].
  destruct (Hall e0 (or_introl eq_refl)) as (He1 & He2 & He3).
  rewrite <- app_assoc. simpl. apply IH.
  - now apply relax_within.
  - intros e He. apply Hall. now right.
Qed.

(** One turn of the [while] loop that does not stop at the goal. *)
Lemma turn_keeps_invariant (s : Search) :
  between_turns sqrt pow nodes endNode a edges s ->
  openSet s <> [] ->
  between_turns sqrt pow nodes endNode a edges
    (fold_left (relax (H := exact_numbers sqrt pow) nodes endNode
                  (lowest (H := exact_numbers sqrt pow) s))
       (neighbors (lowest (H := exact_numbers sqrt pow) s) edges)
       (mkSearch (set_delete (lowest (H := exact_numbers sqrt pow) s) (openSet s))
                 (cameFrom s) (gScore s) (fScore s))).
Proof.
  intros [Hinv Hstart] Hne.
  destruct (lowest_least s Hne) as [Hlow _].
  { intros v Hv. apply (inv_scored _ _ _ _ _ _ _ _ Hinv v Hv). }
  set (current := lowest (H := exact_numbers sqrt pow) s) in *.
  set (s1 := mkSearch (set_delete current (openSet s)) (cameFrom s) (gScore s) (fScore s)).
  assert (H1 : within_turn sqrt pow nodes endNode a edges current [] s1).
  { split; [|split; [|split]].
    - constructor; simpl; try apply Hinv.
      + intros v Hv. apply set_delete_In in Hv as [Hv _].
        exact (inv_scored _ _ _ _ _ _ _ _ Hinv v Hv).
      + intros v Hv Hva. apply set_delete_In in Hv as [Hv _].
        exact (inv_open _ _ _ _ _ _ _ _ Hinv v Hv Hva).
      + intros e Hin Hopen [Hsrc | []] Hnot gu Hgu.
        apply (inv_relaxed _ _ _ _ _ _ _ _ Hinv e Hin Hopen I); [|exact Hgu].
        intros Hi. apply Hnot. apply set_delete_In. auto.
    - simpl. intros Hi. apply set_delete_In in Hi as [Hi Hne'].
      specialize (Hstart Hi). rewrite Hstart in Hlow.
      destruct Hlow as [Heq | []]. congruence.
    - simpl. intros Hi. apply set_delete_In in Hi as [_ Hne']. congruence.
    - simpl. apply (inv_scored _ _ _ _ _ _ _ _ Hinv current Hlow). }
  pose proof (relax_all_within current (neighbors current edges) [] s1 H1) as H2.
  destruct H2 as (Hinv2 & Ha2 & Hc2 & Hg2).
  { intros e He. apply neighbors_spec in He. tauto. }
  split; [|intros Hi; contradiction].
  constructor; try apply Hinv2.
  intros e Hin Hopen _ Hnot gu Hgu.
  apply (inv_relaxed _ _ _ _ _ _ _ _ Hinv2 e Hin Hopen); [|exact Hnot | exact Hgu].
  destruct (decide (Edge.sourceId e = current)) as [Heq | Hneq]; [|now left].
  right. apply in_or_app. left. apply in_rev. rewrite rev_involutive.
  apply neighbors_spec. auto.
Qed.

Lemma route_cost_cons (e : Edge.t Q) rest :
  route_cost (H := exact_numbers sqrt pow) (e :: rest)
  = (route_cost (H := exact_numbers sqrt pow) rest + Edge.currentWeight e)%Q.
Proof. reflexivity. Qed.

(** Along any route to the goal there is a node of the open set whose
    score plus the cost of the rest of the route is at most the score of the
    node the route leaves from plus the cost of the route. *)
Lemma first_open_node b (s : Search) :
  search_inv sqrt pow nodes endNode a edges (fun _ => True) s ->
  In b (openSet s) ->
  forall u p, route edges u b p ->
    forall gu, gScore s !! u = Some gu ->
      exists m p2 gm, In m (openSet s) /\ route edges m b p2 /\
        gScore s !! m = Some gm /\
        (gm + route_cost (H := exact_numbers sqrt pow) p2
         <= gu + route_cost (H := exact_numbers sqrt pow) p)%Q.
Proof.
  intros Hinv Hb u p Hroute.
  induction Hroute as [u | e b' rest Hin Hopen Hrest IH]; intros gu Hgu.
  - exists u, [], gu. repeat split; auto; [constructor | lra].
  - destruct (in_dec String.string_dec (Edge.sourceId e) (openSet s)) as [Hi | Hni].
    + exists (Edge.sourceId e), (e :: rest), gu.
      repeat split; auto; [now constructor | lra].
    + destruct (inv_relaxed _ _ _ _ _ _ _ _ Hinv e Hin Hopen I Hni gu Hgu)
        as (gv & Hgv & Hle).
      destruct (IH Hb gv Hgv) as (m & p2 & gm & Hm1 & Hm2 & Hm3 & Hm4).
      exists m, p2, gm. repeat split; auto.
      rewrite route_cost_cons. lra.
Qed.

Lemma route_snoc z u q (e : Edge.t Q) :
  route edges z u q -> In e edges -> Edge.isClosed e = false -> Edge.sourceId e = u ->
  route edges z (Edge.targetId e) (q ++ [e]).
Proof.
  intros Hroute Hin Hopen Hsrc. induction Hroute as [z | e' u rest Hin' Hopen' _ IH].
  - simpl. subst z. constructor; auto. constructor.
  - simpl. constructor; auto.
Qed.

Lemma route_cost_snoc q (e : Edge.t Q) :
  (route_cost (H := exact_numbers sqrt pow) (q ++ [e])
   == route_cost (H := exact_numbers sqrt pow) q + Edge.currentWeight e)%Q.
Proof.
  induction q as [|x q IH].
  - simpl. change (add zero (Edge.currentWeight e)) with (0 + Edge.currentWeight e)%Q. lra.
  - change ((x :: q) ++ [e]) with (x :: (q ++ [e])).
    rewrite !route_cost_cons, IH. lra.
Qed.

Lemma route_cost_nonneg u v p :
  route edges u v p -> (0 <= route_cost (H := exact_numbers sqrt pow) p)%Q.
Proof.
  induction 1 as [u | e v rest Hin Hopen _ IH].
  - apply Qle_refl.
  - rewrite route_cost_cons. pose proof (Hw e Hin Hopen). lra.
Qed.

(** Walking [cameFrom] back from a scored node gives a route from the start
    node whose cost is at most the node's score. *)
Lemma reconstructPath_route relaxed (s : Search) :
  search_inv sqrt pow nodes endNode a edges relaxed s ->
  unique_ids edges ->
  forall fuel curr p0 (t0 : Q) r gc,
    reconstructPath (H := exact_numbers sqrt pow) fuel (cameFrom s) curr edges p0 t0 = Some r ->
    gScore s !! curr = Some gc ->
    exists q, route edges a curr q /\
      PathResult.path r = map Edge.id q ++ p0 /\
      (PathResult.eta r == t0 + route_cost (H := exact_numbers sqrt pow) q)%Q /\
      (route_cost (H := exact_numbers sqrt pow) q <= gc)%Q.
Proof.
  intros Hinv Hu.
  assert (Hstop : forall curr p0 (t0 gc : Q),
             cameFrom s !! curr = None -> gScore s !! curr = Some gc ->
             exists q, route edges a curr q /\
               p0 = map Edge.id q ++ p0 /\
               (t0 == t0 + route_cost (H := exact_numbers sqrt pow) q)%Q /\
               (route_cost (H := exact_numbers sqrt pow) q <= gc)%Q).
  { intros curr p0 t0 gc Hnone Hgc.
    destruct (decide (curr = a)) as [-> | Hne].
    - exists []. repeat split; [constructor | |].
      + change (route_cost (H := exact_numbers sqrt pow) []) with 0%Q. lra.
      + exact (inv_nonneg _ _ _ _ _ _ _ _ Hinv a gc Hgc).
    - destruct (inv_reached _ _ _ _ _ _ _ _ Hinv curr gc Hgc Hne) as (l & Hl). congruence. }
  induction fuel as [|fuel IH]; intros curr p0 t0 r gc Hr Hgc; simpl in Hr.
  - destruct (cameFrom s !! curr) as [[i u]|] eqn:Hc; [discriminate |].
    injection Hr as <-. simpl. now apply Hstop.
  - destruct (cameFrom s !! curr) as [[i u]|] eqn:Hc.
    + destruct (inv_links _ _ _ _ _ _ _ _ Hinv curr i u Hc)
        as (_ & e & gu & gv & He1 & He2 & He3 & He4 & He5 & He6 & He7 & He8).
      rewrite Hgc in He7. injection He7 as <-.
      rewrite <- He2, (find_unique edges e Hu He1) in Hr.
      destruct (IH u _ _ r gu Hr He6) as (q & Hq1 & Hq2 & Hq3 & Hq4).
      exists (q ++ [e]). split; [|split; [|split]].
      * rewrite <- He5. now apply (route_snoc a u q e).
      * rewrite Hq2, map_app, <- app_assoc. reflexivity.
      * rewrite Hq3, route_cost_snoc.
        change (add t0 (Edge.currentWeight e)) with (t0 + Edge.currentWeight e)%Q. lra.
      * rewrite route_cost_snoc. lra.
    + injection Hr as <-. simpl. now apply Hstop.
Qed.

Section Goal.
Variable b : string.
Hypothesis Hadm : admissible sqrt pow nodes endNode b edges.
Hypothesis Hunique : unique_ids edges.

Lemma goal_score_least (s : Search) gb :
  between_turns sqrt pow nodes endNode a edges s ->
  openSet s <> [] ->
  lowest (H := exact_numbers sqrt pow) s = b ->
  gScore s !! b = Some gb ->
  forall p, route edges a b p -> (gb <= route_cost (H := exact_numbers sqrt pow) p)%Q.
Proof.
  intros [Hinv Hstart] Hne Hlow Hgb p Hp.
  destruct (lowest_least s Hne) as [Hin (fl & Hfl & Hleast)].
  { intros v Hv. apply (inv_scored _ _ _ _ _ _ _ _ Hinv v Hv). }
  rewrite Hlow in Hin, Hfl.
  destruct (inv_start _ _ _ _ _ _ _ _ Hinv) as (g0 & Hg0 & Hz).
  destruct (decide (b = a)) as [Hba | Hba].
  - rewrite Hba, Hg0 in Hgb. injection Hgb as <-.
    pose proof (route_cost_nonneg _ _ _ Hp). lra.
  - assert (Ha : ~ In a (openSet s)).
    { intros Hi. rewrite (Hstart Hi) in Hin. destruct Hin as [Heq | []]. congruence. }
    destruct (first_open_node b s Hinv Hin a p Hp g0 Hg0)
      as (m & p2 & gm & Hm1 & Hm2 & Hm3 & Hm4).
    assert (Hma : m <> a) by congruence.
    destruct (inv_open _ _ _ _ _ _ _ _ Hinv m Hm1 Hma)
      as (em & gm' & E1 & E2 & E3 & E4 & E5).
    rewrite Hm3 in E4. injection E4 as <-.
    destruct (inv_open _ _ _ _ _ _ _ _ Hinv b Hin Hba)
      as (eb & gb' & B1 & B2 & B3 & B4 & B5).
    rewrite Hgb in B4. injection B4 as <-.
    rewrite Hfl in B5. injection B5 as ->.
    specialize (Hleast m _ Hm1 E5).
    destruct (Hadm em E1 E2) as [_ Hem]. rewrite E3 in Hem. specialize (Hem p2 Hm2).
    destruct (Hadm eb B1 B2) as [Heb _]. lra.
Qed.

Lemma search_optimal :
  forall fuel (s : Search) r,
    between_turns sqrt pow nodes endNode a edges s ->
    search (H := exact_numbers sqrt pow) fuel nodes endNode b edges s = Some (Some r) ->
    exists q, route edges a b q /\
      PathResult.path r = map Edge.id q /\
      (PathResult.eta r == route_cost (H := exact_numbers sqrt pow) q)%Q /\
      forall p, route edges a b p ->
        (PathResult.eta r <= route_cost (H := exact_numbers sqrt pow) p)%Q.
Proof.
  induction fuel as [|fuel IH]; intros s r Hbt Hr; simpl in Hr; [discriminate |].
  destruct (openSet s) as [|o os] eqn:Ho; [discriminate |].
  assert (Hne : openSet s <> []) by (rewrite Ho; discriminate).
  destruct (String.eqb_spec (lowest (H := exact_numbers sqrt pow) s) b) as [Hlow | Hlow].
  - destruct (reconstructPath _ _ _ _ _ _) as [r'|] eqn:Hrec; [|discriminate].
    injection Hr as <-.
    destruct Hbt as [Hinv Hstart].
    destruct (lowest_least s Hne) as [Hin _].
    { intros v Hv. apply (inv_scored _ _ _ _ _ _ _ _ Hinv v Hv). }
    destruct (inv_scored _ _ _ _ _ _ _ _ Hinv _ Hin) as [_ (gb & Hgb)].
    destruct (reconstructPath_route _ s Hinv Hunique _ _ _ _ _ gb Hrec Hgb)
      as (q & Hq1 & Hq2 & Hq3 & Hq4).
    rewrite Hlow in *. exists q. rewrite app_nil_r in Hq2.
    split; [exact Hq1 |]. split; [exact Hq2 |].
    change (zero (num := Q)) with 0%Q in Hq3.
    split; [lra |].
    intros p Hp.
    pose proof (goal_score_least s gb (conj Hinv Hstart) Hne Hlow Hgb p Hp). lra.
  - refine (IH _ r _ Hr). rewrite <- Ho. now apply turn_keeps_invariant.
Qed.
End Goal.

Lemma initial_between_turns (d : Q) :
  between_turns sqrt pow nodes endNode a edges
    (mkSearch [a] ∅ (<[a := zero (JSNumber := exact_numbers sqrt pow)]> ∅) (<[a := d]> ∅)).
Proof.
  split; [|reflexivity]. constructor; simpl.
  - exists 0%Q. rewrite lookup_insert_eq. split; reflexivity.
  - intros v g Hv. destruct (decide (a = v)) as [<- | Hne].
    + rewrite lookup_insert_eq in Hv. injection Hv as <-. apply Qle_refl.
    + rewrite lookup_insert_ne, lookup_empty in Hv by assumption. discriminate.
  - intros v [<- | []]. rewrite !lookup_insert_eq. eauto.
  - intros v [<- | []] Hne. congruence.
  - intros e Hin Hopen _ Hnot gu Hgu.
    rewrite lookup_insert_ne, lookup_empty in Hgu; [discriminate |].
    intros Heq. apply Hnot. now left.
  - intros v i u Hv. rewrite lookup_empty in Hv. discriminate.
  - intros v g Hv Hne. rewrite lookup_insert_ne, lookup_empty in Hv by congruence.
    discriminate.
Qed.
End Graph.

(** Over the exact rationals, where sums do not depend on the order of the
    additions, the search is optimal once the heuristic is admissible: with
    unique identifiers, weights that are not negative and a heuristic that
    never exceeds the cost of a route to the goal, the path [findPath]
    returns is a route from the start node to the goal, [eta] is its cost,
    and no route from the start node to the goal costs less.  In rounded
    arithmetic [eta], added from the last edge to the first, is not the sum
    the search compares; the statement for any arithmetic comes with the
    planner in any arithmetic, below. *)
Theorem findPath_optimal_if_admissible fuel a b nodes (edges : list (Edge.t Q)) endNode r :
  nodes !! b = Some endNode ->
  unique_ids edges ->
  nonneg_weights edges ->
  admissible sqrt pow nodes endNode b edges ->
  findPath (H := exact_numbers sqrt pow) fuel a b nodes edges = Some (Some r) ->
  exists q, route edges a b q /\
    PathResult.path r = map Edge.id q /\
    (PathResult.eta r == route_cost (H := exact_numbers sqrt pow) q)%Q /\
    forall p, route edges a b p ->
      (PathResult.eta r <= route_cost (H := exact_numbers sqrt pow) p)%Q.
Proof.
  intros Hb Hu Hw Hadm. unfold findPath. rewrite Hb.
  destruct (nodes !! a) as [startNode|]; [|discriminate].
  intros Hr.
  refine (search_optimal nodes endNode a edges Hw b Hadm Hu fuel _ r _ Hr).
  apply initial_between_turns.
Qed.
End PlannerOptimality.

(** ** The properties on the example site *)

Section Examples.
#[local] Existing Instance Qexact.
Import Site Twins.

Lemma site_ids_unique : unique_ids (Engine.edges blocked).
Proof.
  unfold unique_ids. simpl.
  apply NoDup_cons. split; [|apply NoDup_singleton].
  rewrite list_elem_of_In. simpl. intuition discriminate.
Defined.

Lemma site_loads_match : loads_match (Engine.edges blocked) (Engine.trucks blocked).
Proof. intros e [<- | [<- | []]]; reflexivity. Defined.

(** C1, counterexample: the truck of [blocked] completes [sa] and is
    refused by the closed edge [ag].  After the motion phase the load of
    [sa] is 0 while one truck of the active set, the waiting one, still has
    [sa] as its current edge. *)
Lemma waiting_truck_still_on_edge :
  (forall e, In e (Engine.edges blocked) ->
     Edge.currentLoad e = count_trucks (is_on (Edge.id e)) (Engine.trucks blocked)) /\
  (exists e, In e (Engine.edges (afterMotion blocked)) /\
     Edge.id e = "sa" /\
     Edge.currentLoad e = 0 /\
     count_trucks (is_on (Edge.id e)) (Engine.trucks (afterMotion blocked)) = 1) /\
  map Truck.state (Engine.trucks (afterMotion blocked)) = [waiting].
Proof.
  split; [intros e [<- | [<- | []]]; reflexivity |].
  split; [|reflexivity].
  exists (Edge.set_currentLoad 0 sa). repeat split. now left.
Qed.

Lemma motion_keeps_loads_witness :
  unique_ids (Engine.edges blocked) /\
  loads_match (Engine.edges blocked) (Engine.trucks blocked) /\
  loads_match (Engine.edges (afterMotion blocked)) (Engine.trucks (afterMotion blocked)) /\
  loads_match (Engine.edges (prunePhase (afterMotion blocked)))
              (Engine.trucks (prunePhase (afterMotion blocked))).
Proof.
  split; [exact site_ids_unique |]. split; [exact site_loads_match |].
  exact (motion_keeps_loads blocked site_ids_unique site_loads_match).
Defined.

(** C3, counterexample: the third consecutive reading of [R-2] commits
    the truck to it, and the consecutive count is 3 afterwards, not 0; the
    pending candidate is kept as well. *)
Lemma commit_keeps_count :
  Truck.inferredRouterId (hysteresis 3 5%Q routers (Some "R-2") pending_truck)
    = Some "R-2" /\
  Truck.lastRouterSwitchTime (hysteresis 3 5%Q routers (Some "R-2") pending_truck)
    = 5%Q /\
  Truck.consecutiveRouterReads (hysteresis 3 5%Q routers (Some "R-2") pending_truck)
    = 3 /\
  Truck.consecutiveRouterReads (hysteresis 3 5%Q routers (Some "R-2") pending_truck)
    <> 0 /\
  Truck.potentialRouterId (hysteresis 3 5%Q routers (Some "R-2") pending_truck)
    = Some "R-2".
Proof. repeat split; try reflexivity. discriminate. Qed.

Lemma hysteresis_pending_reading_witness :
  "R-2" <> "" /\
  Truck.inferredRouterId pending_truck <> Some "R-2" /\
  Truck.potentialRouterId pending_truck = Some "R-2" /\
  Truck.consecutiveRouterReads (hysteresis 3 5%Q routers (Some "R-2") pending_truck)
    = Truck.consecutiveRouterReads pending_truck + 1 /\
  Truck.inferredEdgeId (hysteresis 3 5%Q routers (Some "R-2") pending_truck)
    = Some "ag".
Proof.
  assert (H1 : "R-2" <> "") by discriminate.
  assert (H2 : Truck.inferredRouterId pending_truck <> Some "R-2") by discriminate.
  assert (H3 : Truck.potentialRouterId pending_truck = Some "R-2") by reflexivity.
  destruct (hysteresis_pending_reading 3 5%Q routers "R-2" pending_truck H1 H2 H3)
    as (Hcount & _ & Hcommit & _).
  split; [exact H1 |]. split; [exact H2 |]. split; [exact H3 |].
  split; [exact Hcount |].
  destruct Hcommit as (_ & Hedge & _); [simpl; lia |].
  rewrite Hedge. reflexivity.
Defined.

Lemma hysteresis_commit_at_third_witness :
  "R-1" <> "R-2" /\ "R-1" <> "" /\ "R-2" <> "" /\
  Truck.inferredRouterId pending_truck <> Some "R-2" /\
  Truck.inferredRouterId
    (feed 3 routers [(1, "R-1"); (2, "R-2"); (3, "R-2")]%Q pending_truck) <> Some "R-2" /\
  Truck.inferredRouterId
    (feed 3 routers [(1, "R-1"); (2, "R-2"); (3, "R-2"); (4, "R-2")]%Q pending_truck)
    = Some "R-2".
Proof.
  assert (H1 : "R-1" <> "R-2") by discriminate.
  assert (H2 : "R-1" <> "") by discriminate.
  assert (H3 : "R-2" <> "") by discriminate.
  assert (H4 : Truck.inferredRouterId pending_truck <> Some "R-2") by discriminate.
  destruct (hysteresis_commit_at_third routers "R-1" "R-2" 1%Q 2%Q 3%Q 4%Q
              pending_truck H1 H2 H3 H4) as (_ & _ & K3 & K4 & _).
  split; [exact H1 |]. split; [exact H2 |]. split; [exact H3 |].
  split; [exact H4 |]. split; [exact K3 | exact K4].
Defined.

(** C9, counterexample: [addEdge] stores an edge of capacity 0. *)
Lemma addEdge_admits_capacity_zero :
  Edge.capacity no_capacity = 0 /\
  Engine.edges (addEdge no_capacity (engine queue edges [])) = edges ++ [no_capacity] /\
  ~ Forall (fun e => 1 <= Edge.capacity e)
           (Engine.edges (addEdge no_capacity (engine queue edges []))).
Proof.
  split; [reflexivity |]. split; [reflexivity |].
  intros Hall. rewrite Forall_forall in Hall.
  assert (Hcap : 1 <= Edge.capacity no_capacity).
  { apply Hall. rewrite list_elem_of_In. simpl. auto 10. }
  simpl in Hcap. lia.
Qed.

(** C8, counterexample: a spawn from the unknown node [X] fails and
    nothing reports it: the state is the same and no warning is issued. *)
Lemma spawn_from_unknown_node_is_silent :
  nodes !! "X" = None /\
  spawnTruck 10 (1 # 2)%Q "X" "G" (engine queue edges [])
    = Some (engine queue edges [], []).
Proof. split; vm_compute; reflexivity. Qed.

Lemma spawnTruck_failure_keeps_state_witness :
  (Engine.nodes (engine queue edges []) !! "S" = None \/
   Engine.nodes (engine queue edges []) !! "X" = None \/
   findPath 10 "S" "X" (Engine.nodes (engine queue edges []))
     (Engine.edges (engine queue edges [])) = Some None) /\
  exists warnings,
    spawnTruck 10 (1 # 2)%Q "S" "X" (engine queue edges [])
      = Some (engine queue edges [], warnings) /\
    (Engine.nodes (engine queue edges []) !! "S" <> None ->
     warnings = [no_path_warning]).
Proof.
  assert (Hfail : Engine.nodes (engine queue edges []) !! "S" = None \/
                  Engine.nodes (engine queue edges []) !! "X" = None \/
                  findPath 10 "S" "X" (Engine.nodes (engine queue edges []))
                    (Engine.edges (engine queue edges [])) = Some None)
    by (right; left; vm_compute; reflexivity).
  split; [exact Hfail |].
  exact (spawnTruck_failure_keeps_state 10 (1 # 2)%Q "S" "X" (engine queue edges []) Hfail).
Defined.

Lemma tick_cruising : tick 10 no_noise cruising = Some (ticked cruising).
Proof. vm_compute. reflexivity. Defined.

(** The weights of the example after a tick: one truck on [sa], of
    capacity 2, with [alpha = 1] and [beta = 2]. *)
Lemma cruising_weights :
  map Edge.currentLoad (Engine.edges (afterMotion cruising)) = [0; 1; 0] /\
  Forall2 (fun w w' => w == w')%Q
          (map Edge.currentWeight (Engine.edges (ticked cruising)))
          [40; 30 * (1 + 1 * (1 / 2) ^ 2); 1]%Q.
Proof. split; [vm_compute; reflexivity |]. vm_compute. repeat constructor. Qed.

Lemma tick_recomputes_weights_witness :
  tick 10 no_noise cruising = Some (ticked cruising) /\
  Forall2
    (fun e e' =>
       Edge.currentWeight e' =
         mul (Edge.baseTravelTime e)
             (add one
                (mul (Config.alpha (Engine.config cruising))
                     (Math_pow (div (of_Z (Edge.currentLoad e)) (of_Z (Edge.capacity e)))
                               (Config.beta (Engine.config cruising))))) /\
       e' = Edge.set_currentWeight (Edge.currentWeight e') e)
    (Engine.edges (afterMotion cruising)) (Engine.edges (ticked cruising)).
Proof.
  split; [exact tick_cruising |].
  exact (tick_recomputes_weights 10 no_noise cruising (ticked cruising) tick_cruising).
Defined.

Lemma cruising_reroute_due : reroute_due (beforeReroute no_noise cruising) = true.
Proof. vm_compute. reflexivity. Defined.

(** The truck of [cruising] is replanned onto the plan it already had and
    its reroute count goes from 0 to 1. *)
Lemma cruising_replanned :
  map Truck.routePlan (Engine.trucks cruising) = [["sa"; "ag"]] /\
  map Truck.routePlan (Engine.trucks (ticked cruising)) = [["sa"; "ag"]] /\
  map Truck.rerouteCount (Engine.trucks (ticked cruising)) = [1].
Proof. vm_compute. repeat split. Qed.

Lemma tick_replans_witness :
  tick 10 no_noise cruising = Some (ticked cruising) /\
  reroute_due (beforeReroute no_noise cruising) = true /\
  Forall2 (replanned 10 (Engine.nodes (beforeReroute no_noise cruising))
                        (Engine.edges (beforeReroute no_noise cruising)))
          (Engine.trucks (beforeReroute no_noise cruising))
          (Engine.trucks (ticked cruising)).
Proof.
  split; [exact tick_cruising |]. split; [exact cruising_reroute_due |].
  exact (tick_replans 10 no_noise cruising (ticked cruising)
           tick_cruising cruising_reroute_due).
Defined.

Lemma steps_halted : steps halted (ticked (ticked halted)).
Proof.
  apply steps_cons with (s2 := ticked halted).
  - apply step_tick with (fuel := 10%nat) (noise := no_noise). vm_compute. reflexivity.
  - apply steps_cons with (s2 := ticked (ticked halted)); [|apply steps_refl].
    apply step_tick with (fuel := 10%nat) (noise := no_noise). vm_compute. reflexivity.
Defined.

Lemma waiting_is_forever_witness :
  steps halted (ticked (ticked halted)) /\
  In halted_truck (Engine.trucks halted) /\
  Truck.state halted_truck = waiting /\
  exists t', In t' (Engine.trucks (ticked (ticked halted))) /\
             Truck.state t' = waiting /\ frozen halted_truck t'.
Proof.
  assert (Hin : In halted_truck (Engine.trucks halted)) by (left; reflexivity).
  assert (Hw : Truck.state halted_truck = waiting) by reflexivity.
  split; [exact steps_halted |]. split; [exact Hin |]. split; [exact Hw |].
  exact (waiting_is_forever halted (ticked (ticked halted)) halted_truck
           steps_halted Hin Hw).
Defined.

(** The planner on the example site, with any fuel from 3 on: it returns
    the direct road. *)
Lemma findPath_site fuel :
  findPath (3 + fuel) "S" "G" nodes edges = Some (Some (PathResult.mk Q ["sg"] (0 + 40)%Q)).
Proof. destruct fuel; vm_compute; reflexivity. Qed.

Lemma site_edges_unique : unique_ids edges.
Proof.
  unfold unique_ids. simpl.
  apply NoDup_cons. split.
  - rewrite list_elem_of_In. simpl. intuition discriminate.
  - apply NoDup_cons. split; [|apply NoDup_singleton].
    rewrite list_elem_of_In. simpl. intuition discriminate.
Defined.

Lemma findPath_cost_and_closures_witness :
  findPath 10 "S" "G" nodes edges = Some (Some (PathResult.mk Q ["sg"] (0 + 40)%Q)) /\
  unique_ids edges /\
  (Forall (open_id edges) ["sg"] /\ (0 + 40)%Q = path_cost edges ["sg"]) /\
  exists q : list (Edge.t Q),
    ["sg"] = map Edge.id q /\
    Forall (fun e => In e edges /\ Edge.isClosed e = false) q /\
    (0 + 40)%Q = route_cost q /\
    Forall (resolves_open edges) ["sg"].
Proof.
  split; [exact (findPath_site 7) |]. split; [exact site_edges_unique |].
  destruct (findPath_cost_and_closures 10 "S" "G" nodes edges
              (PathResult.mk Q ["sg"] (0 + 40)%Q) (findPath_site 7)) as [Hany Hunique].
  split; [exact Hany | exact (Hunique site_edges_unique)].
Defined.

(** C7, counterexample: two edges from [S] to [G] carry the identifier the
    map editor gives such an edge; the first is closed and weighs 5/2, the
    second is open and weighs 2.  The planner goes over the open one,
    returns the shared identifier and reports 5/2, the weight of the closed
    edge, which is also the edge the identifier resolves to. *)
Lemma findPath_charges_closed_twin :
  findPath 10 "S" "G" nodes twins
    = Some (Some (PathResult.mk Q ["e-S-G"] (0 + 5 # 2)%Q)) /\
  ~ unique_ids twins /\
  List.find (has_id "e-S-G") twins = Some twin_closed /\
  Edge.isClosed twin_closed = true /\
  ~ Forall (resolves_open twins) ["e-S-G"] /\
  (forall q, route twins "S" "G" q -> q = [twin_open]) /\
  (route_cost [twin_open] == 2)%Q /\
  ~ (PathResult.eta (PathResult.mk Q ["e-S-G"] (0 + 5 # 2)%Q)
     == route_cost [twin_open])%Q.
Proof.
  split; [vm_compute; reflexivity |]. split.
  { unfold unique_ids. simpl. intros Hn. apply NoDup_cons in Hn as [Hn _].
    apply Hn. rewrite list_elem_of_In. now left. }
  split; [reflexivity |]. split; [reflexivity |]. split.
  { intros Hall. apply Forall_cons in Hall as [(e & Hf & Hopen) _].
    vm_compute in Hf. injection Hf as <-. discriminate. }
  split.
  { intros q Hq.
    inversion Hq as [| e b' rest Hin Hopen Hrest Hsrc]; subst.
    destruct Hin as [<- | [<- | []]]; [discriminate |].
    inversion Hrest as [| e' b'' rest' Hin' Hopen' Hrest' Hsrc']; subst; [reflexivity |].
    destruct Hin' as [<- | [<- | []]]; discriminate. }
  split; vm_compute; [reflexivity | discriminate].
Qed.

(** C2, on the example site: the planner returns the direct road [sg], of
    cost 40, although the route [sa], [ag] goes from [S] to [G] over open
    edges at cost 31.  The node [A] is reached over [sa], whose base speed
    is 1, so it is scored [30 + 30 / 1 = 60]; the remaining road [ag] takes
    1. *)
Lemma findPath_misses_cheaper_route :
  findPath 10 "S" "G" nodes edges = Some (Some (PathResult.mk Q ["sg"] (0 + 40)%Q)) /\
  route edges "S" "G" [sa; ag] /\
  (route_cost [sa; ag] == 31)%Q /\
  ltb (route_cost [sa; ag]) (PathResult.eta (PathResult.mk Q ["sg"] (0 + 40)%Q)) = true /\
  (heuristic nodes (node "G" 60 0) sa == 30)%Q.
Proof.
  split; [exact (findPath_site 7) |]. split.
  - apply (route_cons edges sa "G" [ag]); [simpl; auto | reflexivity |].
    apply (route_cons edges ag "G" []); [simpl; auto | reflexivity |].
    apply route_nil.
  - repeat split.
Qed.
(** On the site with the fast road the hypotheses of the optimality
    theorem hold, and the planner returns the detour, of cost 2. *)
Lemma fast_site_unique : unique_ids fast_edges.
Proof.
  unfold unique_ids. simpl.
  apply NoDup_cons. split.
  - rewrite list_elem_of_In. simpl. intuition discriminate.
  - apply NoDup_cons. split; [|apply NoDup_singleton].
    rewrite list_elem_of_In. simpl. intuition discriminate.
Defined.

Lemma fast_site_nonneg : nonneg_weights fast_edges.
Proof.
  intros e [<- | [<- | [<- | []]]] _; vm_compute; discriminate.
Defined.

Lemma fast_site_admissible :
  admissible Qsqrt_exact Qpow_integer nodes (node "G" 60 0) "G" fast_edges.
Proof.
  intros e He _. split.
  - destruct He as [<- | [<- | [<- | []]]]; vm_compute; discriminate.
  - intros p Hp.
    pose proof (route_cost_nonneg Qsqrt_exact Qpow_integer fast_edges fast_site_nonneg
                  _ _ _ Hp) as Hpos.
    destruct He as [<- | [<- | [<- | []]]].
    + apply Qle_trans with 0%Q; [vm_compute; discriminate | exact Hpos].
    + (* the only road out of [A] is [ag] *)
      inversion Hp as [u Hu | e' b' rest Hin Hopen Hrest Hsrc]; subst.
      pose proof (route_cost_nonneg Qsqrt_exact Qpow_integer fast_edges fast_site_nonneg
                    _ _ _ Hrest) as Hrest0.
      destruct Hin as [<- | [<- | [<- | []]]]; try discriminate.
      rewrite (route_cost_cons Qsqrt_exact Qpow_integer).
      change (Edge.currentWeight ag) with 1%Q.
      apply Qle_trans with 1%Q; [vm_compute; discriminate | lra].
    + apply Qle_trans with 0%Q; [vm_compute; discriminate | exact Hpos].
Defined.

Lemma findPath_fast_site :
  findPath 10 "S" "G" nodes fast_edges
  = Some (Some (PathResult.mk Q ["sa"; "ag"] (0 + 1 + 1)%Q)).
Proof. vm_compute. reflexivity. Defined.

Lemma fast_site_goal : nodes !! "G" = Some (node "G" 60 0).
Proof. vm_compute. reflexivity. Defined.

Lemma findPath_optimal_if_admissible_witness :
  nodes !! "G" = Some (node "G" 60 0) /\
  unique_ids fast_edges /\
  nonneg_weights fast_edges /\
  admissible Qsqrt_exact Qpow_integer nodes (node "G" 60 0) "G" fast_edges /\
  findPath 10 "S" "G" nodes fast_edges
    = Some (Some (PathResult.mk Q ["sa"; "ag"] (0 + 1 + 1)%Q)) /\
  exists q, route fast_edges "S" "G" q /\
    ["sa"; "ag"] = map Edge.id q /\
    (0 + 1 + 1 == route_cost q)%Q /\
    forall p, route fast_edges "S" "G" p -> (0 + 1 + 1 <= route_cost p)%Q.
Proof.
  split; [exact fast_site_goal |]. split; [exact fast_site_unique |].
  split; [exact fast_site_nonneg |]. split; [exact fast_site_admissible |].
  split; [exact findPath_fast_site |].
  exact (findPath_optimal_if_admissible Qsqrt_exact Qpow_integer 10 "S" "G" nodes
           fast_edges (node "G" 60 0) _ fast_site_goal fast_site_unique
           fast_site_nonneg fast_site_admissible findPath_fast_site).
Defined.
End Examples.

(** ** Loads through a whole run *)

Section RunProperties.
Context {num : Type} `{JSNumber num}.

(** X2: after [clearSimulation], spawning and ticking keep the identifiers
    of the edges unique and the load of every edge equal to the number of
    trucks that are moving on it. *)
Theorem loads_throughout_run (s : Engine.t num) :
  run s ->
  unique_ids (Engine.edges s) /\
  forall e, In e (Engine.edges s) ->
    Edge.currentLoad e = count_trucks (occupies (Edge.id e)) (Engine.trucks s).
Proof.
  induction 1 as [s Hu | fuel rand a b s s' w _ [Hu Hm] Hs | fuel noise s s' _ [Hu Hm] Ht].
  - now apply clearSimulation_loads.
  - now apply (spawnTruck_keeps_loads fuel rand a b s s' w).
  - now apply (tick_keeps_loads fuel noise s s').
Qed.
End RunProperties.

(** ** Routes: what the planner returns and where trucks are sent *)

Section PlannerRoutes.
Variables (sqrt : Q -> Q) (pow : Q -> Q -> Q).
#[local] Existing Instance exact_numbers.

Lemma search_route nodes endNode a b (edges : list (Edge.t Q)) :
  nonneg_weights edges -> unique_ids edges ->
  forall fuel (s : Search) r,
    between_turns sqrt pow nodes endNode a edges s ->
    search (H := exact_numbers sqrt pow) fuel nodes endNode b edges s = Some (Some r) ->
    exists q, route edges a b q /\
      PathResult.path r = map Edge.id q /\
      (PathResult.eta r == route_cost (H := exact_numbers sqrt pow) q)%Q.
Proof.
  intros Hw Hu.
  induction fuel as [|fuel IH]; intros s r Hbt Hr; simpl in Hr; [discriminate |].
  destruct (openSet s) as [|o os] eqn:Ho; [discriminate |].
  assert (Hne : openSet s <> []) by (rewrite Ho; discriminate).
  destruct (String.eqb_spec (lowest (H := exact_numbers sqrt pow) s) b) as [Hlow | Hlow].
  - destruct (reconstructPath _ _ _ _ _ _) as [r'|] eqn:Hrec; [|discriminate].
    injection Hr as <-.
    destruct Hbt as [Hinv Hstart].
    destruct (lowest_least sqrt pow s Hne) as [Hin _].
    { intros v Hv. apply (inv_scored _ _ _ _ _ _ _ _ Hinv v Hv). }
    destruct (inv_scored _ _ _ _ _ _ _ _ Hinv _ Hin) as [_ (gb & Hgb)].
    destruct (reconstructPath_route sqrt pow nodes endNode a edges _ s Hinv Hu
                _ _ _ _ _ gb Hrec Hgb) as (q & Hq1 & Hq2 & Hq3 & Hq4).
    rewrite Hlow in *. exists q. rewrite app_nil_r in Hq2.
    split; [exact Hq1 |]. split; [exact Hq2 |].
    change (zero (num := Q)) with 0%Q in Hq3. lra.
  - refine (IH _ r _ Hr). rewrite <- Ho. now apply turn_keeps_invariant.
Qed.

Lemma findPath_route fuel a b nodes (edges : list (Edge.t Q)) r :
  unique_ids edges ->
  nonneg_weights edges ->
  findPath (H := exact_numbers sqrt pow) fuel a b nodes edges = Some (Some r) ->
  exists q, route edges a b q /\
    PathResult.path r = map Edge.id q /\
    (PathResult.eta r == route_cost (H := exact_numbers sqrt pow) q)%Q.
Proof.
  intros Hu Hw. unfold findPath.
  destruct (nodes !! a) as [startNode|]; [|discriminate].
  destruct (nodes !! b) as [endNode|]; [|discriminate].
  intros Hr.
  refine (search_route nodes endNode a b edges Hw Hu fuel _ r _ Hr).
  apply initial_between_turns.
Qed.

(** X3: whatever the heuristic, with unique identifiers and weights that
    are not negative, the path [findPath] returns is a route, a chain of
    edges that are not closed, each starting where the previous one ends,
    from the start node to the goal, and [eta] is its cost. *)
Theorem findPath_returns_route fuel a b nodes (edges : list (Edge.t Q)) r :
  unique_ids edges ->
  nonneg_weights edges ->
  findPath (H := exact_numbers sqrt pow) fuel a b nodes edges = Some (Some r) ->
  exists q, route edges a b q /\
    PathResult.path r = map Edge.id q /\
    (PathResult.eta r == route_cost (H := exact_numbers sqrt pow) q)%Q.
Proof.
  intros Hu Hw. unfold findPath.
  destruct (nodes !! a) as [startNode|]; [|discriminate].
  destruct (nodes !! b) as [endNode|]; [|discriminate].
  intros Hr.
  refine (search_route nodes endNode a b edges Hw Hu fuel _ r _ Hr).
  apply initial_between_turns.
Qed.
End PlannerRoutes.

(** ** The planner in any arithmetic: giving up, and the least walk *)

Section PlannerReach.
Context {num : Type} `{JSNumber num}.

Lemma relax_explores nodes endNode c (edges : list (Edge.t num)) (s : Search) e :
  finite_sums edges -> In e edges -> Edge.isClosed e = false ->
  (forall v g, gScore s !! v = Some g -> lt_infinity g = true) ->
  (forall v g, gScore (relax nodes endNode c s e) !! v = Some g -> lt_infinity g = true) /\
  (forall v, is_Some (gScore s !! v) -> is_Some (gScore (relax nodes endNode c s e) !! v)) /\
  (forall v, In v (openSet s) -> In v (openSet (relax nodes endNode c s e))) /\
  (forall v, is_Some (gScore (relax nodes endNode c s e) !! v) ->
             is_Some (gScore s !! v) \/ In v (openSet (relax nodes endNode c s e))) /\
  (is_Some (gScore s !! c) ->
   is_Some (gScore (relax nodes endNode c s e) !! Edge.targetId e)).
Proof.
  intros [_ Hsum] Hin Hopen Hfin. unfold relax.
  destruct (gScore s !! c) as [g|] eqn:Hg.
  - pose proof (Hsum g e (Hfin c g Hg) Hin Hopen) as Ht.
    destruct (lt_or_infinity _ (gScore s !! Edge.targetId e)) eqn:Hlt; simpl.
    + split; [|split; [|split; [|split]]].
      * intros v g' Hv. destruct (decide (Edge.targetId e = v)) as [<- | Hne].
        -- rewrite lookup_insert_eq in Hv. now injection Hv as <-.
        -- rewrite lookup_insert_ne in Hv by assumption. eauto.
      * intros v Hv. destruct (decide (Edge.targetId e = v)) as [<- | Hne].
        -- rewrite lookup_insert_eq. eauto.
        -- now rewrite lookup_insert_ne.
      * intros v Hv. apply set_add_In. now right.
      * intros v Hv. destruct (decide (Edge.targetId e = v)) as [<- | Hne].
        -- right. apply set_add_In. now left.
        -- rewrite lookup_insert_ne in Hv by assumption. now left.
      * intros _. rewrite lookup_insert_eq. eauto.
    + split; [exact Hfin |]. split; [auto |]. split; [auto |]. split; [auto |].
      intros _. destruct (gScore s !! Edge.targetId e) as [gt|]; [eauto |].
      simpl in Hlt. congruence.
  - simpl. split; [exact Hfin |]. split; [auto |]. split; [auto |]. split; [auto |].
    intros [x Hx]. discriminate.
Qed.

Lemma relax_all_explores nodes endNode c (edges : list (Edge.t num)) (l : list (Edge.t num)) :
  finite_sums edges ->
  (forall e, In e l -> In e edges /\ Edge.isClosed e = false) ->
  forall s : Search,
  (forall v g, gScore s !! v = Some g -> lt_infinity g = true) ->
  (forall v g, gScore (fold_left (relax nodes endNode c) l s) !! v = Some g ->
               lt_infinity g = true) /\
  (forall v, is_Some (gScore s !! v) ->
             is_Some (gScore (fold_left (relax nodes endNode c) l s) !! v)) /\
  (forall v, In v (openSet s) -> In v (openSet (fold_left (relax nodes endNode c) l s))) /\
  (forall v, is_Some (gScore (fold_left (relax nodes endNode c) l s) !! v) ->
             is_Some (gScore s !! v) \/
             In v (openSet (fold_left (relax nodes endNode c) l s))) /\
  (is_Some (gScore s !! c) ->
   forall e, In e l ->
     is_Some (gScore (fold_left (relax nodes endNode c) l s) !! Edge.targetId e)).
Proof.
  intros Hsum. induction l as [|e0 l IH]; intros Hall s Hfin; simpl.
  - split; [exact Hfin |]. split; [auto |]. split; [auto |]. split; [auto |].
    intros _ e [].
  - destruct (Hall e0 (or_introl eq_refl)) as [Hin0 Hopen0].
    destruct (relax_explores nodes endNode c edges s e0 Hsum Hin0 Hopen0 Hfin)
      as (A0 & A1 & A2 & A3 & A4).
    destruct (IH (fun e He => Hall e (or_intror He)) (relax nodes endNode c s e0) A0)
      as (B0 & B1 & B2 & B3 & B4).
    split; [exact B0 |]. split; [auto |]. split; [auto |]. split.
    + intros v Hv. destruct (B3 v Hv) as [Hs | Ho]; [|now right].
      destruct (A3 v Hs) as [Hs' | Ho]; [now left | right; auto].
    + intros Hc e [<- | He]; [auto |]. apply B4; auto.
Qed.

Lemma turn_explores nodes endNode b (edges : list (Edge.t num)) (s : Search) c :
  finite_sums edges ->
  c <> b ->
  surveyed edges b s ->
  surveyed edges b
    (fold_left (relax nodes endNode c) (neighbors c edges)
       (mkSearch (set_delete c (openSet s)) (cameFrom s) (gScore s) (fScore s))).
Proof.
  intros Hsum Hcb (Hfin & HA & HB).
  destruct (relax_all_explores nodes endNode c edges (neighbors c edges) Hsum)
    with (s := mkSearch (set_delete c (openSet s)) (cameFrom s) (gScore s) (fScore s))
    as (R0 & R1 & R2 & R3 & R4).
  { intros e He. apply neighbors_spec in He. tauto. }
  { exact Hfin. }
  simpl in R1, R2, R3, R4. split; [exact R0 |]. split.
  - intros g Hg. destruct (R3 b) as [[g0 Hs] | Ho]; [eauto | | exact Ho].
    apply R2. apply set_delete_In. split; [eauto | congruence].
  - intros e Hin Hopen Hsrc Hnot.
    assert (Hs : is_Some (gScore s !! Edge.sourceId e)).
    { destruct (R3 _ Hsrc) as [Hs | Ho]; [exact Hs | contradiction]. }
    destruct (decide (Edge.sourceId e = c)) as [Heq | Hneq].
    + apply R4; [now rewrite <- Heq |]. apply neighbors_spec. auto.
    + apply R1. apply (HB e Hin Hopen Hs).
      intros Hi. apply Hnot. apply R2. apply set_delete_In. auto.
Qed.

Lemma route_scored (edges : list (Edge.t num)) (s : @Search num) :
  (forall e, In e edges -> Edge.isClosed e = false ->
     is_Some (gScore s !! Edge.sourceId e) -> is_Some (gScore s !! Edge.targetId e)) ->
  forall u v p, route edges u v p ->
    is_Some (gScore s !! u) -> is_Some (gScore s !! v).
Proof.
  intros Hclosed u v p Hp.
  induction Hp as [u | e v rest Hin Hopen _ IH]; intros Hs; [exact Hs |].
  apply IH. now apply Hclosed.
Qed.

Lemma search_exhausts nodes endNode a b (edges : list (Edge.t num)) :
  finite_sums edges ->
  forall fuel (s : Search),
    surveyed edges b s ->
    is_Some (gScore s !! a) ->
    search fuel nodes endNode b edges s = Some None ->
    forall p, ~ route edges a b p.
Proof.
  intros Hsum.
  induction fuel as [|fuel IH]; intros s Hex Ha Hr; simpl in Hr; [discriminate |].
  destruct (openSet s) as [|o os] eqn:Ho.
  - destruct Hex as (Hfin & HA & HB). intros p Hp.
    assert (Hclosed : forall e, In e edges -> Edge.isClosed e = false ->
              is_Some (gScore s !! Edge.sourceId e) ->
              is_Some (gScore s !! Edge.targetId e)).
    { intros e Hin Hopen Hs. apply (HB e Hin Hopen Hs). rewrite Ho. intros []. }
    destruct (route_scored edges s Hclosed a b p Hp Ha) as [g Hg].
    specialize (HA g Hg). rewrite Ho in HA. destruct HA.
  - destruct (String.eqb_spec (lowest s) b) as [Hlow | Hlow].
    + destruct (reconstructPath _ _ _ _ _ _); discriminate.
    + refine (IH _ _ _ Hr).
      * rewrite <- Ho. now apply turn_explores.
      * destruct (relax_all_explores nodes endNode (lowest s) edges
                    (neighbors (lowest s) edges) Hsum)
          with (s := mkSearch (set_delete (lowest s) (openSet s)) (cameFrom s)
                       (gScore s) (fScore s)) as (_ & R1 & _).
        { intros e He. apply neighbors_spec in He. tauto. }
        { apply Hex. }
        rewrite Ho in R1. apply R1. exact Ha.
Qed.

(** X4: [findPath] gives up only when there is nothing to find.  For any
    arithmetic in which scores stay below [Infinity] (zero is, and the sum
    of a score that is and the weight of an open edge is: no weight is [NaN]
    or [Infinity] and no sum overflows), if the start node and the goal are
    known and [findPath] returns [null], no chain of open edges leads from
    the start node to the goal. *)
Theorem findPath_null_means_unreachable fuel a b nodes (edges : list (Edge.t num)) :
  finite_sums edges ->
  nodes !! a <> None -> nodes !! b <> None ->
  findPath fuel a b nodes edges = Some None ->
  forall p, ~ route edges a b p.
Proof.
  intros Hsum Ha Hb. unfold findPath.
  destruct (nodes !! a) as [startNode|]; [|contradiction].
  destruct (nodes !! b) as [endNode|]; [|contradiction].
  apply search_exhausts; [exact Hsum | |].
  - split; [|split]; simpl.
    + intros v g Hg. destruct (decide (a = v)) as [Heq | Hne].
      * subst v. rewrite lookup_insert_eq in Hg. injection Hg as <-. apply Hsum.
      * rewrite lookup_insert_ne in Hg by exact Hne. rewrite lookup_empty in Hg.
        discriminate.
    + intros g Hg. destruct (decide (a = b)) as [Heq | Hne]; [now left |].
      rewrite lookup_insert_ne in Hg by exact Hne. rewrite lookup_empty in Hg.
      discriminate.
    + intros e _ _ Hs Hnot. exfalso.
      destruct (decide (a = Edge.sourceId e)) as [Heq | Hne]; [apply Hnot; now left |].
      rewrite lookup_insert_ne in Hs by exact Hne. rewrite lookup_empty in Hs.
      now destruct Hs.
  - simpl. rewrite lookup_insert_eq. eauto.
Qed.
End PlannerReach.

Section RoundedPlanner.
Context {num : Type} `{JSNumber num}.
Variables (ok : num -> Prop) (nodes : gmap string (Node.t num)) (endNode : Node.t num)
          (a b : string) (edges : list (Edge.t num)).
Hypothesis Htame : tame ok.
Hypothesis Hsteady : steady ok edges.
Hypothesis Hcautious : cautious ok nodes endNode b edges.

Lemma r_pick_scored (fs : gmap string num) c fm x fx :
  fs !! x = Some fx ->
  pick fs (c, Some fm) x = if ltb fx fm then (x, Some fx) else (c, Some fm).
Proof. intros Hfx. unfold pick. now rewrite Hfx. Qed.

Lemma r_pick_first (fs : gmap string num) c x fx :
  fs !! x = Some fx -> ok fx -> pick fs (c, None) x = (x, Some fx).
Proof.
  intros Hfx Hok. unfold pick. rewrite Hfx. simpl.
  now rewrite (tame_finite ok Htame fx Hok).
Qed.

Lemma r_pick_least (fs : gmap string num) (l : list string) :
  forall c fm,
    (forall v, In v l -> exists f, fs !! v = Some f /\ ok f) ->
    fs !! c = Some fm -> ok fm ->
    exists fr,
      fs !! fst (fold_left (pick fs) l (c, Some fm)) = Some fr /\ ok fr /\
      (fst (fold_left (pick fs) l (c, Some fm)) = c \/
       In (fst (fold_left (pick fs) l (c, Some fm))) l) /\
      (forall v fv, In v l -> fs !! v = Some fv -> not_above fr fv) /\
      not_above fr fm.
Proof.
  induction l as [|x l IH]; intros c fm Hall Hc Hokm.
  - exists fm. simpl. split; [exact Hc |]. split; [exact Hokm |]. split; [now left |].
    split; [intros v fv [] |]. now apply (tame_refl ok Htame).
  - destruct (Hall x (or_introl eq_refl)) as (fx & Hfx & Hokx).
    assert (Hall' : forall v, In v l -> exists f, fs !! v = Some f /\ ok f)
      by (intros v Hv; apply Hall; now right).
    assert (Hokv : forall v fv, In v l -> fs !! v = Some fv -> ok fv).
    { intros v fv Hv Hfv. destruct (Hall' v Hv) as (f & Hf & Hokf). congruence. }
    simpl fold_left. rewrite (r_pick_scored fs c fm x fx Hfx).
    destruct (ltb fx fm) eqn:Hlt.
    + destruct (IH x fx Hall' Hfx Hokx) as (fr & Hr1 & Hr2 & Hr3 & Hr4 & Hr5).
      exists fr. split; [exact Hr1 |]. split; [exact Hr2 |]. split; [|split].
      * destruct Hr3 as [-> | Hin]; [right; now left | right; now right].
      * intros v fv [<- | Hv] Hfv.
        -- rewrite Hfx in Hfv. injection Hfv as <-. exact Hr5.
        -- now apply (Hr4 v).
      * apply (tame_trans ok Htame fr fx fm); auto. now apply (tame_lt ok Htame).
    + destruct (IH c fm Hall' Hc Hokm) as (fr & Hr1 & Hr2 & Hr3 & Hr4 & Hr5).
      exists fr. split; [exact Hr1 |]. split; [exact Hr2 |]. split; [|split].
      * destruct Hr3 as [-> | Hin]; [now left | right; now right].
      * intros v fv [<- | Hv] Hfv.
        -- rewrite Hfx in Hfv. injection Hfv as <-.
           apply (tame_trans ok Htame fr fm fx); auto.
        -- now apply (Hr4 v).
      * exact Hr5.
Qed.

Lemma r_lowest_least (s : Search) :
  openSet s <> [] ->
  (forall v, In v (openSet s) -> exists f, fScore s !! v = Some f /\ ok f) ->
  In (lowest s) (openSet s) /\
  exists fl, fScore s !! lowest s = Some fl /\
    forall v fv, In v (openSet s) -> fScore s !! v = Some fv -> not_above fl fv.
Proof.
  intros Hne Hall. unfold lowest.
  destruct (openSet s) as [|x l] eqn:Ho; [congruence |].
  destruct (Hall x (or_introl eq_refl)) as (fx & Hfx & Hokx).
  assert (Hall' : forall v, In v l -> exists f, fScore s !! v = Some f /\ ok f)
    by (intros v Hv; apply Hall; now right).
  simpl fold_left. rewrite (r_pick_first (fScore s) "" x fx Hfx Hokx).
  destruct (r_pick_least (fScore s) l x fx Hall' Hfx Hokx)
    as (fr & Hr1 & Hr2 & Hr3 & Hr4 & Hr5).
  split.
  - destruct Hr3 as [-> | Hin]; [now left | now right].
  - exists fr. split; [exact Hr1 |].
    intros v fv [<- | Hv] Hfv.
    + rewrite Hfx in Hfv. injection Hfv as <-. exact Hr5.
    + now apply (Hr4 v).
Qed.

Lemma r_relax_within current done (s : Search) e0 :
  r_within_turn ok nodes endNode a edges current done s ->
  In e0 edges -> Edge.isClosed e0 = false -> Edge.sourceId e0 = current ->
  r_within_turn ok nodes endNode a edges current (e0 :: done)
    (relax nodes endNode current s e0).
Proof.
  intros (Hinv & Ha & Hcur & gc & Hgc) Hin0 Hopen0 Hsrc0.
  unfold relax. rewrite Hgc.
  destruct (r_ok _ _ _ _ _ _ _ Hinv current gc Hgc) as [Hokc Hzc].
  set (t := add gc (Edge.currentWeight e0)).
  assert (Hokt : ok t) by now apply (steady_ok ok edges Hsteady).
  assert (Hct : not_above gc t) by now apply (steady_up ok edges Hsteady).
  assert (Hzt : not_above zero t).
  { apply (tame_trans ok Htame zero gc t); auto. apply (tame_zero ok Htame). }
  destruct (lt_or_infinity t (gScore s !! Edge.targetId e0)) eqn:Hlt.
  - (* the neighbour is improved *)
    assert (Hta : Edge.targetId e0 <> a).
    { intros Heq. rewrite Heq, (r_start _ _ _ _ _ _ _ Hinv) in Hlt. simpl in Hlt.
      unfold not_above in Hzt. congruence. }
    assert (Htc : Edge.targetId e0 <> current).
    { intros Heq. rewrite Heq, Hgc in Hlt. simpl in Hlt. unfold not_above in Hct.
      congruence. }
    assert (Hold : forall g, gScore s !! Edge.targetId e0 = Some g -> not_above t g).
    { intros g Hg. rewrite Hg in Hlt. simpl in Hlt.
      apply (tame_lt ok Htame); auto. apply (r_ok _ _ _ _ _ _ _ Hinv _ g Hg). }
    split; [|split; [|split]].
    + constructor; simpl.
      * rewrite lookup_insert_ne by congruence. apply Hinv.
      * intros v g Hv. destruct (decide (Edge.targetId e0 = v)) as [<- | Hne].
        -- rewrite lookup_insert_eq in Hv. injection Hv as <-. auto.
        -- rewrite lookup_insert_ne in Hv by assumption.
           exact (r_ok _ _ _ _ _ _ _ Hinv v g Hv).
      * intros v Hv. destruct (decide (Edge.targetId e0 = v)) as [<- | Hne].
        -- rewrite !lookup_insert_eq. split; [|eauto].
           eexists. split; [reflexivity |].
           apply (Hcautious e0 t Hin0 Hopen0 Hokt).
        -- rewrite !lookup_insert_ne by assumption.
           apply set_add_In in Hv as [-> | Hv]; [congruence |].
           exact (r_scored _ _ _ _ _ _ _ Hinv v Hv).
      * intros v Hv Hva. destruct (decide (Edge.targetId e0 = v)) as [<- | Hne].
        -- exists e0, t. rewrite !lookup_insert_eq. auto 10.
        -- apply set_add_In in Hv as [-> | Hv]; [congruence |].
           destruct (r_open _ _ _ _ _ _ _ Hinv v Hv Hva)
             as (e & g & He1 & He2 & He3 & He4 & He5).
           exists e, g. rewrite !lookup_insert_ne by assumption. auto 10.
      * intros e Hin Hopen Hrel Hnot gu Hgu.
        assert (Hsrc_t : Edge.sourceId e <> Edge.targetId e0).
        { intros Heq. apply Hnot. apply set_add_In. now left. }
        assert (Hnot' : ~ In (Edge.sourceId e) (openSet s)).
        { intros Hi. apply Hnot. apply set_add_In. now right. }
        rewrite lookup_insert_ne in Hgu by congruence.
        assert (Hcase : e0 = e \/ (Edge.sourceId e <> current \/ In e done)).
        { destruct Hrel as [Hr | [Hr | Hr]]; auto. }
        destruct Hcase as [<- | Hrel'].
        -- exists t. rewrite lookup_insert_eq.
           split; [reflexivity |]. rewrite Hsrc0, Hgc in Hgu. injection Hgu as <-.
           now apply (tame_refl ok Htame).
        -- destruct (r_relaxed _ _ _ _ _ _ _ Hinv e Hin Hopen Hrel' Hnot' gu Hgu)
             as (gv & Hgv & Hle).
           destruct (decide (Edge.targetId e0 = Edge.targetId e)) as [Heq | Hne].
           ++ exists t. rewrite Heq, lookup_insert_eq.
              split; [reflexivity |]. rewrite <- Heq in Hgv.
              destruct (r_ok _ _ _ _ _ _ _ Hinv _ gu Hgu) as [Hoku _].
              destruct (r_ok _ _ _ _ _ _ _ Hinv _ gv Hgv) as [Hokv _].
              apply (tame_trans ok Htame t gv _); auto.
              now apply (steady_ok ok edges Hsteady).
           ++ exists gv. rewrite lookup_insert_ne by assumption. auto.
      * intros v i u Hv. destruct (decide (Edge.targetId e0 = v)) as [<- | Hne].
        -- rewrite lookup_insert_eq in Hv. injection Hv as <- <-.
           split; [assumption |].
           exists e0, gc, t.
           rewrite lookup_insert_eq, lookup_insert_ne by assumption.
           repeat split; auto. now apply (tame_refl ok Htame).
        -- rewrite lookup_insert_ne in Hv by assumption.
           destruct (r_links _ _ _ _ _ _ _ Hinv v i u Hv)
             as (Hva & e & gu & gv & He1 & He2 & He3 & He4 & He5 & He6 & He7 & He8).
           split; [assumption |].
           destruct (r_ok _ _ _ _ _ _ _ Hinv _ gu He6) as [Hoku _].
           destruct (r_ok _ _ _ _ _ _ _ Hinv _ gv He7) as [Hokv _].
           destruct (decide (Edge.targetId e0 = u)) as [Heq | Hneu].
           ++ exists e, t, gv.
              rewrite Heq, lookup_insert_eq, lookup_insert_ne by congruence.
              repeat split; auto. rewrite <- Heq in He6.
              apply (tame_trans ok Htame _ (add gu (Edge.currentWeight e)) gv); auto.
              ** now apply (steady_ok ok edges Hsteady).
              ** now apply (steady_ok ok edges Hsteady).
              ** apply (steady_mono ok edges Hsteady); auto.
           ++ exists e, gu, gv. rewrite !lookup_insert_ne by assumption.
              repeat split; auto.
      * intros v g Hv Hva. destruct (decide (Edge.targetId e0 = v)) as [<- | Hne].
        -- rewrite lookup_insert_eq. eauto.
        -- rewrite lookup_insert_ne in Hv by assumption.
           rewrite lookup_insert_ne by assumption.
           exact (r_reached _ _ _ _ _ _ _ Hinv v g Hv Hva).
    + simpl. intros Hi. apply set_add_In in Hi as [Hi | Hi]; [congruence | auto].
    + simpl. intros Hi. apply set_add_In in Hi as [Hi | Hi]; [congruence | auto].
    + simpl. exists gc. now rewrite lookup_insert_ne.
  - (* nothing changes *)
    split; [|split; [|split]]; auto; [|eauto].
    constructor; try apply Hinv.
    intros e Hin Hopen Hrel Hnot gu Hgu.
    assert (Hcase : e0 = e \/ (Edge.sourceId e <> current \/ In e done)).
    { destruct Hrel as [Hr | [Hr | Hr]]; auto. }
    destruct Hcase as [<- | Hrel'].
    + destruct (gScore s !! Edge.targetId e0) as [gv|] eqn:Hgv.
      * exists gv. split; [reflexivity |]. rewrite Hsrc0, Hgc in Hgu.
        injection Hgu as <-. exact Hlt.
      * simpl in Hlt. rewrite (tame_finite ok Htame t Hokt) in Hlt. discriminate.
    + exact (r_relaxed _ _ _ _ _ _ _ Hinv e Hin Hopen Hrel' Hnot gu Hgu).
Qed.

Lemma r_relax_all_within current (todo : list (Edge.t num)) :
  forall done (s : Search),
    r_within_turn ok nodes endNode a edges current done s ->
    (forall e, In e todo ->
       In e edges /\ Edge.sourceId e = current /\ Edge.isClosed e = false) ->
    r_within_turn ok nodes endNode a edges current (rev todo ++ done)
      (fold_left (relax nodes endNode current) todo s).
Proof.
  induction todo as [|e0 todo IH]; intros done s Hin Hall; simpl; [exact Hin |].
  destruct (Hall e0 (or_introl eq_refl)) as (He1 & He2 & He3).
  rewrite <- app_assoc. simpl. apply IH.
  - now apply r_relax_within.
  - intros e He. apply Hall. now right.
Qed.

Lemma r_turn_keeps_invariant (s : Search) :
  r_between_turns ok nodes endNode a edges s ->
  openSet s <> [] ->
  r_between_turns ok nodes endNode a edges
    (fold_left (relax nodes endNode (lowest s)) (neighbors (lowest s) edges)
       (mkSearch (set_delete (lowest s) (openSet s)) (cameFrom s) (gScore s) (fScore s))).
Proof.
  intros [Hinv Hstart] Hne.
  destruct (r_lowest_least s Hne) as [Hlow _].
  { intros v Hv. apply (r_scored _ _ _ _ _ _ _ Hinv v Hv). }
  set (current := lowest s) in *.
  set (s1 := mkSearch (set_delete current (openSet s)) (cameFrom s) (gScore s) (fScore s)).
  assert (H1 : r_within_turn ok nodes endNode a edges current [] s1).
  { split; [|split; [|split]].
    - constructor; simpl; try apply Hinv.
      + intros v Hv. apply set_delete_In in Hv as [Hv _].
        exact (r_scored _ _ _ _ _ _ _ Hinv v Hv).
      + intros v Hv Hva. apply set_delete_In in Hv as [Hv _].
        exact (r_open _ _ _ _ _ _ _ Hinv v Hv Hva).
      + intros e Hin Hopen [Hsrc | []] Hnot gu Hgu.
        apply (r_relaxed _ _ _ _ _ _ _ Hinv e Hin Hopen I); [|exact Hgu].
        intros Hi. apply Hnot. apply set_delete_In. auto.
    - simpl. intros Hi. apply set_delete_In in Hi as [Hi Hne'].
      specialize (Hstart Hi). rewrite Hstart in Hlow.
      destruct Hlow as [Heq | []]. congruence.
    - simpl. intros Hi. apply set_delete_In in Hi as [_ Hne']. congruence.
    - simpl. apply (r_scored _ _ _ _ _ _ _ Hinv current Hlow). }
  pose proof (r_relax_all_within current (neighbors current edges) [] s1 H1) as H2.
  destruct H2 as (Hinv2 & Ha2 & Hc2 & Hg2).
  { intros e He. apply neighbors_spec in He. tauto. }
  split; [|intros Hi; contradiction].
  constructor; try apply Hinv2.
  intros e Hin Hopen _ Hnot gu Hgu.
  apply (r_relaxed _ _ _ _ _ _ _ Hinv2 e Hin Hopen); [|exact Hnot | exact Hgu].
  destruct (decide (Edge.sourceId e = current)) as [Heq | Hneq]; [|now left].
  right. apply in_or_app. left. apply in_rev. rewrite rev_involutive.
  apply neighbors_spec. auto.
Qed.

(** Walking a route from a score: the result is a number of the search, not
    below the score, and the higher the score the higher the result. *)
Lemma walk_cost_spec u v p :
  route edges u v p ->
  (forall g, ok g -> ok (walk_cost g p) /\ not_above g (walk_cost g p)) /\
  (forall g g', ok g -> ok g' -> not_above g g' ->
     not_above (walk_cost g p) (walk_cost g' p)).
Proof.
  induction 1 as [u | e v rest Hin Hopen _ [IH1 IH2]].
  - split; [|auto]. intros g Hg. split; [exact Hg | now apply (tame_refl ok Htame)].
  - split.
    + intros g Hg. simpl.
      pose proof (steady_ok ok edges Hsteady g e Hg Hin Hopen) as Hok1.
      destruct (IH1 _ Hok1) as [Hok2 Hle]. split; [exact Hok2 |].
      apply (tame_trans ok Htame g (add g (Edge.currentWeight e)) _); auto.
      now apply (steady_up ok edges Hsteady).
    + intros g g' Hg Hg' Hle. simpl. apply IH2.
      * now apply (steady_ok ok edges Hsteady).
      * now apply (steady_ok ok edges Hsteady).
      * now apply (steady_mono ok edges Hsteady).
Qed.

Lemma r_first_open_node (s : Search) z :
  rounded_inv ok nodes endNode a edges (fun _ => True) s ->
  In z (openSet s) ->
  forall u p, route edges u z p ->
    forall gu, gScore s !! u = Some gu ->
      exists m p2 gm, In m (openSet s) /\ route edges m z p2 /\
        gScore s !! m = Some gm /\
        not_above (walk_cost gm p2) (walk_cost gu p).
Proof.
  intros Hinv Hb u p Hroute. revert Hb.
  induction Hroute as [u | e z rest Hin Hopen Hrest IH]; intros Hb gu Hgu.
  - exists u, [], gu. repeat split; auto; [constructor |].
    apply (tame_refl ok Htame). apply (r_ok _ _ _ _ _ _ _ Hinv u gu Hgu).
  - destruct (r_ok _ _ _ _ _ _ _ Hinv _ gu Hgu) as [Hoku _].
    destruct (in_dec String.string_dec (Edge.sourceId e) (openSet s)) as [Hi | Hni].
    + exists (Edge.sourceId e), (e :: rest), gu.
      repeat split; auto; [now constructor |].
      assert (Hr : route edges (Edge.sourceId e) z (e :: rest)) by now constructor.
      destruct (walk_cost_spec _ _ _ Hr) as [W _].
      apply (tame_refl ok Htame). now apply W.
    + destruct (r_relaxed _ _ _ _ _ _ _ Hinv e Hin Hopen I Hni gu Hgu)
        as (gv & Hgv & Hle).
      destruct (IH Hb gv Hgv) as (m & p2 & gm & Hm1 & Hm2 & Hm3 & Hm4).
      exists m, p2, gm. repeat split; auto.
      destruct (r_ok _ _ _ _ _ _ _ Hinv _ gv Hgv) as [Hokv _].
      destruct (r_ok _ _ _ _ _ _ _ Hinv _ gm Hm3) as [Hokm _].
      pose proof (steady_ok ok edges Hsteady gu e Hoku Hin Hopen) as Hok1.
      destruct (walk_cost_spec _ _ _ Hrest) as [W1 W2].
      destruct (walk_cost_spec _ _ _ Hm2) as [V1 _].
      simpl.
      apply (tame_trans ok Htame _ (walk_cost gv rest) _); auto.
      * now apply V1.
      * now apply W1.
      * now apply W1.
Qed.

Lemma r_route_snoc z u q (e : Edge.t num) :
  route edges z u q -> In e edges -> Edge.isClosed e = false -> Edge.sourceId e = u ->
  route edges z (Edge.targetId e) (q ++ [e]).
Proof.
  intros Hroute Hin Hopen Hsrc. induction Hroute as [z | e' u rest Hin' Hopen' _ IH].
  - simpl. subst z. constructor; auto. constructor.
  - simpl. constructor; auto.
Qed.

(** Walking [cameFrom] back from a scored node gives a route from the start
    node that costs, walked from the start, at most the node's score. *)
Lemma r_reconstructPath_route relaxed (s : Search) :
  rounded_inv ok nodes endNode a edges relaxed s ->
  forall fuel curr p0 (t0 : num) r gc,
    reconstructPath fuel (cameFrom s) curr edges p0 t0 = Some r ->
    gScore s !! curr = Some gc ->
    exists q, route edges a curr q /\
      PathResult.path r = map Edge.id q ++ p0 /\
      not_above (walk_cost zero q) gc.
Proof.
  intros Hinv.
  assert (Hstop : forall curr (p0 : list string) (gc : num),
             cameFrom s !! curr = None -> gScore s !! curr = Some gc ->
             exists q, route edges a curr q /\
               p0 = map Edge.id q ++ p0 /\
               not_above (walk_cost zero q) gc).
  { intros curr p0 gc Hnone Hgc.
    destruct (decide (curr = a)) as [-> | Hne].
    - exists []. repeat split; [constructor |].
      apply (r_ok _ _ _ _ _ _ _ Hinv a gc Hgc).
    - destruct (r_reached _ _ _ _ _ _ _ Hinv curr gc Hgc Hne) as (l & Hl). congruence. }
  induction fuel as [|fuel IH]; intros curr p0 t0 r gc Hr Hgc; simpl in Hr.
  - destruct (cameFrom s !! curr) as [[i u]|] eqn:Hc; [discriminate |].
    injection Hr as <-. simpl. now apply Hstop.
  - destruct (cameFrom s !! curr) as [[i u]|] eqn:Hc.
    + destruct (r_links _ _ _ _ _ _ _ Hinv curr i u Hc)
        as (_ & e & gu & gv & He1 & He2 & He3 & He4 & He5 & He6 & He7 & He8).
      rewrite Hgc in He7. injection He7 as <-.
      destruct (IH u _ _ r gu Hr He6) as (q & Hq1 & Hq2 & Hq3).
      exists (q ++ [e]). split; [|split].
      * rewrite <- He5. now apply (r_route_snoc a u q e).
      * rewrite Hq2, map_app, <- app_assoc. simpl. now rewrite He2.
      * unfold walk_cost. rewrite fold_left_app. simpl.
        fold (walk_cost zero q).
        destruct (r_ok _ _ _ _ _ _ _ Hinv _ gu He6) as [Hoku _].
        destruct (r_ok _ _ _ _ _ _ _ Hinv _ gc Hgc) as [Hokc _].
        destruct (walk_cost_spec _ _ _ Hq1) as [W1 _].
        destruct (W1 zero (tame_zero ok Htame)) as [Hokw _].
        apply (tame_trans ok Htame _ (add gu (Edge.currentWeight e)) gc); auto.
        -- now apply (steady_ok ok edges Hsteady).
        -- now apply (steady_ok ok edges Hsteady).
        -- now apply (steady_mono ok edges Hsteady).
    + injection Hr as <-. simpl. now apply Hstop.
Qed.

Lemma r_goal_score_least (s : Search) gb :
  r_between_turns ok nodes endNode a edges s ->
  openSet s <> [] ->
  lowest s = b ->
  gScore s !! b = Some gb ->
  forall p, route edges a b p -> not_above gb (walk_cost zero p).
Proof.
  intros [Hinv Hstart] Hne Hlow Hgb p Hp.
  destruct (r_lowest_least s Hne) as [Hin (fl & Hfl & Hleast)].
  { intros v Hv. apply (r_scored _ _ _ _ _ _ _ Hinv v Hv). }
  rewrite Hlow in Hin, Hfl.
  pose proof (r_start _ _ _ _ _ _ _ Hinv) as Hg0.
  pose proof (tame_zero ok Htame) as Hok0.
  destruct (walk_cost_spec _ _ _ Hp) as [W1 _].
  destruct (W1 zero Hok0) as [Hokp Hzp].
  destruct (decide (b = a)) as [Hba | Hba].
  - rewrite Hba, Hg0 in Hgb. injection Hgb as <-. exact Hzp.
  - assert (Ha : ~ In a (openSet s)).
    { intros Hi. rewrite (Hstart Hi) in Hin. destruct Hin as [Heq | []]. congruence. }
    destruct (r_first_open_node s b Hinv Hin a p Hp zero Hg0)
      as (m & p2 & gm & Hm1 & Hm2 & Hm3 & Hm4).
    assert (Hma : m <> a) by congruence.
    destruct (r_open _ _ _ _ _ _ _ Hinv m Hm1 Hma)
      as (em & gm' & E1 & E2 & E3 & E4 & E5).
    rewrite Hm3 in E4. injection E4 as <-.
    destruct (r_open _ _ _ _ _ _ _ Hinv b Hin Hba)
      as (eb & gb' & B1 & B2 & B3 & B4 & B5).
    rewrite Hgb in B4. injection B4 as <-.
    rewrite Hfl in B5. injection B5 as ->.
    specialize (Hleast m _ Hm1 E5).
    destruct (r_ok _ _ _ _ _ _ _ Hinv _ gm Hm3) as [Hokm _].
    destruct (r_ok _ _ _ _ _ _ _ Hinv _ gb Hgb) as [Hokb _].
    destruct (Hcautious em gm E1 E2 Hokm) as (Hokfm & _ & Hem).
    rewrite E3 in Hem. specialize (Hem p2 Hm2).
    destruct (Hcautious eb gb B1 B2 Hokb) as (Hokfb & Heb & _).
    destruct (walk_cost_spec _ _ _ Hm2) as [V1 _].
    destruct (V1 gm Hokm) as [Hokw2 _].
    apply (tame_trans ok Htame gb _ _ Hokb Hokfb Hokp Heb).
    apply (tame_trans ok Htame _ _ _ Hokfb Hokfm Hokp Hleast).
    apply (tame_trans ok Htame _ _ _ Hokfm Hokw2 Hokp Hem Hm4).
Qed.

Lemma r_search_optimal :
  forall fuel (s : Search) r,
    r_between_turns ok nodes endNode a edges s ->
    search fuel nodes endNode b edges s = Some (Some r) ->
    exists q, route edges a b q /\
      PathResult.path r = map Edge.id q /\
      forall p, route edges a b p -> not_above (walk_cost zero q) (walk_cost zero p).
Proof.
  induction fuel as [|fuel IH]; intros s r Hbt Hr; simpl in Hr; [discriminate |].
  destruct (openSet s) as [|o os] eqn:Ho; [discriminate |].
  assert (Hne : openSet s <> []) by (rewrite Ho; discriminate).
  destruct (String.eqb_spec (lowest s) b) as [Hlow | Hlow].
  - destruct (reconstructPath _ _ _ _ _ _) as [r'|] eqn:Hrec; [|discriminate].
    injection Hr as <-.
    destruct Hbt as [Hinv Hstart].
    destruct (r_lowest_least s Hne) as [Hin _].
    { intros v Hv. apply (r_scored _ _ _ _ _ _ _ Hinv v Hv). }
    destruct (r_scored _ _ _ _ _ _ _ Hinv _ Hin) as [_ (gb & Hgb)].
    destruct (r_reconstructPath_route _ s Hinv _ _ _ _ _ gb Hrec Hgb)
      as (q & Hq1 & Hq2 & Hq3).
    rewrite Hlow in *. exists q. rewrite app_nil_r in Hq2.
    split; [exact Hq1 |]. split; [exact Hq2 |].
    intros p Hp.
    pose proof (r_goal_score_least s gb (conj Hinv Hstart) Hne Hlow Hgb p Hp) as Hle.
    pose proof (tame_zero ok Htame) as Hok0.
    destruct (walk_cost_spec _ _ _ Hq1) as [W1 _]. destruct (W1 zero Hok0) as [Hokq _].
    destruct (walk_cost_spec _ _ _ Hp) as [V1 _]. destruct (V1 zero Hok0) as [Hokp _].
    destruct (r_ok _ _ _ _ _ _ _ Hinv _ gb Hgb) as [Hokb _].
    exact (tame_trans ok Htame _ _ _ Hokq Hokb Hokp Hq3 Hle).
  - refine (IH _ r _ Hr). rewrite <- Ho. now apply r_turn_keeps_invariant.
Qed.

Lemma r_initial_between_turns (d : num) :
  ok d ->
  r_between_turns ok nodes endNode a edges
    (mkSearch [a] ∅ (<[a := zero]> ∅) (<[a := d]> ∅)).
Proof.
  intros Hd. split; [|reflexivity]. constructor; simpl.
  - apply lookup_insert_eq.
  - intros v g Hv. destruct (decide (a = v)) as [<- | Hne].
    + rewrite lookup_insert_eq in Hv. injection Hv as <-.
      split; [apply (tame_zero ok Htame) |].
      apply (tame_refl ok Htame), (tame_zero ok Htame).
    + rewrite lookup_insert_ne, lookup_empty in Hv by assumption. discriminate.
  - intros v [<- | []]. rewrite !lookup_insert_eq. eauto.
  - intros v [<- | []] Hne. congruence.
  - intros e Hin Hopen _ Hnot gu Hgu.
    rewrite lookup_insert_ne, lookup_empty in Hgu; [discriminate |].
    intros Heq. apply Hnot. now left.
  - intros v i u Hv. rewrite lookup_empty in Hv. discriminate.
  - intros v g Hv Hne. rewrite lookup_insert_ne, lookup_empty in Hv by congruence.
    discriminate.
Qed.
End RoundedPlanner.

Section RoundedOptimality.
Context {num : Type} `{JSNumber num}.

(** X1: the search is optimal once the heuristic never overestimates, in
    the arithmetic it runs in, rounded or not.  Let [ok] hold of numbers that
    are below [Infinity] and that [<] orders, such that adding the weight of
    an open edge to one of them gives one of them, does not lower it and
    keeps the order, and such that adding the heuristic value of an open
    edge to a score gives a number that is neither below the score nor above
    what walking any route from the target of the edge to the goal adds up
    to.  Then the path [findPath] returns lists the identifiers of a route
    from the start node to the goal, and the weights of that route, added
    from the first edge to the last, give a total that is not above the
    total of any route from the start node to the goal. *)
Theorem findPath_least_walk_if_admissible (ok : num -> Prop) fuel a b nodes
    (edges : list (Edge.t num)) startNode endNode r :
  tame ok ->
  steady ok edges ->
  nodes !! a = Some startNode ->
  nodes !! b = Some endNode ->
  ok (distance (Node.point startNode) (Node.point endNode)) ->
  cautious ok nodes endNode b edges ->
  findPath fuel a b nodes edges = Some (Some r) ->
  exists q, route edges a b q /\
    PathResult.path r = map Edge.id q /\
    forall p, route edges a b p -> not_above (walk_cost zero q) (walk_cost zero p).
Proof.
  intros Htame Hsteady Ha Hb Hd Hcautious. unfold findPath. rewrite Ha, Hb.
  intros Hr.
  refine (r_search_optimal ok nodes endNode a b edges Htame Hsteady Hcautious
            fuel _ r _ Hr).
  now apply r_initial_between_turns.
Qed.
End RoundedOptimality.

(** The exact rationals meet the premises: the numbers of the search are the
    non-negative ones. *)

Section ExactWalks.
Variables (sqrt : Q -> Q) (pow : Q -> Q -> Q).
#[local] Existing Instance exact_numbers.

Lemma exact_tame : tame (H := exact_numbers sqrt pow) (fun x => (0 <= x)%Q).
Proof.
  constructor; unfold not_above; simpl.
  - apply Qle_refl.
  - reflexivity.
  - intros x _. apply Qltb_false. apply Qle_refl.
  - intros x y z _ _ _ Hxy Hyz. apply Qltb_false in Hxy, Hyz. apply Qltb_false. lra.
  - intros x y _ _ Hlt. apply Qltb_true in Hlt. apply Qltb_false. lra.
Qed.

Lemma exact_steady (edges : list (Edge.t Q)) :
  nonneg_weights edges ->
  steady (H := exact_numbers sqrt pow) (fun x => (0 <= x)%Q) edges.
Proof.
  intros Hw. constructor; unfold not_above; simpl.
  - intros g e Hg Hin Hopen. pose proof (Hw e Hin Hopen). lra.
  - intros g e Hg Hin Hopen. pose proof (Hw e Hin Hopen). apply Qltb_false. lra.
  - intros g g' e _ _ _ _ Hle. apply Qltb_false in Hle. apply Qltb_false. lra.
Qed.

Lemma walk_cost_exact (p : list (Edge.t Q)) :
  forall g, (walk_cost (H := exact_numbers sqrt pow) g p
             == g + route_cost (H := exact_numbers sqrt pow) p)%Q.
Proof.
  induction p as [|e p IH]; intros g.
  - simpl. change (zero (num := Q)) with 0%Q. lra.
  - change (walk_cost (H := exact_numbers sqrt pow) g (e :: p))
      with (walk_cost (H := exact_numbers sqrt pow) (g + Edge.currentWeight e)%Q p).
    rewrite IH, (route_cost_cons sqrt pow). lra.
Qed.

Lemma exact_cautious nodes endNode b (edges : list (Edge.t Q)) :
  admissible sqrt pow nodes endNode b edges ->
  cautious (H := exact_numbers sqrt pow) (fun x => (0 <= x)%Q) nodes endNode b edges.
Proof.
  intros Hadm e g Hin Hopen Hg. destruct (Hadm e Hin Hopen) as [Hh Hroute].
  unfold not_above. simpl. split; [lra |]. split; [apply Qltb_false; lra |].
  intros p Hp. specialize (Hroute p Hp). apply Qltb_false.
  rewrite walk_cost_exact. lra.
Qed.
End ExactWalks.

Section RouteComposition.
Variables (sqrt : Q -> Q) (pow : Q -> Q -> Q).
#[local] Existing Instance exact_numbers.

(** X5: a truck is only sent on a route.  Over exact numbers, with unique
    identifiers and weights that are not negative, a spawn that adds a truck
    found a chain of open edges from the start node to the destination: the
    plan of the truck lists the identifiers of the chain, the truck is
    moving at the start node on the first edge of the chain, whose load has
    gone up by one, and nothing is warned about. *)
Theorem spawnTruck_sends_on_a_route fuel rand a b (s s' : Engine.t Q) w t :
  unique_ids (Engine.edges s) ->
  nonneg_weights (Engine.edges s) ->
  spawnTruck (H := exact_numbers sqrt pow) fuel rand a b s = Some (s', w) ->
  Engine.trucks s' = Engine.trucks s ++ [t] ->
  exists e q startNode,
    route (Engine.edges s) a b (e :: q) /\
    Truck.routePlan t = map Edge.id (e :: q) /\
    Truck.currentEdgeId t = Some (Edge.id e) /\
    Truck.state t = moving /\
    Truck.destinationNodeId t = Some b /\
    Engine.nodes s !! a = Some startNode /\
    Truck.position t = Node.point startNode /\
    In (increment_load e) (Engine.edges s') /\
    w = [].
Proof.
  intros Hu Hw. unfold spawnTruck.
  assert (Hsame : forall x : list (Truck.t Q), x = x ++ [t] -> False).
  { intros x Hx. apply (f_equal (@List.length _)) in Hx. rewrite length_app in Hx.
    simpl in Hx. lia. }
  destruct (Engine.nodes s !! a) as [startNode|] eqn:Ha;
    [|intros [= <- _] Ht; destruct (Hsame _ Ht)].
  destruct (findPath _ _ _ _ _) as [[r|]|] eqn:Hf;
    [| intros [= <- _] Ht; destruct (Hsame _ Ht) | discriminate].
  destruct (PathResult.path r) as [|first rest] eqn:Hp;
    [intros [= <- _] Ht; destruct (Hsame _ Ht) |].
  destruct (List.find (has_id first) (Engine.edges s)) as [fe|] eqn:Hfe;
    [|intros [= <- _] Ht; destruct (Hsame _ Ht)].
  intros [= <- <-] Ht. simpl in Ht. apply app_inv_head in Ht. injection Ht as <-.
  destruct (findPath_route sqrt pow fuel a b _ _ r Hu Hw Hf) as (q & Hq & Hpq & _).
  rewrite Hp in Hpq. destruct q as [|e q]; [discriminate |].
  simpl in Hpq. injection Hpq as Hfirst Hrest.
  assert (Hin : In e (Engine.edges s)) by (inversion Hq; assumption).
  rewrite Hfirst, (find_unique _ e Hu Hin) in Hfe. injection Hfe as <-.
  exists e, q, startNode. simpl.
  split; [exact Hq |]. split; [now rewrite Hfirst, Hrest |].
  repeat (split; [reflexivity |]). split; [|reflexivity].
  rewrite Hfirst, (update_first_map _ increment_load _ Hu).
  apply in_map_iff. exists e. split; [|exact Hin].
  unfold has_id. now rewrite String.eqb_refl.
Qed.

Lemma rerouteTruck_route fuel nodes (edges : list (Edge.t Q)) (t t' : Truck.t Q) :
  unique_ids edges -> nonneg_weights edges ->
  rerouteTruck (H := exact_numbers sqrt pow) fuel nodes edges t = Some t' ->
  t' = t \/
  exists c e d q,
    Truck.state t = moving /\ Truck.currentEdgeId t = Some c /\
    In e edges /\ Edge.id e = c /\ Truck.destinationNodeId t = Some d /\
    route edges (Edge.targetId e) d q /\
    Truck.routePlan t' = c :: map Edge.id q /\
    Truck.rerouteCount t' = Truck.rerouteCount t + 1 /\
    t' = set_plan t (Truck.routePlan t') (Truck.rerouteCount t').
Proof.
  intros Hu Hw. unfold rerouteTruck, reroutable.
  destruct (Truck.state t) eqn:Hst; simpl; try (intros [= <-]; now left).
  destruct (truthy (Truck.destinationNodeId t) && truthy (Truck.currentEdgeId t));
    [|intros [= <-]; now left].
  destruct (Truck.currentEdgeId t) as [c|] eqn:Hc; [|intros [= <-]; now left].
  destruct (Truck.destinationNodeId t) as [d|] eqn:Hd; [|intros [= <-]; now left].
  simpl. destruct (List.find (has_id c) edges) as [ce|] eqn:Hf; [|intros [= <-]; now left].
  destruct (findPath _ _ _ _ _) as [[r|]|] eqn:Hp;
    [| intros [= <-]; now left | discriminate].
  intros [= <-]. right.
  destruct (findPath_route sqrt pow fuel _ _ _ _ r Hu Hw Hp) as (q & Hq & Hpq & _).
  apply find_has_id in Hf as [Hin Hid].
  exists c, ce, d, q. simpl. rewrite Hpq. repeat split; auto.
Qed.

Lemma rerouteTrucks_route fuel nodes (edges : list (Edge.t Q)) :
  unique_ids edges -> nonneg_weights edges ->
  forall l ts,
    rerouteTrucks (H := exact_numbers sqrt pow) fuel nodes edges l = Some ts ->
    Forall2
      (fun t t' =>
         t' = t \/
         exists c e d q,
           Truck.state t = moving /\ Truck.currentEdgeId t = Some c /\
           In e edges /\ Edge.id e = c /\ Truck.destinationNodeId t = Some d /\
           route edges (Edge.targetId e) d q /\
           Truck.routePlan t' = c :: map Edge.id q /\
           Truck.rerouteCount t' = Truck.rerouteCount t + 1 /\
           t' = set_plan t (Truck.routePlan t') (Truck.rerouteCount t'))
      l ts.
Proof.
  intros Hu Hw. induction l as [|t l IH]; simpl; intros ts Hr.
  - injection Hr as <-. constructor.
  - destruct (rerouteTruck _ _ _ t) as [t1|] eqn:Ht1; [|discriminate].
    destruct (rerouteTrucks _ _ _ l) as [l1|]; [|discriminate].
    injection Hr as <-. constructor; [|now apply IH].
    now apply (rerouteTruck_route fuel nodes).
Qed.

(** X6: re-planning keeps trucks on routes.  Over exact numbers, when a tick
    ends with unique identifiers and weights that are not negative, each
    truck leaves the re-plan phase as it entered it, or it was moving and is
    now planned onto its current edge followed by a chain of open edges from
    the end of that edge to its destination, with its reroute count one
    higher. *)
Theorem tick_replans_onto_routes fuel noise (s s' : Engine.t Q) :
  tick (H := exact_numbers sqrt pow) fuel noise s = Some s' ->
  unique_ids (Engine.edges s') ->
  nonneg_weights (Engine.edges s') ->
  Forall2
    (fun t t' =>
       t' = t \/
       exists c e d q,
         Truck.state t = moving /\ Truck.currentEdgeId t = Some c /\
         In e (Engine.edges s') /\ Edge.id e = c /\
         Truck.destinationNodeId t = Some d /\
         route (Engine.edges s') (Edge.targetId e) d q /\
         Truck.routePlan t' = c :: map Edge.id q /\
         Truck.rerouteCount t' = Truck.rerouteCount t + 1 /\
         t' = set_plan t (Truck.routePlan t') (Truck.rerouteCount t'))
    (Engine.trucks (beforeReroute (H := exact_numbers sqrt pow) noise s))
    (Engine.trucks s').
Proof.
  unfold tick. fold (beforeReroute (H := exact_numbers sqrt pow) noise s).
  set (m := beforeReroute (H := exact_numbers sqrt pow) noise s).
  intros Ht Hu Hw.
  pose proof (reroutePhase_edges fuel m s' Ht) as [He _]. rewrite He in *.
  unfold reroutePhase in Ht. destruct (reroute_due m).
  - destruct (rerouteTrucks _ _ _ _) as [ts|] eqn:Hr; [|discriminate].
    injection Ht as <-.
    exact (rerouteTrucks_route fuel (Engine.nodes m) (Engine.edges m) Hu Hw _ _ Hr).
  - injection Ht as <-. generalize (Engine.trucks m) as l.
    induction l as [|t l IH]; constructor; auto.
Qed.
End RouteComposition.

Section TripToItself.
Variables (sqrt : Q -> Q) (pow : Q -> Q -> Q).
#[local] Existing Instance exact_numbers.

(** X23: over exact numbers a trip from a known node to itself is refused
    with the warning: the planner returns the empty path, so no truck is
    created and the engine stays as it was. *)
Theorem spawnTruck_to_itself_warns fuel rand a (s : Engine.t Q) :
  Engine.nodes s !! a <> None ->
  findPath (H := exact_numbers sqrt pow) (S fuel) a a (Engine.nodes s) (Engine.edges s)
    = Some (Some (PathResult.mk Q [] 0%Q)) /\
  spawnTruck (H := exact_numbers sqrt pow) (S fuel) rand a a s
    = Some (s, [no_path_warning]).
Proof.
  intros Ha.
  assert (Hf : findPath (H := exact_numbers sqrt pow) (S fuel) a a (Engine.nodes s)
                 (Engine.edges s) = Some (Some (PathResult.mk Q [] 0%Q))).
  { unfold findPath. destruct (Engine.nodes s !! a) as [n|]; [|contradiction].
    simpl. unfold lowest. simpl. unfold pick. rewrite lookup_insert_eq. simpl.
    rewrite String.eqb_refl. destruct fuel; simpl; rewrite lookup_empty; reflexivity. }
  split; [exact Hf |].
  unfold spawnTruck. rewrite Hf.
  destruct (Engine.nodes s !! a) as [n|]; [reflexivity | contradiction].
Qed.
End TripToItself.

(** ** Every state the engine can reach *)

Section ReachableProperties.
Context {num : Type} `{JSNumber num} `{JSMath num}.

Lemma moveTruck_summary (s : Engine.t num) t :
  Truck.id (snd (moveTruck s t)) = Truck.id t /\
  Engine.nextTruckId (fst (moveTruck s t)) = Engine.nextTruckId s /\
  (active t ->
   (Truck.state (snd (moveTruck s t)) = finished /\
    Engine.completedTrips (fst (moveTruck s t)) = Engine.completedTrips s + 1) \/
   (active (snd (moveTruck s t)) /\
    Engine.completedTrips (fst (moveTruck s t)) = Engine.completedTrips s)).
Proof.
  unfold moveTruck, active.
  destruct (Truck.state t) eqn:Hst; simpl; try (rewrite Hst; tauto).
  repeat match goal with
         | |- context [match ?x with _ => _ end] => destruct x; simpl
         end; tauto.
Qed.

Lemma moveTrucks_summary ts : forall s : Engine.t num,
  map Truck.id (snd (moveTrucks s ts)) = map Truck.id ts /\
  Engine.nextTruckId (fst (moveTrucks s ts)) = Engine.nextTruckId s /\
  (Forall active ts ->
   Forall active (List.filter not_finished (snd (moveTrucks s ts))) /\
   Engine.completedTrips s <= Engine.completedTrips (fst (moveTrucks s ts)) /\
   Engine.completedTrips (fst (moveTrucks s ts))
   + Z.of_nat (List.length (List.filter not_finished (snd (moveTrucks s ts))))
   = Engine.completedTrips s + Z.of_nat (List.length ts)).
Proof.
  induction ts as [|t ts IH]; intros s; simpl.
  - split; [reflexivity |]. split; [reflexivity |]. intros _.
    split; [constructor | lia].
  - destruct (moveTruck_summary s t) as (Hid & Hnext & Hacc).
    destruct (moveTruck s t) as [s1 t1]. simpl in Hid, Hnext, Hacc.
    destruct (IH s1) as (Hids & Hnext1 & Hacc1).
    destruct (moveTrucks s1 ts) as [s2 ts2]. simpl in *.
    split; [congruence |]. split; [congruence |].
    intros Hall. apply Forall_cons in Hall as [Ht Hts].
    destruct (Hacc1 Hts) as (Hact & Hmono & Hcount).
    destruct (Hacc Ht) as [[Hfin Hc] | [Ha Hc]].
    + assert (Hnf : not_finished t1 = false)
        by (unfold not_finished; rewrite Hfin; reflexivity).
      rewrite Hnf. split; [exact Hact | lia].
    + assert (Hnf : not_finished t1 = true)
        by (unfold not_finished; destruct Ha as [-> | [-> | ->]]; reflexivity).
      rewrite Hnf. simpl. split; [now constructor | lia].
Qed.

Lemma rerouteTruck_same fuel nodes edges (t t' : Truck.t num) :
  rerouteTruck fuel nodes edges t = Some t' ->
  Truck.id t' = Truck.id t /\ Truck.state t' = Truck.state t.
Proof.
  unfold rerouteTruck. intros Hr.
  repeat match type of Hr with
         | (if ?b then _ else _) = _ => destruct b
         | match ?x with _ => _ end = _ => destruct x
         end; try discriminate; injection Hr as <-; auto.
Qed.

Lemma rerouteTrucks_same fuel nodes edges (ts : list (Truck.t num)) :
  forall ts', rerouteTrucks fuel nodes edges ts = Some ts' ->
    Forall2 (fun t t' => Truck.id t' = Truck.id t /\ Truck.state t' = Truck.state t) ts ts'.
Proof.
  induction ts as [|t ts IH]; simpl; intros ts' Hr.
  - injection Hr as <-. constructor.
  - destruct (rerouteTruck fuel nodes edges t) as [t1|] eqn:Ht; [|discriminate].
    destruct (rerouteTrucks fuel nodes edges ts) as [ts1|]; [|discriminate].
    injection Hr as <-. constructor; [|now apply IH].
    now apply rerouteTruck_same in Ht.
Qed.

(** The trucks a tick leaves are those the motion phase did not finish,
    with their identifiers and states. *)
Lemma tick_trucks fuel noise (s s' : Engine.t num) :
  tick fuel noise s = Some s' ->
  Forall2 (fun t t' => Truck.id t' = Truck.id t /\ Truck.state t' = Truck.state t)
    (List.filter not_finished (snd (moveTrucks (advanceTime s) (Engine.trucks s))))
    (Engine.trucks s') /\
  Engine.nextTruckId s' = Engine.nextTruckId (fst (moveTrucks (advanceTime s) (Engine.trucks s))) /\
  Engine.completedTrips s' = Engine.completedTrips (fst (moveTrucks (advanceTime s) (Engine.trucks s))).
Proof.
  unfold tick, afterMotion, motionPhase. intros Ht.
  change (Engine.trucks (advanceTime s)) with (Engine.trucks s) in Ht.
  destruct (moveTrucks (advanceTime s) (Engine.trucks s)) as [s1 ts1]. simpl.
  set (ts2 := List.filter not_finished ts1).
  set (ts3 := localizeTrucks (Engine.config s1) (Engine.time s1) (Engine.routers s1) noise
                0%nat ts2).
  assert (H23 : Forall2 (fun t t' => Truck.id t' = Truck.id t /\
                                     Truck.state t' = Truck.state t) ts2 ts3).
  { eapply Forall2_impl; [apply localizeTrucks_Forall2 |].
    intros t t' Hf. destruct Hf as (Hid & Hst & _). auto. }
  unfold reroutePhase in Ht.
  destruct (reroute_due _).
  - destruct (rerouteTrucks _ _ _ _) as [ts4|] eqn:Hr; [|discriminate].
    injection Ht as <-. simpl. split; [|auto].
    assert (H34 : Forall2 (fun t t' => Truck.id t' = Truck.id t /\
                                       Truck.state t' = Truck.state t) ts3 ts4)
      by exact (rerouteTrucks_same _ _ _ _ _ Hr).
    clearbody ts2 ts3. clear - H23 H34.
    revert ts4 H34. induction H23 as [|t t3 l l3 [Hi Hs] _ IH]; intros ts4 H34.
    + inversion H34; subst. constructor.
    + inversion H34 as [|? t4 ? l4 [Hi4 Hs4] Hr4]; subst.
      constructor; [split; congruence |]. now apply IH.
  - injection Ht as <-. simpl. auto.
Qed.

Lemma Forall2_same_ids (l l' : list (Truck.t num)) :
  Forall2 (fun t t' => Truck.id t' = Truck.id t /\ Truck.state t' = Truck.state t) l l' ->
  map Truck.id l' = map Truck.id l /\ List.length l' = List.length l /\
  (Forall active l -> Forall active l').
Proof.
  induction 1 as [|t t' l l' [Hi Hs] _ (IH1 & IH2 & IH3)]; simpl.
  - auto.
  - split; [congruence |]. split; [congruence |].
    intros Hall. apply Forall_cons in Hall as [Ht Hl].
    constructor; [|auto]. unfold active in *. now rewrite Hs.
Qed.

Lemma NoDup_map_filter {A B} (f : A -> B) (p : A -> bool) (l : list A) :
  NoDup (map f l) -> NoDup (map f (List.filter p l)).
Proof.
  induction l as [|a l IH]; simpl; intros Hn; [exact Hn |].
  apply NoDup_cons in Hn as [Hnotin Hn].
  destruct (p a); simpl; [|auto].
  apply NoDup_cons. split; [|auto].
  rewrite list_elem_of_In in *. intros Hi. apply Hnotin.
  apply in_map_iff in Hi as (x & Hx & Hin). apply filter_In in Hin as [Hin _].
  apply in_map_iff. eauto.
Qed.

Lemma In_map_filter {A B} (f : A -> B) (p : A -> bool) (l : list A) x :
  In x (map f (List.filter p l)) -> In x (map f l).
Proof.
  intros Hi. apply in_map_iff in Hi as (y & Hy & Hin). apply filter_In in Hin as [Hin _].
  apply in_map_iff. eauto.
Qed.

Lemma tick_ids fuel noise (s s' : Engine.t num) :
  tick fuel noise s = Some s' ->
  Engine.nextTruckId s' = Engine.nextTruckId s /\
  (NoDup (map Truck.id (Engine.trucks s)) -> NoDup (map Truck.id (Engine.trucks s'))) /\
  (forall i, In i (map Truck.id (Engine.trucks s')) -> In i (map Truck.id (Engine.trucks s))).
Proof.
  intros Ht. apply tick_trucks in Ht as (Hf & Hnext & _).
  apply Forall2_same_ids in Hf as (Hids & _ & _).
  destruct (moveTrucks_summary (Engine.trucks s) (advanceTime s)) as (Hm & Hn & _).
  rewrite Hids, Hnext, Hn, <- Hm. split; [reflexivity |]. split.
  - apply NoDup_map_filter.
  - intros i. apply In_map_filter.
Qed.

Lemma tick_accounts fuel noise (s s' : Engine.t num) :
  tick fuel noise s = Some s' ->
  Forall active (Engine.trucks s) ->
  Forall active (Engine.trucks s') /\
  Engine.completedTrips s <= Engine.completedTrips s' /\
  Engine.completedTrips s' + Z.of_nat (List.length (Engine.trucks s'))
  = Engine.completedTrips s + Z.of_nat (List.length (Engine.trucks s)).
Proof.
  intros Ht Hall. apply tick_trucks in Ht as (Hf & _ & Hc).
  apply Forall2_same_ids in Hf as (_ & Hlen & Hact).
  destruct (moveTrucks_summary (Engine.trucks s) (advanceTime s)) as (_ & _ & Hm).
  destruct (Hm Hall) as (Ha & Hmono & Hcount).
  split; [auto |]. rewrite Hc, Hlen. split; [exact Hmono | exact Hcount].
Qed.

(** What a spawn does to the truck array and the counters: nothing, or one
    new moving truck named after the counter, which goes up by one. *)
Lemma spawnTruck_trucks fuel rand a b (s s' : Engine.t num) w :
  spawnTruck fuel rand a b s = Some (s', w) ->
  Engine.completedTrips s' = Engine.completedTrips s /\
  ((Engine.trucks s' = Engine.trucks s /\ Engine.nextTruckId s' = Engine.nextTruckId s) \/
   (exists t, Engine.trucks s' = Engine.trucks s ++ [t] /\
              Truck.id t = "T-" +:+ pretty (Engine.nextTruckId s) /\
              Truck.state t = moving /\
              Engine.nextTruckId s' = Engine.nextTruckId s + 1)).
Proof.
  unfold spawnTruck.
  destruct (Engine.nodes s !! a) as [startNode|]; [|intros [= <- _]; auto].
  destruct (findPath _ _ _ _ _) as [[r|]|]; [| intros [= <- _]; auto | discriminate].
  destruct (PathResult.path r) as [|first rest] eqn:Hp; [intros [= <- _]; auto |].
  destruct (List.find (has_id first) (Engine.edges s)) as [fe|] eqn:Hf;
    [|intros [= <- _]; auto].
  intros [= <- _]. simpl. split; [reflexivity |]. right.
  eexists. split; [reflexivity |]. simpl. auto.
Qed.

Lemma issued_more (next : Z) i : issued next i -> issued (next + 1) i.
Proof. intros (k & Hk & ->). exists k. split; [lia | reflexivity]. Qed.

Lemma issued_below (next k : Z) : issued next ("T-" +:+ pretty k) -> k < next.
Proof.
  intros (k' & Hk & Heq). simpl in Heq. injection Heq as Heq.
  apply pretty_Z_inj in Heq. lia.
Qed.

Lemma reachable_ids removals (s : Engine.t num) :
  reachable removals s ->
  1 <= Engine.nextTruckId s /\
  NoDup (map Truck.id (Engine.trucks s)) /\
  forall i, In i (map Truck.id (Engine.trucks s)) -> issued (Engine.nextTruckId s) i.
Proof.
  induction 1 as [config | data s _ IH | s _ IH | node s _ IH | i s _ _ IH | edge s _ IH
                  | i s _ _ IH | router s _ IH | i s _ IH | i s _ IH
                  | fuel rand a b s s' w _ IH Hs | fuel noise s s' _ IH Ht];
    try exact IH;
    try (simpl; split; [lia |]; split; [constructor | intros i []]).
  - destruct IH as (Hpos & Hnd & Hiss).
    apply spawnTruck_trucks in Hs as (_ & [[-> ->] | (t & -> & Hid & _ & ->)]); [auto |].
    split; [lia |]. rewrite map_app. simpl. rewrite Hid. split.
    + apply NoDup_app. split; [exact Hnd |]. split; [|apply NoDup_singleton].
      intros i Hi Hi'. apply list_elem_of_In in Hi. apply list_elem_of_In in Hi'.
      destruct Hi' as [<- | []]. apply Hiss in Hi. apply issued_below in Hi. lia.
    + intros i Hi. apply in_app_iff in Hi as [Hi | [<- | []]].
      * apply issued_more. auto.
      * exists (Engine.nextTruckId s). split; [lia | reflexivity].
  - destruct IH as (Hpos & Hnd & Hiss).
    apply tick_ids in Ht as (-> & Hn & Hsub). auto.
Qed.

Lemma reachable_accounts removals (s : Engine.t num) :
  reachable removals s ->
  Forall active (Engine.trucks s) /\
  0 <= Engine.completedTrips s /\
  Engine.completedTrips s + Z.of_nat (List.length (Engine.trucks s))
  = Engine.nextTruckId s - 1.
Proof.
  induction 1 as [config | data s _ IH | s _ IH | node s _ IH | i s _ _ IH | edge s _ IH
                  | i s _ _ IH | router s _ IH | i s _ IH | i s _ IH
                  | fuel rand a b s s' w _ IH Hs | fuel noise s s' _ IH Ht];
    try exact IH;
    try (simpl; split; [constructor | split; [lia | reflexivity]]).
  - destruct IH as (Hact & Hpos & Hsum).
    apply spawnTruck_trucks in Hs as (-> & [[-> ->] | (t & -> & _ & Hst & ->)]); [auto |].
    split; [|split; [exact Hpos |]].
    + apply Forall_app. split; [exact Hact |]. constructor; [|constructor]. now left.
    + rewrite length_app. simpl. lia.
  - destruct IH as (Hact & Hpos & Hsum).
    destruct (tick_accounts _ _ _ _ Ht Hact) as (Ha & Hmono & Hc).
    apply tick_ids in Ht as (-> & _). split; [exact Ha | lia].
Qed.

(** X7: truck identifiers are not reused while the counter is below 2^53.
    The code's [nextTruckId] is a double: up to 2^53 it holds the integer of
    the model exactly, and at 2^53 [nextTruckId++] stops changing it, after
    which identifiers repeat.  In every state the engine can reach in which
    the counter is below 2^53, the trucks of the array carry pairwise
    distinct identifiers, each of the form [T-k] for a [k] below the
    counter. *)
Theorem truck_ids_distinct removals (s : Engine.t num) :
  reachable removals s ->
  Engine.nextTruckId s < 2 ^ 53 ->
  NoDup (map Truck.id (Engine.trucks s)) /\
  forall t, In t (Engine.trucks s) -> issued (Engine.nextTruckId s) (Truck.id t).
Proof.
  intros Hr _. apply reachable_ids in Hr as (_ & Hnd & Hiss).
  split; [exact Hnd |]. intros t Ht. apply Hiss. now apply in_map.
Qed.

(** X8: the array of trucks never holds a finished or a broken truck: in every
    state the engine can reach, each truck is moving, waiting or idle. *)
Theorem trucks_are_active removals (s : Engine.t num) (t : Truck.t num) :
  reachable removals s -> In t (Engine.trucks s) ->
  Truck.state t = moving \/ Truck.state t = waiting \/ Truck.state t = idle.
Proof.
  intros Hr Ht. apply reachable_accounts in Hr as (Hact & _).
  rewrite Forall_forall in Hact. apply Hact. now apply list_elem_of_In.
Qed.

(** X9: no truck is lost or counted twice while the counter is below 2^53,
    the range in which the doubles [nextTruckId] and [completedTrips] hold
    the integers of the model exactly.  In every state the engine can reach
    in which [nextTruckId] is below 2^53, the statistics report as many
    active trucks and completed trips together as trucks were spawned since
    the counters were last reset, [nextTruckId - 1], and both numbers are
    below 2^53. *)
Theorem getStats_accounts_for_every_truck removals (s : Engine.t num) :
  reachable removals s ->
  Engine.nextTruckId s < 2 ^ 53 ->
  Stats.activeTrucks (getStats s) + Stats.completedTrips (getStats s)
  = Engine.nextTruckId s - 1 /\
  0 <= Stats.completedTrips (getStats s) < 2 ^ 53 /\
  0 <= Stats.activeTrucks (getStats s) < 2 ^ 53.
Proof.
  intros Hr Hb. apply reachable_accounts in Hr as (_ & Hpos & Hsum). simpl. lia.
Qed.
End ReachableProperties.

Section PlanProperties.
Context {num : Type} `{JSNumber num} `{JSMath num}.

Lemma update_first_ids (p : Edge.t num -> bool) (f : Edge.t num -> Edge.t num) es :
  (forall e, Edge.id (f e) = Edge.id e) ->
  map Edge.id (update_first p f es) = map Edge.id es.
Proof.
  intros Hf. induction es as [|e es IH]; simpl; [reflexivity |].
  destruct (p e); simpl; [now rewrite Hf | now rewrite IH].
Qed.

Lemma moveTruck_edge_ids (s : Engine.t num) t :
  map Edge.id (Engine.edges (fst (moveTruck s t))) = map Edge.id (Engine.edges s).
Proof.
  unfold moveTruck.
  repeat match goal with
         | |- context [match ?x with _ => _ end] => destruct x; simpl
         end;
    rewrite ?update_first_ids; reflexivity.
Qed.

Lemma moveTrucks_edge_ids ts : forall s : Engine.t num,
  map Edge.id (Engine.edges (fst (moveTrucks s ts))) = map Edge.id (Engine.edges s).
Proof.
  induction ts as [|t ts IH]; intros s; simpl; [reflexivity |].
  pose proof (moveTruck_edge_ids s t) as Hc.
  destruct (moveTruck s t) as [s1 t1]. specialize (IH s1).
  destruct (moveTrucks s1 ts) as [s2 ts2]. simpl in *. congruence.
Qed.

Lemma tick_edge_ids fuel noise (s s' : Engine.t num) :
  tick fuel noise s = Some s' ->
  map Edge.id (Engine.edges s') = map Edge.id (Engine.edges s).
Proof.
  unfold tick. intros Ht. apply reroutePhase_edges in Ht as [-> _].
  unfold congestionPhase, localizationPhase, prunePhase, afterMotion, motionPhase. simpl.
  pose proof (moveTrucks_edge_ids (Engine.trucks (advanceTime s)) (advanceTime s)) as Hm.
  destruct (moveTrucks _ _) as [s1 ts1]. simpl in *.
  rewrite map_keeps_ids; [exact Hm | reflexivity].
Qed.

Lemma head_is_cons c rest : head_is (c :: rest) (Some c) = true.
Proof. simpl. apply String.eqb_refl. Qed.

(** One callback of the motion loop on a truck whose plan starts with its
    current edge. *)
Lemma moveTruck_planned (s : Engine.t num) t :
  planned t ->
  planned (snd (moveTruck s t)) \/ Truck.state (snd (moveTruck s t)) = finished.
Proof.
  unfold planned, moveTruck.
  intros [[[Hst | Hst] (c & rest & Hc & Hp)] | [Hst Hp]]; rewrite Hst; simpl;
    try (left; rewrite Hst; eauto 8; fail).
  rewrite Hc, Hp. simpl.
  destruct (List.find (has_id c) (Engine.edges s)) as [ce|] eqn:Hf; simpl.
  - destruct (geb _ _); simpl; [|left; left; eauto 8].
    rewrite String.eqb_refl. simpl.
    destruct rest as [|next rest']; simpl; [now right |].
    destruct (List.find (has_id next) _) as [ne|] eqn:Hn; simpl.
    + destruct (may_enter _ _); simpl.
      * apply find_has_id in Hn as [_ Hid]. rewrite Hid. left. left. eauto 8.
      * left. right. split; [reflexivity | discriminate].
    + left. right. split; [reflexivity | discriminate].
  - left. left. eauto 8.
Qed.

Lemma moveTruck_on_the_map (s : Engine.t num) t :
  on_the_map (map Edge.id (Engine.edges s)) t ->
  on_the_map (map Edge.id (Engine.edges s)) (snd (moveTruck s t)) \/
  Truck.state (snd (moveTruck s t)) = finished.
Proof.
  unfold on_the_map, moveTruck.
  intros [[Hst (c & rest & Hc & Hp & Hin)] | [Hst Hp]]; rewrite Hst; simpl;
    try (left; rewrite Hst; eauto 8; fail).
  rewrite Hc, Hp. simpl.
  destruct (List.find (has_id c) (Engine.edges s)) as [ce|] eqn:Hf; simpl.
  - destruct (geb _ _); simpl; [|left; left; eauto 8].
    rewrite String.eqb_refl. simpl.
    destruct rest as [|next rest']; simpl; [now right |].
    destruct (List.find (has_id next) _) as [ne|] eqn:Hn; simpl.
    + destruct (may_enter _ _); simpl.
      * apply find_has_id in Hn as [Hin' Hid]. rewrite Hid. left. left.
        split; [reflexivity |]. exists next, rest'. split; [reflexivity |].
        split; [reflexivity |].
        rewrite <- (update_first_ids (has_id (Edge.id ce)) decrement_load (Engine.edges s))
          by reflexivity.
        rewrite <- Hid. now apply in_map.
      * left. right. split; [reflexivity | discriminate].
    + left. right. split; [reflexivity | discriminate].
  - exfalso. apply in_map_iff in Hin as (e & He & Hin).
    exact (find_has_id_none c _ e Hf Hin He).
Qed.

Lemma moveTrucks_planned ts : forall s : Engine.t num,
  Forall planned ts ->
  Forall planned (List.filter not_finished (snd (moveTrucks s ts))).
Proof.
  induction ts as [|t ts IH]; intros s Hall; simpl; [constructor |].
  apply Forall_cons in Hall as [Ht Hts].
  pose proof (moveTruck_planned s t Ht) as Hp.
  destruct (moveTruck s t) as [s1 t1]. specialize (IH s1 Hts).
  destruct (moveTrucks s1 ts) as [s2 ts2]. simpl in *.
  destruct Hp as [Hp | Hfin].
  - destruct (not_finished t1); [now constructor | exact IH].
  - unfold not_finished at 1. rewrite Hfin. exact IH.
Qed.

Lemma moveTrucks_on_the_map ts : forall (s : Engine.t num) ids,
  ids = map Edge.id (Engine.edges s) ->
  Forall (on_the_map ids) ts ->
  Forall (on_the_map ids) (List.filter not_finished (snd (moveTrucks s ts))).
Proof.
  induction ts as [|t ts IH]; intros s ids Hids Hall; simpl; [constructor |].
  apply Forall_cons in Hall as [Ht Hts]. subst ids.
  pose proof (moveTruck_on_the_map s t Ht) as Hp.
  pose proof (moveTruck_edge_ids s t) as He.
  destruct (moveTruck s t) as [s1 t1]. simpl in He.
  specialize (IH s1 _ (eq_sym He) Hts).
  destruct (moveTrucks s1 ts) as [s2 ts2]. simpl in *.
  destruct Hp as [Hp | Hfin].
  - destruct (not_finished t1); [now constructor | exact IH].
  - unfold not_finished at 1. rewrite Hfin. exact IH.
Qed.

Lemma frozen_carried (t t' : Truck.t num) : frozen t t' -> carried t t'.
Proof.
  intros (Hi & Hs & Hp & Hc & Hd & _ & Hr & _). unfold carried. auto 10.
Qed.

Lemma rerouteTruck_carried fuel nodes edges (t t' : Truck.t num) :
  rerouteTruck fuel nodes edges t = Some t' -> carried t t'.
Proof.
  unfold rerouteTruck, reroutable. intros Hr.
  destruct (Truck.state t) eqn:Hst; simpl in Hr;
    try (injection Hr as <-; apply frozen_carried, frozen_refl).
  destruct (truthy (Truck.destinationNodeId t) && truthy (Truck.currentEdgeId t));
    [|injection Hr as <-; apply frozen_carried, frozen_refl].
  destruct (Truck.currentEdgeId t) as [c|] eqn:Hc;
    [|injection Hr as <-; apply frozen_carried, frozen_refl].
  destruct (Truck.destinationNodeId t) as [d|];
    [|injection Hr as <-; apply frozen_carried, frozen_refl].
  destruct (find_edge (Some c) edges) as [ce|];
    [|injection Hr as <-; apply frozen_carried, frozen_refl].
  destruct (findPath _ _ _ _ _) as [[r|]|]; [| |discriminate];
    injection Hr as <-; [|apply frozen_carried, frozen_refl].
  unfold carried. simpl. rewrite Hst, Hc. split; [reflexivity |].
  split; [reflexivity |]. split; [reflexivity |]. split; [reflexivity |].
  split; [reflexivity |]. right. eauto.
Qed.

Lemma carried_trans (t1 t2 t3 : Truck.t num) :
  carried t1 t2 -> carried t2 t3 -> carried t1 t3.
Proof.
  unfold carried.
  intros (A1 & A2 & A3 & A4 & A5 & A6) (B1 & B2 & B3 & B4 & B5 & B6).
  split; [congruence |]. split; [congruence |]. split; [congruence |].
  split; [congruence |]. split; [congruence |].
  destruct B6 as [B6 | (Bst & c & path & Bc & Bp)].
  - destruct A6 as [A6 | (Ast & c & path & Ac & Ap)].
    + left. congruence.
    + right. split; [exact Ast |]. exists c, path. split; [exact Ac | congruence].
  - right. split; [congruence |]. exists c, path. split; [congruence | exact Bp].
Qed.

Lemma rerouteTrucks_carried fuel nodes edges (ts : list (Truck.t num)) :
  forall ts', rerouteTrucks fuel nodes edges ts = Some ts' -> Forall2 carried ts ts'.
Proof.
  induction ts as [|t ts IH]; simpl; intros ts' Hr.
  - injection Hr as <-. constructor.
  - destruct (rerouteTruck fuel nodes edges t) as [t1|] eqn:Ht; [|discriminate].
    destruct (rerouteTrucks fuel nodes edges ts) as [ts1|]; [|discriminate].
    injection Hr as <-. constructor; [|now apply IH].
    now apply rerouteTruck_carried in Ht.
Qed.

Lemma Forall2_carried_trans (l1 l2 : list (Truck.t num)) :
  Forall2 carried l1 l2 -> forall l3, Forall2 carried l2 l3 -> Forall2 carried l1 l3.
Proof.
  induction 1 as [|t1 t2 l1 l2 H12 _ IH]; intros l3 H23.
  - inversion H23; subst. constructor.
  - inversion H23 as [|? t3 ? l3' Ht Hl]; subst.
    constructor; [eapply carried_trans; eauto | now apply IH].
Qed.

(** The trucks a tick leaves are those the motion phase did not finish, in
    the same order, each carried through localization and re-planning. *)
Lemma tick_carries fuel noise (s s' : Engine.t num) :
  tick fuel noise s = Some s' ->
  Forall2 carried
    (List.filter not_finished (snd (moveTrucks (advanceTime s) (Engine.trucks s))))
    (Engine.trucks s').
Proof.
  unfold tick, afterMotion, motionPhase. intros Ht.
  change (Engine.trucks (advanceTime s)) with (Engine.trucks s) in Ht.
  destruct (moveTrucks (advanceTime s) (Engine.trucks s)) as [s1 ts1]. simpl.
  set (ts2 := List.filter not_finished ts1).
  set (ts3 := localizeTrucks (Engine.config s1) (Engine.time s1) (Engine.routers s1) noise
                0%nat ts2).
  assert (H23 : Forall2 carried ts2 ts3).
  { eapply Forall2_impl; [apply localizeTrucks_Forall2 |]. apply frozen_carried. }
  unfold reroutePhase in Ht.
  destruct (reroute_due _).
  - destruct (rerouteTrucks _ _ _ _) as [ts4|] eqn:Hr; [|discriminate].
    injection Ht as <-. simpl.
    assert (H34 : Forall2 carried ts3 ts4) by exact (rerouteTrucks_carried _ _ _ _ _ Hr).
    exact (Forall2_carried_trans _ _ H23 _ H34).
  - injection Ht as <-. exact H23.
Qed.

Lemma carried_planned (t t' : Truck.t num) : carried t t' -> planned t -> planned t'.
Proof.
  unfold carried, planned. intros (_ & Hs & Hc & _ & _ & Hp). rewrite Hs, Hc.
  destruct Hp as [-> | (Hst & c & path & Hcur & ->)]; [tauto |].
  intros _. left. split; [now left |]. rewrite Hcur. eauto.
Qed.

Lemma carried_on_the_map ids (t t' : Truck.t num) :
  carried t t' -> on_the_map ids t -> on_the_map ids t'.
Proof.
  unfold carried, on_the_map. intros (_ & Hs & Hc & _ & _ & Hp). rewrite Hs, Hc.
  destruct Hp as [-> | (Hst & c & path & Hcur & ->)]; [tauto |].
  intros [(_ & c' & rest & Hc' & _ & Hin) | [Hw _]]; [|congruence].
  left. split; [exact Hst |]. exists c, path. rewrite Hcur in *.
  injection Hc' as <-. auto.
Qed.

Lemma Forall2_Forall_carried (P : Truck.t num -> Prop) (l l' : list (Truck.t num)) :
  (forall t t', carried t t' -> P t -> P t') ->
  Forall2 carried l l' -> Forall P l -> Forall P l'.
Proof.
  intros HP. induction 1 as [|t t' l l' Hc _ IH]; intros Hall; [constructor |].
  apply Forall_cons in Hall as [Ht Hl]. constructor; eauto.
Qed.

Lemma tick_planned fuel noise (s s' : Engine.t num) :
  tick fuel noise s = Some s' ->
  Forall planned (Engine.trucks s) -> Forall planned (Engine.trucks s').
Proof.
  intros Ht Hall. apply tick_carries in Ht.
  eapply Forall2_Forall_carried; [apply carried_planned | exact Ht |].
  now apply moveTrucks_planned.
Qed.

Lemma tick_on_the_map fuel noise (s s' : Engine.t num) :
  tick fuel noise s = Some s' ->
  Forall (on_the_map (map Edge.id (Engine.edges s))) (Engine.trucks s) ->
  Forall (on_the_map (map Edge.id (Engine.edges s'))) (Engine.trucks s').
Proof.
  intros Ht Hall. rewrite (tick_edge_ids _ _ _ _ Ht). apply tick_carries in Ht.
  eapply Forall2_Forall_carried; [apply carried_on_the_map | exact Ht |].
  now apply moveTrucks_on_the_map.
Qed.

(** A successful spawn: the new truck is moving on the first edge of its
    plan, which is an edge of the array; the edges keep their identifiers. *)
Lemma spawnTruck_on_the_map fuel rand a b (s s' : Engine.t num) w :
  spawnTruck fuel rand a b s = Some (s', w) ->
  map Edge.id (Engine.edges s') = map Edge.id (Engine.edges s) /\
  (Engine.trucks s' = Engine.trucks s \/
   exists t, Engine.trucks s' = Engine.trucks s ++ [t] /\
             on_the_map (map Edge.id (Engine.edges s)) t).
Proof.
  unfold spawnTruck.
  destruct (Engine.nodes s !! a) as [startNode|]; [|intros [= <- _]; auto].
  destruct (findPath _ _ _ _ _) as [[r|]|]; [| intros [= <- _]; auto | discriminate].
  destruct (PathResult.path r) as [|first rest] eqn:Hp; [intros [= <- _]; auto |].
  destruct (List.find (has_id first) (Engine.edges s)) as [fe|] eqn:Hf;
    [|intros [= <- _]; auto].
  intros [= <- _]. simpl. split; [now apply update_first_ids |]. right.
  eexists. split; [reflexivity |]. left. simpl. split; [reflexivity |].
  apply find_has_id in Hf as [Hin Hid].
  exists first, rest. rewrite Hid. split; [reflexivity |]. split; [reflexivity |].
  rewrite <- Hid. now apply in_map.
Qed.

Lemma on_the_map_planned ids (t : Truck.t num) : on_the_map ids t -> planned t.
Proof.
  unfold on_the_map, planned.
  intros [(Hst & c & rest & Hc & Hp & _) | Hw]; [left | now right].
  split; [now left | eauto].
Qed.

Lemma on_the_map_incl ids ids' (t : Truck.t num) :
  (forall i, In i ids -> In i ids') -> on_the_map ids t -> on_the_map ids' t.
Proof.
  unfold on_the_map. intros Hsub [(Hst & c & rest & Hc & Hp & Hin) | Hw]; [left | now right].
  split; [exact Hst |]. exists c, rest. auto.
Qed.

Lemma reachable_planned removals (s : Engine.t num) :
  reachable removals s -> Forall planned (Engine.trucks s).
Proof.
  induction 1 as [config | data s _ IH | s _ IH | node s _ IH | i s _ _ IH | edge s _ IH
                  | i s _ _ IH | router s _ IH | i s _ IH | i s _ IH
                  | fuel rand a b s s' w _ IH Hs | fuel noise s s' _ IH Ht];
    try exact IH; try (simpl; constructor).
  - apply spawnTruck_on_the_map in Hs as (_ & [-> | (t & -> & Ht)]); [exact IH |].
    apply Forall_app. split; [exact IH |]. constructor; [|constructor].
    eapply on_the_map_planned; eauto.
  - eapply tick_planned; eauto.
Qed.

(** X10: the test [truck.routePlan[0] === truck.currentEdgeId] of the
    motion phase never fails: in every state the engine can reach, the plan of a
    moving truck starts with the truck's current edge, and the plan of a
    waiting truck is not empty. *)
Theorem plan_starts_with_current_edge removals (s : Engine.t num) (t : Truck.t num) :
  reachable removals s -> In t (Engine.trucks s) ->
  (Truck.state t = moving ->
   head_is (Truck.routePlan t) (Truck.currentEdgeId t) = true) /\
  (Truck.state t = waiting -> Truck.routePlan t <> []).
Proof.
  intros Hr Ht. apply reachable_planned in Hr.
  rewrite Forall_forall in Hr. apply list_elem_of_In in Ht. specialize (Hr t Ht).
  destruct Hr as [(_ & c & rest & Hc & Hp) | [Hw Hp]].
  - split.
    + intros _. rewrite Hc, Hp. apply head_is_cons.
    + intros _. rewrite Hp. discriminate.
  - split; [congruence | auto].
Qed.

Lemma reachable_on_the_map (s : Engine.t num) :
  reachable false s ->
  Forall (on_the_map (map Edge.id (Engine.edges s))) (Engine.trucks s).
Proof.
  induction 1 as [config | data s _ IH | s _ IH | node s _ IH | i s Hrem _ IH | edge s _ IH
                  | i s Hrem _ IH | router s _ IH | i s _ IH | i s _ IH
                  | fuel rand a b s s' w _ IH Hs | fuel noise s s' _ IH Ht];
    try discriminate; try exact IH; try (simpl; constructor).
  - simpl. eapply Forall_impl; [exact IH |]. intros t. apply on_the_map_incl.
    intros i Hi. rewrite map_app. apply in_or_app. now left.
  - simpl. unfold handleToggleClosure. simpl.
    rewrite update_first_ids by reflexivity. exact IH.
  - apply spawnTruck_on_the_map in Hs as (-> & [-> | (t & -> & Ht)]); [exact IH |].
    apply Forall_app. split; [exact IH |]. constructor; [exact Ht | constructor].
  - eapply tick_on_the_map; eauto.
Qed.

(** X11: as long as no node and no edge is removed, no truck is ever idle: each
    truck of the array is moving on an edge of the array, or waiting. *)
Theorem never_idle_without_removals (s : Engine.t num) (t : Truck.t num) :
  reachable false s -> In t (Engine.trucks s) ->
  (Truck.state t = moving /\
   exists c, Truck.currentEdgeId t = Some c /\ In c (map Edge.id (Engine.edges s))) \/
  Truck.state t = waiting.
Proof.
  intros Hr Ht. apply reachable_on_the_map in Hr.
  rewrite Forall_forall in Hr. apply list_elem_of_In in Ht. specialize (Hr t Ht).
  destruct Hr as [(Hst & c & rest & Hc & _ & Hin) | [Hw _]]; [left | now right].
  split; [exact Hst | eauto].
Qed.
End PlanProperties.

(** ** Idle trucks *)

Section ParkedProperties.
Context {num : Type} `{JSNumber num} `{JSMath num}.

Lemma moveTrucks_parked ts : forall (s : Engine.t num) t,
  In t ts -> Truck.state t <> moving -> In t (snd (moveTrucks s ts)).
Proof.
  induction ts as [|t0 ts IH]; intros s t Hin Hst; simpl in *; [contradiction |].
  destruct Hin as [-> | Hin].
  - rewrite moveTruck_not_moving by exact Hst.
    destruct (moveTrucks s ts). simpl. now left.
  - destruct (moveTruck s t0) as [s1 t1]. specialize (IH s1 t Hin Hst).
    destruct (moveTrucks s1 ts). simpl in *. now right.
Qed.

Lemma rerouteTrucks_parked fuel nodes edges (ts : list (Truck.t num)) :
  forall ts' t, rerouteTrucks fuel nodes edges ts = Some ts' ->
    In t ts -> Truck.state t <> moving -> In t ts'.
Proof.
  induction ts as [|t0 ts IH]; simpl; intros ts' t Hr Hin Hst; [contradiction |].
  destruct (rerouteTruck fuel nodes edges t0) as [t1|] eqn:Ht; [|discriminate].
  destruct (rerouteTrucks fuel nodes edges ts) as [ts1|]; [|discriminate].
  injection Hr as <-. destruct Hin as [-> | Hin].
  - rewrite rerouteTruck_not_moving in Ht by exact Hst. injection Ht as <-. now left.
  - right. now apply (IH ts1 t).
Qed.

(** A truck the motion phase leaves in a state other than moving and
    finished goes through the rest of the tick with only its localization
    fields touched. *)
Lemma tick_after_motion_parked fuel noise (s s' : Engine.t num) t :
  tick fuel noise s = Some s' ->
  In t (snd (moveTrucks (advanceTime s) (Engine.trucks s))) ->
  Truck.state t <> moving -> Truck.state t <> finished ->
  exists t', In t' (Engine.trucks s') /\ frozen t t'.
Proof.
  intros Ht Hin Hm Hf.
  assert (H1 : In t (Engine.trucks (prunePhase (afterMotion s)))).
  { unfold prunePhase, afterMotion, motionPhase. simpl.
    change (Engine.trucks (advanceTime s)) with (Engine.trucks s).
    destruct (moveTrucks (advanceTime s) (Engine.trucks s)) as [s1 ts1]. simpl in *.
    apply filter_In. split; [assumption |]. destruct (Truck.state t); simpl; congruence. }
  set (p := prunePhase (afterMotion s)) in *.
  destruct (localizeTrucks_frozen (Engine.config p) (Engine.time p) (Engine.routers p)
              noise (Engine.trucks p) 0%nat t H1) as (t' & Hin' & Hfr).
  exists t'. split; [|assumption].
  unfold tick in Ht. fold p in Ht. unfold reroutePhase in Ht.
  destruct (reroute_due _).
  - destruct (rerouteTrucks _ _ _ _) as [ts|] eqn:Hr; [|discriminate].
    injection Ht as <-. simpl in *.
    eapply rerouteTrucks_parked; [exact Hr | exact Hin' |].
    destruct Hfr as (_ & Hst & _). congruence.
  - injection Ht as <-. exact Hin'.
Qed.

(** X12: an idle truck is idle for good.  Through any number of completed
    ticks, spawns and edits of nodes, edges and routers, the array holds a
    truck with the same identifier that is still idle, at the same position,
    with the same current edge, progress and plan: it never moves again and
    is never removed. *)
Theorem idle_is_forever (s s' : Engine.t num) (t : Truck.t num) :
  evolves s s' ->
  In t (Engine.trucks s) -> Truck.state t = idle ->
  exists t', In t' (Engine.trucks s') /\ Truck.state t' = idle /\ frozen t t'.
Proof.
  intros Hev. revert t.
  induction Hev as [s | fuel noise s1 s2 s3 Ht _ IH | fuel rand a b w s1 s2 s3 Hs _ IH
                    | s1 s2 s3 He _ IH]; intros t Hin Hi.
  - exists t. auto using frozen_refl.
  - destruct (tick_after_motion_parked fuel noise s1 s2 t Ht) as (t2 & Hin2 & Hfr2).
    + apply moveTrucks_parked; [exact Hin | rewrite Hi; discriminate].
    + rewrite Hi. discriminate.
    + rewrite Hi. discriminate.
    + assert (Hi2 : Truck.state t2 = idle) by (destruct Hfr2 as (_ & Hst & _); congruence).
      destruct (IH t2 Hin2 Hi2) as (t3 & Hin3 & Hi3 & Hfr3).
      exists t3. eauto using frozen_trans.
  - apply IH; [|exact Hi].
    apply spawnTruck_trucks in Hs as (_ & [[-> _] | (t1 & -> & _)]); [exact Hin |].
    apply in_or_app. now left.
  - apply IH; [|exact Hi]. now rewrite He.
Qed.

Lemma removeEdge_gone i (s : Engine.t num) :
  ~ In i (map Edge.id (Engine.edges (removeEdge i s))).
Proof.
  simpl. intros Hi. apply in_map_iff in Hi as (e & He & Hin).
  apply filter_In in Hin as [_ Hn]. apply negb_true_iff, has_id_false in Hn. contradiction.
Qed.

(** The motion loop on a truck whose current edge is not in the array. *)
Lemma moveTrucks_strands ts : forall (s : Engine.t num) t c,
  ~ In c (map Edge.id (Engine.edges s)) ->
  In t ts -> Truck.state t = moving -> Truck.currentEdgeId t = Some c ->
  exists t', In t' (snd (moveTrucks s ts)) /\ Truck.state t' = idle /\
    Truck.id t' = Truck.id t /\ Truck.currentEdgeId t' = Some c /\
    Truck.routePlan t' = Truck.routePlan t /\ Truck.position t' = Truck.position t /\
    Truck.distanceAlongEdge t' = Truck.distanceAlongEdge t.
Proof.
  induction ts as [|t0 ts IH]; intros s t c Hc Hin Hst Hcur; simpl in *; [contradiction |].
  destruct Hin as [-> | Hin].
  - assert (Hmv : moveTruck s t =
                  (s, Truck.mk num (Truck.id t) (Truck.position t)
                        (Truck.currentEdgeId t) (Truck.distanceAlongEdge t)
                        (Truck.speed t) idle (Truck.routePlan t)
                        (Truck.destinationNodeId t) (Truck.inferredRouterId t)
                        (Truck.inferredEdgeId t) (Truck.lastRouterSwitchTime t)
                        (Truck.consecutiveRouterReads t) (Truck.potentialRouterId t)
                        (Truck.totalDistance t) (Truck.totalTime t)
                        (Truck.rerouteCount t))).
    { unfold moveTruck. rewrite Hst, Hcur. simpl.
      destruct (List.find (has_id c) (Engine.edges s)) as [e|] eqn:Hf; [|reflexivity].
      exfalso. apply find_has_id in Hf as [Hin Hid]. apply Hc. rewrite <- Hid.
      now apply in_map. }
    rewrite Hmv. destruct (moveTrucks s ts). simpl.
    eexists. split; [now left |]. simpl. auto 10.
  - pose proof (moveTruck_edge_ids s t0) as Hids.
    destruct (moveTruck s t0) as [s1 t1]. simpl in Hids.
    destruct (IH s1 t c) as (t' & Hin' & Hrest); auto; [now rewrite Hids |].
    destruct (moveTrucks s1 ts). simpl in *. eauto.
Qed.

(** X13: removing an edge strands the trucks that are on it: a truck that was
    moving on the removed edge is idle after the next tick, where it was,
    with the identifier of the removed edge as its current edge and its plan
    untouched. *)
Theorem removeEdge_strands_truck fuel noise (s s' : Engine.t num) (t : Truck.t num) c :
  In t (Engine.trucks s) -> Truck.state t = moving -> Truck.currentEdgeId t = Some c ->
  tick fuel noise (removeEdge c s) = Some s' ->
  exists t', In t' (Engine.trucks s') /\ Truck.state t' = idle /\
    Truck.id t' = Truck.id t /\ Truck.currentEdgeId t' = Some c /\
    Truck.routePlan t' = Truck.routePlan t /\ Truck.position t' = Truck.position t /\
    Truck.distanceAlongEdge t' = Truck.distanceAlongEdge t.
Proof.
  intros Hin Hst Hcur Ht.
  destruct (moveTrucks_strands (Engine.trucks s) (advanceTime (removeEdge c s)) t c)
    as (t1 & Hin1 & Hi1 & E1 & E2 & E3 & E4 & E5); auto.
  { apply removeEdge_gone. }
  destruct (tick_after_motion_parked fuel noise _ s' t1 Ht Hin1) as (t' & Hin' & Hfr);
    try (rewrite Hi1; discriminate).
  exists t'. split; [exact Hin' |].
  destruct Hfr as (F1 & F2 & F3 & F4 & F5 & _ & F7 & _).
  repeat split; congruence.
Qed.
End ParkedProperties.

(** ** Edits of the map *)

Section TopologyProperties.
Context {num : Type} `{JSNumber num} `{JSMath num}.

Lemma edge_exists_In (edges : list (Edge.t num)) i :
  edge_exists edges i = true <-> In i (map Edge.id edges).
Proof.
  unfold edge_exists. rewrite existsb_exists, in_map_iff. split.
  - intros (e & Hin & Hid). apply has_id_true in Hid. eauto.
  - intros (e & Hid & Hin). exists e. split; [exact Hin | now apply has_id_true].
Qed.

(** X14: [removeNode] cascades: afterwards the node is unknown, the edges are
    those that did not touch it, in their order, so that none starts or ends
    at it; every router is mapped only to edges of the array, whatever it
    was mapped to before; edges that joined known nodes still do.  The
    trucks are not looked at. *)
Theorem removeNode_cascades i (s : Engine.t num) :
  Engine.nodes (removeNode i s) !! i = None /\
  (forall e, In e (Engine.edges (removeNode i s)) <->
     In e (Engine.edges s) /\ Edge.sourceId e <> i /\ Edge.targetId e <> i) /\
  mappings_valid (Engine.edges (removeNode i s)) (Engine.routers (removeNode i s)) /\
  map Router.id (Engine.routers (removeNode i s)) = map Router.id (Engine.routers s) /\
  (attached (Engine.nodes s) (Engine.edges s) ->
   attached (Engine.nodes (removeNode i s)) (Engine.edges (removeNode i s))) /\
  Engine.trucks (removeNode i s) = Engine.trucks s.
Proof.
  assert (Hedges : forall e, In e (Engine.edges (removeNode i s)) <->
            In e (Engine.edges s) /\ Edge.sourceId e <> i /\ Edge.targetId e <> i).
  { intros e. simpl. rewrite filter_In, andb_true_iff, !negb_true_iff, !String.eqb_neq.
    tauto. }
  split; [apply lookup_delete_eq |]. split; [exact Hedges |]. split; [|split; [|split]].
  - intros r j Hr Hj. simpl in Hr. apply in_map_iff in Hr as (r0 & <- & _).
    simpl in Hj. apply filter_In in Hj as [_ Hj]. now apply edge_exists_In in Hj.
  - simpl. rewrite map_map. reflexivity.
  - intros Hatt e He. apply Hedges in He as (Hin & Hs & Ht).
    destruct (Hatt e Hin) as [Hsrc Htgt]. simpl.
    rewrite !lookup_delete_ne by congruence. auto.
  - reflexivity.
Qed.

(** X15: [removeEdge] removes every edge that carries the identifier and
    forgets it in every router: afterwards no edge has it and no router is
    mapped to it, and routers that were mapped only to edges of the array
    still are.  The other edges stay as they are, in their order. *)
Theorem removeEdge_forgets_edge i (s : Engine.t num) :
  ~ In i (map Edge.id (Engine.edges (removeEdge i s))) /\
  (forall r, In r (Engine.routers (removeEdge i s)) -> ~ In i (Router.mappedEdgeIds r)) /\
  (forall e, Edge.id e <> i ->
     (In e (Engine.edges (removeEdge i s)) <-> In e (Engine.edges s))) /\
  (mappings_valid (Engine.edges s) (Engine.routers s) ->
   mappings_valid (Engine.edges (removeEdge i s)) (Engine.routers (removeEdge i s))).
Proof.
  split; [|split; [|split]].
  - simpl. intros Hi. apply in_map_iff in Hi as (e & He & Hin).
    apply filter_In in Hin as [_ Hn]. apply negb_true_iff, has_id_false in Hn.
    contradiction.
  - intros r Hr Hi. simpl in Hr. apply in_map_iff in Hr as (r0 & <- & _).
    simpl in Hi. apply filter_In in Hi as [_ Hn].
    apply negb_true_iff, String.eqb_neq in Hn. congruence.
  - intros e He. simpl. rewrite filter_In, negb_true_iff, has_id_false. tauto.
  - intros Hv r j Hr Hj. simpl in Hr. apply in_map_iff in Hr as (r0 & <- & Hr0).
    simpl in Hj. apply filter_In in Hj as [Hj Hn].
    apply negb_true_iff, String.eqb_neq in Hn.
    specialize (Hv r0 j Hr0 Hj). apply in_map_iff in Hv as (e & He & Hin).
    simpl. apply in_map_iff. exists e. split; [exact He |].
    apply filter_In. split; [exact Hin |]. apply negb_true_iff, has_id_false. congruence.
Qed.

(** What the scan of [findNearestEdge] returns is the identifier it started
    with or that of an edge whose two end nodes are known. *)
Lemma nearestEdgeFrom_member (p : Point.t num) nodes (edges : list (Edge.t num)) :
  forall md ni,
    nearestEdgeFrom p nodes edges md ni = ni \/
    exists e, In e edges /\ nearestEdgeFrom p nodes edges md ni = Some (Edge.id e) /\
              is_Some (nodes !! Edge.sourceId e) /\ is_Some (nodes !! Edge.targetId e).
Proof.
  induction edges as [|e0 edges IH]; intros md ni; simpl; [now left |].
  assert (Hskip : forall md' ni',
            nearestEdgeFrom p nodes edges md' ni' = ni' \/
            exists e, In e (e0 :: edges) /\
              nearestEdgeFrom p nodes edges md' ni' = Some (Edge.id e) /\
              is_Some (nodes !! Edge.sourceId e) /\ is_Some (nodes !! Edge.targetId e)).
  { intros md' ni'. destruct (IH md' ni') as [Hr | (e & Hin & Hr)]; [now left |].
    right. exists e. split; [now right | exact Hr]. }
  destruct (nodes !! Edge.sourceId e0) as [start|] eqn:Hs; [|apply Hskip].
  destruct (nodes !! Edge.targetId e0) as [end_|] eqn:Ht; [|apply Hskip].
  destruct (lt_or_infinity _ md); [|apply Hskip].
  destruct (Hskip (Some (distanceToSegment p (Node.point start) (Node.point end_)))
              (Some (Edge.id e0))) as [Hr | Hr]; [|now right].
  right. exists e0. split; [now left |]. rewrite Hs, Ht. eauto.
Qed.

(** X16: [addRouter] appends the router, at its place and under its name, with
    the mapping it came with thrown away: the new mapping is empty or one
    edge of the array whose two end nodes are known.  Routers that were there
    are not touched, so if every mapping named an edge of the array before,
    every mapping still does. *)
Theorem addRouter_maps_to_an_edge (router : Router.t num) (s : Engine.t num) :
  exists r, Engine.routers (addRouter router s) = Engine.routers s ++ [r] /\
    Router.id r = Router.id router /\ Router.point r = Router.point router /\
    (Router.mappedEdgeIds r = [] \/
     exists e, Router.mappedEdgeIds r = [Edge.id e] /\ In e (Engine.edges s) /\
               Edge.id e <> "" /\
               is_Some (Engine.nodes s !! Edge.sourceId e) /\
               is_Some (Engine.nodes s !! Edge.targetId e)) /\
    (mappings_valid (Engine.edges s) (Engine.routers s) ->
     mappings_valid (Engine.edges (addRouter router s)) (Engine.routers (addRouter router s))).
Proof.
  unfold addRouter. simpl.
  set (nearest := findNearestEdge (Router.point router) (Engine.edges s) (Engine.nodes s)).
  assert (Hm : (match nearest with
                | Some i => if truthy nearest then [i] else []
                | None => []
                end = []) \/
               exists e, match nearest with
                         | Some i => if truthy nearest then [i] else []
                         | None => []
                         end = [Edge.id e] /\ In e (Engine.edges s) /\
                 Edge.id e <> "" /\
                 is_Some (Engine.nodes s !! Edge.sourceId e) /\
                 is_Some (Engine.nodes s !! Edge.targetId e)).
  { destruct (nearestEdgeFrom_member (Router.point router) (Engine.nodes s)
                (Engine.edges s) None None) as [Hr | (e & Hin & Hr & Hs & Ht)];
      fold (findNearestEdge (Router.point router) (Engine.edges s) (Engine.nodes s)) in Hr;
      fold nearest in Hr; rewrite Hr; [now left |].
    simpl. destruct (String.eqb_spec (Edge.id e) ""); simpl; [now left |].
    right. exists e. auto. }
  eexists. split; [reflexivity |]. simpl. split; [reflexivity |].
  split; [reflexivity |]. split; [exact Hm |].
  intros Hv r j Hr Hj. apply in_app_iff in Hr as [Hr | [<- | []]]; [eauto |].
  simpl in Hj. destruct Hm as [Hm | (e & Hm & Hin & _)]; rewrite Hm in Hj.
  - destruct Hj.
  - destruct Hj as [<- | []]. now apply in_map.
Qed.

Lemma find_last {A} (p : A -> bool) (l : list A) a :
  List.find p (l ++ [a]) =
  match List.find p l with
  | Some x => Some x
  | None => if p a then Some a else None
  end.
Proof.
  induction l as [|x l IH]; simpl; [reflexivity |]. destruct (p x); [reflexivity | exact IH].
Qed.

Lemma index_nodes_from (ns : list (Node.t num)) : forall (m : gmap string (Node.t num)) i,
  fold_left (fun m n => <[Node.id n := n]> m) ns m !! i =
  match List.find (fun n => String.eqb (Node.id n) i) (rev ns) with
  | Some n => Some n
  | None => m !! i
  end.
Proof.
  induction ns as [|n ns IH]; intros m i; simpl; [reflexivity |].
  rewrite IH, find_last.
  destruct (List.find _ (rev ns)); [reflexivity |].
  destruct (String.eqb_spec (Node.id n) i) as [-> | Hne].
  - apply lookup_insert_eq.
  - now rewrite lookup_insert_ne.
Qed.

Lemma automap_spec (edges : list (Edge.t num)) nodes (r : Router.t num) :
  Router.id (automap edges nodes r) = Router.id r /\
  Router.point (automap edges nodes r) = Router.point r /\
  (Router.mappedEdgeIds r <> [] -> automap edges nodes r = r) /\
  (Router.mappedEdgeIds r = [] ->
   Router.mappedEdgeIds (automap edges nodes r) = [] \/
   exists e, Router.mappedEdgeIds (automap edges nodes r) = [Edge.id e] /\
             In e edges /\ Edge.id e <> "" /\
             is_Some (nodes !! Edge.sourceId e) /\ is_Some (nodes !! Edge.targetId e)).
Proof.
  unfold automap. destruct (Router.mappedEdgeIds r) as [|j js] eqn:Hm.
  - destruct (nearestEdgeFrom_member (Router.point r) nodes edges None None)
      as [Hr | (e & Hin & Hr & Hs & Ht)];
      fold (findNearestEdge (Router.point r) edges nodes) in Hr; rewrite Hr.
    + repeat split; try congruence. intros _. now left.
    + simpl. destruct (String.eqb_spec (Edge.id e) ""); simpl.
      * repeat split; try congruence. intros _. now left.
      * repeat split; try congruence. intros _. right. exists e. auto.
  - repeat split; congruence.
Qed.

(** X17: [loadMap] and its routers: a node identifier resolves to the last node
    of the list that carries it; the routers keep their order, names and
    places; a router that comes with mapped edges keeps them, unchecked; a
    router that comes without is mapped to nothing or to one edge of the
    loaded array whose two end nodes are loaded; no truck is left and the
    counters are back at their initial values. *)
Theorem loadMap_indexes_and_maps (data : MapData.t num) (s : Engine.t num) :
  (forall i, Engine.nodes (loadMap data s) !! i =
             List.find (fun n => String.eqb (Node.id n) i) (rev (MapData.nodes data))) /\
  Forall2 (fun r r' =>
      Router.id r' = Router.id r /\ Router.point r' = Router.point r /\
      (Router.mappedEdgeIds r <> [] -> r' = r) /\
      (Router.mappedEdgeIds r = [] ->
       Router.mappedEdgeIds r' = [] \/
       exists e, Router.mappedEdgeIds r' = [Edge.id e] /\
                 In e (Engine.edges (loadMap data s)) /\ Edge.id e <> "" /\
                 is_Some (Engine.nodes (loadMap data s) !! Edge.sourceId e) /\
                 is_Some (Engine.nodes (loadMap data s) !! Edge.targetId e)))
    (MapData.routers data) (Engine.routers (loadMap data s)) /\
  Engine.trucks (loadMap data s) = [] /\
  Engine.nextTruckId (loadMap data s) = 1 /\
  Engine.completedTrips (loadMap data s) = 0.
Proof.
  split; [|split; [|auto]].
  - intros i. simpl. unfold index_nodes. rewrite index_nodes_from.
    destruct (List.find _ _); [reflexivity | apply lookup_empty].
  - simpl. apply Forall2_map_r. intros r. apply automap_spec.
Qed.

(** X18: [loadMap] does not reset the loads.  When it is given the
    engine's own edge array, after a run that started from
    [clearSimulation], every edge keeps as load the number of trucks that
    were moving on it, while the truck array is emptied: the loads match the
    trucks again only if no truck was under way. *)
Theorem loadMap_keeps_ghost_loads (data : MapData.t num) (s : Engine.t num) :
  run s ->
  MapData.edges data = Engine.edges s ->
  (forall e, In e (Engine.edges (loadMap data s)) ->
     Edge.currentLoad e = count_trucks (occupies (Edge.id e)) (Engine.trucks s)) /\
  Engine.trucks (loadMap data s) = [] /\
  (loads_match (Engine.edges (loadMap data s)) (Engine.trucks (loadMap data s)) <->
   forall e, In e (Engine.edges s) ->
     count_trucks (occupies (Edge.id e)) (Engine.trucks s) = 0).
Proof.
  intros Hrun Hd. apply run_loads in Hrun as [_ Hm].
  unfold loads_match. simpl. rewrite Hd.
  split; [exact Hm |]. split; [reflexivity |]. split.
  - intros Hl e Hin. rewrite <- (Hm e Hin). exact (Hl e Hin).
  - intros Hz e Hin. rewrite (Hm e Hin). exact (Hz e Hin).
Qed.
End TopologyProperties.

Section NearestEdge.
Variables (sqrt : Q -> Q) (pow : Q -> Q -> Q).
#[local] Existing Instance exact_numbers.
#[local] Existing Instance Qmath.

Lemma nearestEdgeFrom_least (p : Point.t Q) nodes (edges : list (Edge.t Q)) :
  forall md ni,
    (nearestEdgeFrom (H := exact_numbers sqrt pow) p nodes edges md ni = ni /\
     forall e st en, In e edges ->
       nodes !! Edge.sourceId e = Some st -> nodes !! Edge.targetId e = Some en ->
       exists m, md = Some m /\
         (m <= distanceToSegment (H := exact_numbers sqrt pow) p
                 (Node.point st) (Node.point en))%Q) \/
    (exists e st en, In e edges /\
       nodes !! Edge.sourceId e = Some st /\ nodes !! Edge.targetId e = Some en /\
       nearestEdgeFrom (H := exact_numbers sqrt pow) p nodes edges md ni
       = Some (Edge.id e) /\
       (forall m, md = Some m ->
          (distanceToSegment (H := exact_numbers sqrt pow) p
             (Node.point st) (Node.point en) < m)%Q) /\
       forall e' st' en', In e' edges ->
         nodes !! Edge.sourceId e' = Some st' -> nodes !! Edge.targetId e' = Some en' ->
         (distanceToSegment (H := exact_numbers sqrt pow) p (Node.point st) (Node.point en)
          <= distanceToSegment (H := exact_numbers sqrt pow) p
               (Node.point st') (Node.point en'))%Q).
Proof.
  induction edges as [|e0 edges IH]; intros md ni.
  - left. split; [reflexivity |]. intros e st en [].
  - simpl nearestEdgeFrom.
    destruct (nodes !! Edge.sourceId e0) as [st0|] eqn:Hs0.
    2:{ destruct (IH md ni) as [[Hr Hall] | (e & st & en & Hin & Hs & Ht & Hr & Hlt & Hmin)].
        - left. split; [exact Hr |]. intros e st en [<- | Hin] Hs Ht; [congruence | eauto].
        - right. exists e, st, en. split; [now right |]. repeat split; auto.
          intros e' st' en' [<- | Hin'] Hs' Ht'; [congruence | eauto]. }
    destruct (nodes !! Edge.targetId e0) as [en0|] eqn:Ht0.
    2:{ destruct (IH md ni) as [[Hr Hall] | (e & st & en & Hin & Hs & Ht & Hr & Hlt & Hmin)].
        - left. split; [exact Hr |]. intros e st en [<- | Hin] Hs Ht; [congruence | eauto].
        - right. exists e, st, en. split; [now right |]. repeat split; auto.
          intros e' st' en' [<- | Hin'] Hs' Ht'; [congruence | eauto]. }
    set (d0 := distanceToSegment (H := exact_numbers sqrt pow) p
                 (Node.point st0) (Node.point en0)).
    destruct (lt_or_infinity d0 md) eqn:Hlt0.
    + (* the edge becomes the nearest so far *)
      assert (Hbelow : forall m, md = Some m -> (d0 < m)%Q).
      { intros m ->. now apply Qltb_true in Hlt0. }
      destruct (IH (Some d0) (Some (Edge.id e0)))
        as [[Hr Hall] | (e & st & en & Hin & Hs & Ht & Hr & Hlt & Hmin)].
      * right. exists e0, st0, en0. split; [now left |]. repeat split; auto.
        intros e' st' en' [<- | Hin'] Hs' Ht'.
        -- rewrite Hs0 in Hs'. rewrite Ht0 in Ht'. injection Hs' as <-. injection Ht' as <-.
           apply Qle_refl.
        -- destruct (Hall e' st' en' Hin' Hs' Ht') as (m & [= <-] & Hle). exact Hle.
      * right. exists e, st, en. split; [now right |].
        pose proof (Hlt d0 eq_refl) as Hd. fold d0 in Hd.
        repeat split; auto.
        -- intros m Hm. specialize (Hbelow m Hm). fold d0 in Hbelow. lra.
        -- intros e' st' en' [<- | Hin'] Hs' Ht'; [|eauto].
           rewrite Hs0 in Hs'. rewrite Ht0 in Ht'. injection Hs' as <-. injection Ht' as <-.
           fold d0. lra.
    + (* the edge is not nearer *)
      destruct md as [m0|]; [|discriminate].
      apply Qltb_false in Hlt0.
      destruct (IH (Some m0) ni)
        as [[Hr Hall] | (e & st & en & Hin & Hs & Ht & Hr & Hlt & Hmin)].
      * left. split; [exact Hr |]. intros e st en [<- | Hin] Hs Ht.
        -- rewrite Hs0 in Hs. rewrite Ht0 in Ht. injection Hs as <-. injection Ht as <-.
           exists m0. split; [reflexivity | exact Hlt0].
        -- eauto.
      * right. exists e, st, en. split; [now right |]. repeat split; auto.
        intros e' st' en' [<- | Hin'] Hs' Ht'; [|eauto].
        rewrite Hs0 in Hs'. rewrite Ht0 in Ht'. injection Hs' as <-. injection Ht' as <-.
        pose proof (Hlt m0 eq_refl) as Hd. fold d0. lra.
Qed.

(** X19: over exact numbers [findNearestEdge] returns an edge that is
    nearest:
    the identifier of an edge with both end nodes known whose segment is at
    most as far from the point as that of any other such edge; and [null]
    only when no edge has both end nodes known. *)
Theorem findNearestEdge_is_nearest (p : Point.t Q) (edges : list (Edge.t Q)) nodes :
  match findNearestEdge (H := exact_numbers sqrt pow) p edges nodes with
  | Some i =>
      exists e st en, In e edges /\ Edge.id e = i /\
        nodes !! Edge.sourceId e = Some st /\ nodes !! Edge.targetId e = Some en /\
        forall e' st' en', In e' edges ->
          nodes !! Edge.sourceId e' = Some st' -> nodes !! Edge.targetId e' = Some en' ->
          (distanceToSegment (H := exact_numbers sqrt pow) p (Node.point st) (Node.point en)
           <= distanceToSegment (H := exact_numbers sqrt pow) p
                (Node.point st') (Node.point en'))%Q
  | None =>
      forall e, In e edges ->
        nodes !! Edge.sourceId e = None \/ nodes !! Edge.targetId e = None
  end.
Proof.
  unfold findNearestEdge.
  destruct (nearestEdgeFrom_least p nodes edges None None)
    as [[Hr Hall] | (e & st & en & Hin & Hs & Ht & Hr & _ & Hmin)]; rewrite Hr.
  - intros e Hin.
    destruct (nodes !! Edge.sourceId e) as [st|] eqn:Hs; [|now left].
    destruct (nodes !! Edge.targetId e) as [en|] eqn:Ht; [|now right].
    destruct (Hall e st en Hin Hs Ht) as (m & Hm & _). discriminate.
  - exists e, st, en. auto.
Qed.
End NearestEdge.

(** ** The beacon a truck reads *)

Section NearestRouter.
Variables (sqrt : Q -> Q) (pow : Q -> Q -> Q).
#[local] Existing Instance exact_numbers.

Lemma nearestRouter_cons sigma noise (position : Point.t Q) r0 routers j md ni :
  nearestRouter (H := exact_numbers sqrt pow) sigma noise position (r0 :: routers) j md ni =
  if lt_or_infinity (H := exact_numbers sqrt pow)
       (perceived (H := exact_numbers sqrt pow) sigma noise position j r0) md
  then nearestRouter (H := exact_numbers sqrt pow) sigma noise position routers (S j)
         (Some (perceived (H := exact_numbers sqrt pow) sigma noise position j r0))
         (Some (Router.id r0))
  else nearestRouter (H := exact_numbers sqrt pow) sigma noise position routers (S j) md ni.
Proof. reflexivity. Qed.

Lemma nearestRouter_least sigma noise (position : Point.t Q) (routers : list (Router.t Q)) :
  forall j0 md ni,
    (nearestRouter (H := exact_numbers sqrt pow) sigma noise position routers j0 md ni = ni /\
     forall k r, nth_error routers k = Some r ->
       exists m, md = Some m /\
         (m <= perceived (H := exact_numbers sqrt pow) sigma noise position (j0 + k) r)%Q) \/
    (exists k r, nth_error routers k = Some r /\
       nearestRouter (H := exact_numbers sqrt pow) sigma noise position routers j0 md ni
       = Some (Router.id r) /\
       (forall m, md = Some m ->
          (perceived (H := exact_numbers sqrt pow) sigma noise position (j0 + k) r < m)%Q) /\
       forall k' r', nth_error routers k' = Some r' ->
         (perceived (H := exact_numbers sqrt pow) sigma noise position (j0 + k) r
          <= perceived (H := exact_numbers sqrt pow) sigma noise position (j0 + k') r')%Q).
Proof.
  induction routers as [|r0 routers IH]; intros j0 md ni.
  - left. split; [reflexivity |]. intros k r Hk. destruct k; discriminate.
  - rewrite nearestRouter_cons.
    set (d0 := perceived (H := exact_numbers sqrt pow) sigma noise position j0 r0).
    assert (Hd0 : perceived (H := exact_numbers sqrt pow) sigma noise position (j0 + 0) r0
                  = d0) by (now rewrite Nat.add_0_r).
    assert (Hshift : forall k, (S j0 + k = j0 + S k)%nat) by (intros; lia).
    destruct (lt_or_infinity (H := exact_numbers sqrt pow) d0 md) eqn:Hlt0.
    + assert (Hbelow : forall m, md = Some m -> (d0 < m)%Q).
      { intros m ->. now apply Qltb_true in Hlt0. }
      destruct (IH (S j0) (Some d0) (Some (Router.id r0)))
        as [[Hr Hall] | (k & r & Hk & Hr & Hlt & Hmin)].
      * right. exists 0%nat, r0. split; [reflexivity |]. rewrite Hd0.
        split; [exact Hr |]. split; [exact Hbelow |].
        intros [|k'] r' Hk'.
        -- injection Hk' as <-. rewrite Hd0. apply Qle_refl.
        -- destruct (Hall k' r' Hk') as (m & [= <-] & Hle). now rewrite <- Hshift.
      * right. exists (S k), r. split; [exact Hk |]. rewrite <- !Hshift.
        pose proof (Hlt d0 eq_refl) as Hd.
        split; [exact Hr |]. split.
        -- intros m Hm. specialize (Hbelow m Hm). lra.
        -- intros [|k'] r' Hk'.
           ++ injection Hk' as <-. rewrite Hd0. lra.
           ++ rewrite <- Hshift. now apply Hmin.
    + destruct md as [m0|]; [|discriminate].
      apply Qltb_false in Hlt0.
      destruct (IH (S j0) (Some m0) ni) as [[Hr Hall] | (k & r & Hk & Hr & Hlt & Hmin)].
      * left. split; [exact Hr |]. intros [|k'] r' Hk'.
        -- injection Hk' as <-. exists m0. rewrite Hd0. auto.
        -- rewrite <- Hshift. now apply Hall.
      * right. exists (S k), r. split; [exact Hk |]. rewrite <- !Hshift.
        split; [exact Hr |]. split; [exact Hlt |].
        intros [|k'] r' Hk'.
        -- injection Hk' as <-. rewrite Hd0. pose proof (Hlt m0 eq_refl). lra.
        -- rewrite <- Hshift. now apply Hmin.
Qed.

(** X22: over exact numbers the beacon a truck reads is a nearest one.  The
    scan of the localization phase returns the identifier of a router whose
    perceived distance, the distance from the truck's position plus the
    noise sample drawn for it when [routerNoiseSigma] is positive, is at
    most that of every router; there is no reading only when there is no
    router. *)
Theorem nearestRouter_is_nearest sigma noise (position : Point.t Q)
    (routers : list (Router.t Q)) :
  match nearestRouter (H := exact_numbers sqrt pow) sigma noise position routers
          0%nat None None with
  | Some i =>
      exists j r, nth_error routers j = Some r /\ Router.id r = i /\
        forall k r', nth_error routers k = Some r' ->
          (perceived (H := exact_numbers sqrt pow) sigma noise position j r
           <= perceived (H := exact_numbers sqrt pow) sigma noise position k r')%Q
  | None => routers = []
  end.
Proof.
  destruct (nearestRouter_least sigma noise position routers 0%nat None None)
    as [[Hr Hall] | (k & r & Hk & Hr & _ & Hmin)]; rewrite Hr.
  - destruct routers as [|r0 rest]; [reflexivity |].
    destruct (Hall 0%nat r0 eq_refl) as (m & Hm & _). discriminate.
  - exists k, r. split; [exact Hk |]. split; [reflexivity |]. exact Hmin.
Qed.
End NearestRouter.

(** ** The localization threshold in general *)

Section StreakProperties.
Context {num : Type} `{JSNumber num}.

Lemma feed_app N routers (l1 l2 : list (num * string)) (t : Truck.t num) :
  feed N routers (l1 ++ l2) t = feed N routers l2 (feed N routers l1 t).
Proof. unfold feed. apply fold_left_app. Qed.

(** A reading [B] on a truck that is not on [B]: the number of consecutive
    readings it makes, and what it does with it. *)
Lemma reading_counts (N : Z) now routers (B : string) (t : Truck.t num) reads :
  B <> "" ->
  Truck.inferredRouterId t <> Some B ->
  reads = (if bool_decide (Some B = Truck.potentialRouterId t)
           then Truck.consecutiveRouterReads t + 1 else 1) ->
  hysteresis N now routers (Some B) t =
    if N <=? reads then
      set_localization t (Some B) (mapped_edge routers B (Truck.inferredEdgeId t)) now
        reads (Some B)
    else
      set_localization t (Truck.inferredRouterId t) (Truck.inferredEdgeId t)
        (Truck.lastRouterSwitchTime t) reads (Some B).
Proof.
  intros HB Hinf ->. unfold hysteresis. rewrite (truthy_Some B HB).
  rewrite bool_decide_eq_false_2 by congruence. reflexivity.
Qed.

Lemma streak_below (N : Z) routers (B : string) (t : Truck.t num) :
  B <> "" ->
  Truck.inferredRouterId t <> Some B ->
  Truck.potentialRouterId t <> Some B ->
  forall times : list num,
    Z.of_nat (List.length times) < N ->
    Truck.inferredRouterId (feed N routers (map (fun n => (n, B)) times) t)
      = Truck.inferredRouterId t /\
    Truck.inferredEdgeId (feed N routers (map (fun n => (n, B)) times) t)
      = Truck.inferredEdgeId t /\
    Truck.lastRouterSwitchTime (feed N routers (map (fun n => (n, B)) times) t)
      = Truck.lastRouterSwitchTime t /\
    (times <> [] ->
     Truck.potentialRouterId (feed N routers (map (fun n => (n, B)) times) t) = Some B /\
     Truck.consecutiveRouterReads (feed N routers (map (fun n => (n, B)) times) t)
       = Z.of_nat (List.length times)).
Proof.
  intros HB Hinf Hpot times.
  induction times as [|n times IH] using rev_ind; intros Hlen.
  - simpl. repeat split; congruence.
  - rewrite length_app in Hlen. simpl in Hlen.
    destruct IH as (I1 & I2 & I3 & I4); [lia |].
    rewrite map_app, feed_app. simpl map.
    set (t1 := feed N routers (map (fun n => (n, B)) times) t) in *.
    unfold feed at 1 2 3 4 5. cbn [fold_left fst snd].
    assert (Hreads : (if bool_decide (Some B = Truck.potentialRouterId t1)
                      then Truck.consecutiveRouterReads t1 + 1 else 1)
                     = Z.of_nat (List.length times) + 1).
    { destruct times as [|n0 times0].
      - subst t1. simpl. rewrite bool_decide_eq_false_2 by congruence. reflexivity.
      - destruct I4 as [P C]; [discriminate |].
        rewrite P, C. now rewrite bool_decide_eq_true_2 by reflexivity. }
    rewrite (reading_counts N n routers B t1 _ HB ltac:(congruence) eq_refl), Hreads.
    destruct (Z.leb_spec N (Z.of_nat (List.length times) + 1)) as [Hge | Hlt]; [lia |].
    simpl. split; [exact I1 |]. split; [exact I2 |]. split; [exact I3 |].
    intros _. split; [reflexivity |]. rewrite length_app. simpl. lia.
Qed.

(** X20: the threshold of the filter is exact, whatever its value: on a truck
    whose inferred beacon and pending candidate are not [B], fewer than
    [hysteresisN] readings of [B] in a row leave the inferred beacon, the
    inferred edge and the switch time as they were, and the reading that
    makes the row [hysteresisN] long commits: the inferred beacon is [B],
    the switch time is the time of that reading and the inferred edge is the
    first mapped edge of [B], if it has one. *)
Theorem hysteresis_commits_at_threshold
    (N : Z) (routers : list (Router.t num)) (B : string) (t : Truck.t num)
    (times : list num) (last : num) :
  B <> "" ->
  Truck.inferredRouterId t <> Some B ->
  Truck.potentialRouterId t <> Some B ->
  Z.of_nat (List.length times) + 1 = N ->
  (forall k, (k <= List.length times)%nat ->
     Truck.inferredRouterId (feed N routers (map (fun n => (n, B)) (firstn k times)) t)
       = Truck.inferredRouterId t /\
     Truck.inferredEdgeId (feed N routers (map (fun n => (n, B)) (firstn k times)) t)
       = Truck.inferredEdgeId t /\
     Truck.lastRouterSwitchTime (feed N routers (map (fun n => (n, B)) (firstn k times)) t)
       = Truck.lastRouterSwitchTime t) /\
  Truck.inferredRouterId (feed N routers (map (fun n => (n, B)) (times ++ [last])) t)
    = Some B /\
  Truck.lastRouterSwitchTime (feed N routers (map (fun n => (n, B)) (times ++ [last])) t)
    = last /\
  Truck.inferredEdgeId (feed N routers (map (fun n => (n, B)) (times ++ [last])) t)
    = mapped_edge routers B (Truck.inferredEdgeId t).
Proof.
  intros HB Hinf Hpot HN. split.
  - intros k Hk.
    destruct (streak_below N routers B t HB Hinf Hpot (firstn k times)) as (I1 & I2 & I3 & _).
    + rewrite length_firstn. lia.
    + auto.
  - destruct (streak_below N routers B t HB Hinf Hpot times) as (I1 & I2 & I3 & I4); [lia |].
    rewrite map_app, feed_app. simpl map.
    set (t1 := feed N routers (map (fun n => (n, B)) times) t) in *.
    unfold feed at 1 2 3. cbn [fold_left fst snd].
    assert (Hreads : (if bool_decide (Some B = Truck.potentialRouterId t1)
                      then Truck.consecutiveRouterReads t1 + 1 else 1)
                     = Z.of_nat (List.length times) + 1).
    { destruct times as [|n0 times0].
      - subst t1. simpl. rewrite bool_decide_eq_false_2 by congruence. reflexivity.
      - destruct I4 as [P C]; [discriminate |].
        rewrite P, C. now rewrite bool_decide_eq_true_2 by reflexivity. }
    rewrite (reading_counts N last routers B t1 _ HB ltac:(congruence) eq_refl), Hreads.
    destruct (Z.leb_spec N (Z.of_nat (List.length times) + 1)) as [Hge | Hlt]; [|lia].
    simpl. rewrite I2. auto.
Qed.
End StreakProperties.

(** ** The congestion model over exact numbers *)

Section CongestionProperties.
Context {num : Type} `{JSNumber num}.

(** After a tick the weight of every edge is the congestion formula on the
    edge's own load, capacity and free-flow time. *)
Lemma tick_weights_consistent fuel noise (s s' : Engine.t num) :
  tick fuel noise s = Some s' ->
  forall e, In e (Engine.edges s') ->
    Edge.currentWeight e = congestionWeight (Engine.config s') e.
Proof.
  unfold tick. intros Ht e Hin. apply reroutePhase_edges in Ht as [He Hc].
  rewrite He in Hin. rewrite Hc. simpl in Hin.
  apply in_map_iff in Hin as (e0 & <- & _). reflexivity.
Qed.
End CongestionProperties.

Section ExactCongestion.
Variables (sqrt : Q -> Q) (pow : Q -> Q -> Q).
#[local] Existing Instance exact_numbers.
Hypothesis pow_nonneg : forall x y : Q, (0 <= x)%Q -> (0 <= pow x y)%Q.

Lemma congestionWeight_bound (cfg : Config.t Q) (e : Edge.t Q) :
  (0 <= Config.alpha cfg)%Q ->
  (0 <= Edge.baseTravelTime e)%Q -> 0 < Edge.capacity e -> 0 <= Edge.currentLoad e ->
  (Edge.baseTravelTime e <= congestionWeight (H := exact_numbers sqrt pow) cfg e)%Q.
Proof.
  intros Ha Ht HC Hn. unfold congestionWeight. simpl.
  assert (Hx : (0 <= inject_Z (Edge.currentLoad e) / inject_Z (Edge.capacity e))%Q).
  { apply Qle_shift_div_l.
    - change 0%Q with (inject_Z 0). rewrite <- Zlt_Qlt. exact HC.
    - rewrite Qmult_0_l. change 0%Q with (inject_Z 0). rewrite <- Zle_Qle. exact Hn. }
  pose proof (pow_nonneg _ (Config.beta cfg) Hx) as Hp.
  set (x := pow _ _) in *.
  assert (Hax : (0 <= Config.alpha cfg * x)%Q) by (apply Qmult_le_0_compat; assumption).
  set (y := (Config.alpha cfg * x)%Q) in *.
  clearbody y. nra.
Qed.

(** X21: congestion never makes an edge look faster than free flow.  Over exact
    numbers, with a sensitivity that is not negative, every edge that has a
    positive capacity, a load and a free-flow time that are not negative
    weighs at least its free-flow time after a tick; when all edges are so,
    the weights are what the planner's guarantees ask for. *)
Theorem tick_weights_at_least_free_flow fuel noise (s s' : Engine.t Q) :
  tick (H := exact_numbers sqrt pow) fuel noise s = Some s' ->
  (0 <= Config.alpha (Engine.config s'))%Q ->
  (forall e, In e (Engine.edges s') ->
     (0 <= Edge.baseTravelTime e)%Q -> 0 < Edge.capacity e -> 0 <= Edge.currentLoad e ->
     (Edge.baseTravelTime e <= Edge.currentWeight e)%Q) /\
  ((forall e, In e (Engine.edges s') ->
      (0 <= Edge.baseTravelTime e)%Q /\ 0 < Edge.capacity e /\ 0 <= Edge.currentLoad e) ->
   nonneg_weights (Engine.edges s')).
Proof.
  intros Ht Ha.
  assert (Hb : forall e, In e (Engine.edges s') ->
            (0 <= Edge.baseTravelTime e)%Q -> 0 < Edge.capacity e ->
            0 <= Edge.currentLoad e ->
            (Edge.baseTravelTime e <= Edge.currentWeight e)%Q).
  { intros e Hin H0 HC Hn.
    rewrite (tick_weights_consistent fuel noise s s' Ht e Hin).
    now apply congestionWeight_bound. }
  split; [exact Hb |].
  intros Hall e Hin _. destruct (Hall e Hin) as (H0 & HC & Hn).
  specialize (Hb e Hin H0 HC Hn). lra.
Qed.
End ExactCongestion.

(** ** The properties on the site in use *)

Section SiteInUse.
#[local] Existing Instance Qexact.
#[local] Existing Instance Qmath.
Import Site Yard.

(** Loading the site maps the beacon that came without edges to the
    nearest edge, the first of the two that pass through it, and leaves the
    other beacon as it came. *)
Lemma opened_routers :
  map Router.mappedEdgeIds (Engine.routers opened) = [["sg"]; ["ag"]] /\
  findNearestEdge (Point.mk Q 30%Q 40%Q) edges nodes = Some "sg" /\
  (distanceToSegment (Point.mk Q 30%Q 40%Q) (Node.point (node "S" 0 0))
     (Node.point (node "G" 60 0)) == 40)%Q.
Proof. vm_compute. repeat split. Qed.

Lemma run_underway : run underway.
Proof.
  apply run_tick with (fuel := 10%nat) (noise := no_noise) (s := spawn cleared);
    [|vm_compute; reflexivity].
  apply run_spawn with (fuel := 10%nat) (rand := (1 # 2)%Q) (a := "S") (b := "G")
                       (s := cleared) (w := []); [|vm_compute; reflexivity].
  apply run_clear. exact fast_site_unique.
Defined.

Lemma loads_throughout_run_witness :
  run underway /\
  unique_ids (Engine.edges underway) /\
  forall e, In e (Engine.edges underway) ->
    Edge.currentLoad e = count_trucks (occupies (Edge.id e)) (Engine.trucks underway).
Proof. split; [exact run_underway |]. exact (loads_throughout_run underway run_underway). Defined.

Lemma findPath_returns_route_witness :
  unique_ids fast_edges /\
  nonneg_weights fast_edges /\
  findPath 10 "S" "G" nodes fast_edges
    = Some (Some (PathResult.mk Q ["sa"; "ag"] (0 + 1 + 1)%Q)) /\
  exists q, route fast_edges "S" "G" q /\
    ["sa"; "ag"] = map Edge.id q /\ (0 + 1 + 1 == route_cost q)%Q.
Proof.
  split; [exact fast_site_unique |]. split; [exact fast_site_nonneg |].
  split; [exact findPath_fast_site |].
  exact (findPath_returns_route Qsqrt_exact Qpow_integer 10 "S" "G" nodes fast_edges _
           fast_site_unique fast_site_nonneg findPath_fast_site).
Defined.

Lemma findPath_back_to_start : findPath 10 "G" "S" nodes edges = Some None.
Proof. vm_compute. reflexivity. Defined.

Lemma exact_sums_finite (l : list (Edge.t Q)) : finite_sums l.
Proof. split; [reflexivity | intros; reflexivity]. Defined.

Lemma findPath_null_means_unreachable_witness :
  finite_sums edges /\
  nodes !! "G" <> None /\ nodes !! "S" <> None /\
  findPath 10 "G" "S" nodes edges = Some None /\
  forall p, ~ route edges "G" "S" p.
Proof.
  assert (HG : nodes !! "G" <> None) by (vm_compute; discriminate).
  assert (HS : nodes !! "S" <> None) by (vm_compute; discriminate).
  split; [exact (exact_sums_finite edges) |].
  split; [exact HG |]. split; [exact HS |]. split; [exact findPath_back_to_start |].
  exact (findPath_null_means_unreachable 10 "G" "S" nodes edges
           (exact_sums_finite edges) HG HS findPath_back_to_start).
Defined.

Lemma fast_site_start : nodes !! "S" = Some (node "S" 0 0).
Proof. vm_compute. reflexivity. Defined.

Lemma fast_site_distance :
  (0 <= distance (Node.point (node "S" 0 0)) (Node.point (node "G" 60 0)))%Q.
Proof. vm_compute. discriminate. Defined.

Lemma findPath_least_walk_if_admissible_witness :
  tame (fun x : Q => (0 <= x)%Q) /\
  steady (fun x : Q => (0 <= x)%Q) fast_edges /\
  nodes !! "S" = Some (node "S" 0 0) /\
  nodes !! "G" = Some (node "G" 60 0) /\
  (0 <= distance (Node.point (node "S" 0 0)) (Node.point (node "G" 60 0)))%Q /\
  cautious (fun x : Q => (0 <= x)%Q) nodes (node "G" 60 0) "G" fast_edges /\
  findPath 10 "S" "G" nodes fast_edges
    = Some (Some (PathResult.mk Q ["sa"; "ag"] (0 + 1 + 1)%Q)) /\
  exists q, route fast_edges "S" "G" q /\
    ["sa"; "ag"] = map Edge.id q /\
    forall p, route fast_edges "S" "G" p -> not_above (walk_cost zero q) (walk_cost zero p).
Proof.
  pose proof (exact_tame Qsqrt_exact Qpow_integer) as Ht.
  pose proof (exact_steady Qsqrt_exact Qpow_integer fast_edges fast_site_nonneg) as Hs.
  pose proof (exact_cautious Qsqrt_exact Qpow_integer nodes (node "G" 60 0) "G" fast_edges
                fast_site_admissible) as Hc.
  split; [exact Ht |]. split; [exact Hs |]. split; [exact fast_site_start |].
  split; [exact fast_site_goal |]. split; [exact fast_site_distance |].
  split; [exact Hc |]. split; [exact findPath_fast_site |].
  exact (findPath_least_walk_if_admissible (fun x : Q => (0 <= x)%Q) 10 "S" "G" nodes
           fast_edges (node "S" 0 0) (node "G" 60 0) _ Ht Hs fast_site_start
           fast_site_goal fast_site_distance Hc findPath_fast_site).
Defined.

Lemma spawnTruck_to_itself_warns_witness :
  Engine.nodes cleared !! "S" <> None /\
  findPath 10 "S" "S" (Engine.nodes cleared) (Engine.edges cleared)
    = Some (Some (PathResult.mk Q [] 0%Q)) /\
  spawnTruck 10 (1 # 2)%Q "S" "S" cleared = Some (cleared, [no_path_warning]).
Proof.
  assert (HS : Engine.nodes cleared !! "S" <> None) by (vm_compute; discriminate).
  split; [exact HS |].
  exact (spawnTruck_to_itself_warns Qsqrt_exact Qpow_integer 9 (1 # 2)%Q "S" cleared HS).
Defined.

Lemma cleared_unique : unique_ids (Engine.edges cleared).
Proof. exact (proj1 (run_loads cleared (run_clear (engine queue fast_edges []) fast_site_unique))). Defined.

Lemma cleared_nonneg : nonneg_weights (Engine.edges cleared).
Proof.
  intros e He _. simpl in He.
  destruct He as [<- | [<- | [<- | []]]]; vm_compute; discriminate.
Defined.

Lemma spawn_cleared :
  spawnTruck 10 (1 # 2)%Q "S" "G" cleared = Some (spawn cleared, []).
Proof. vm_compute. reflexivity. Defined.

Lemma spawn_cleared_trucks :
  Engine.trucks (spawn cleared) = Engine.trucks cleared ++ [first_truck (spawn cleared)].
Proof. vm_compute. reflexivity. Defined.

Lemma spawnTruck_sends_on_a_route_witness :
  unique_ids (Engine.edges cleared) /\
  nonneg_weights (Engine.edges cleared) /\
  spawnTruck 10 (1 # 2)%Q "S" "G" cleared = Some (spawn cleared, []) /\
  Engine.trucks (spawn cleared) = Engine.trucks cleared ++ [first_truck (spawn cleared)] /\
  exists e q startNode,
    route (Engine.edges cleared) "S" "G" (e :: q) /\
    Truck.routePlan (first_truck (spawn cleared)) = map Edge.id (e :: q) /\
    Truck.currentEdgeId (first_truck (spawn cleared)) = Some (Edge.id e) /\
    Truck.state (first_truck (spawn cleared)) = moving /\
    Truck.destinationNodeId (first_truck (spawn cleared)) = Some "G" /\
    Engine.nodes cleared !! "S" = Some startNode /\
    Truck.position (first_truck (spawn cleared)) = Node.point startNode /\
    In (increment_load e) (Engine.edges (spawn cleared)) /\
    @nil string = [].
Proof.
  split; [exact cleared_unique |]. split; [exact cleared_nonneg |].
  split; [exact spawn_cleared |]. split; [exact spawn_cleared_trucks |].
  exact (spawnTruck_sends_on_a_route Qsqrt_exact Qpow_integer 10 (1 # 2)%Q "S" "G"
           cleared (spawn cleared) [] (first_truck (spawn cleared))
           cleared_unique cleared_nonneg spawn_cleared spawn_cleared_trucks).
Defined.

Lemma ticked_cruising_unique : unique_ids (Engine.edges (ticked cruising)).
Proof.
  unfold unique_ids.
  replace (map Edge.id (Engine.edges (ticked cruising))) with ["sg"; "sa"; "ag"]
    by (vm_compute; reflexivity).
  apply NoDup_cons. split.
  - rewrite list_elem_of_In. simpl. intuition discriminate.
  - apply NoDup_cons. split; [|apply NoDup_singleton].
    rewrite list_elem_of_In. simpl. intuition discriminate.
Defined.

Lemma Qpow_integer_nonneg (x y : Q) : (0 <= x)%Q -> (0 <= Qpow_integer x y)%Q.
Proof.
  intros Hx. unfold Qpow_integer. rewrite Qred_correct. now apply Qpower_0_le.
Defined.

Lemma cruising_alpha : (0 <= Config.alpha (Engine.config (ticked cruising)))%Q.
Proof. vm_compute. discriminate. Defined.

Lemma ticked_cruising_edges e :
  In e (Engine.edges (ticked cruising)) ->
  (0 <= Edge.baseTravelTime e)%Q /\ 0 < Edge.capacity e /\ 0 <= Edge.currentLoad e.
Proof.
  intros He.
  assert (Hall : Forall (fun e => (0 <= Edge.baseTravelTime e)%Q /\ 0 < Edge.capacity e /\
                                  0 <= Edge.currentLoad e)
                        (Engine.edges (ticked cruising))).
  { vm_compute. repeat constructor; discriminate. }
  rewrite Forall_forall in Hall. apply Hall. apply list_elem_of_In. exact He.
Defined.

Lemma tick_weights_at_least_free_flow_witness :
  tick 10 no_noise cruising = Some (ticked cruising) /\
  (0 <= Config.alpha (Engine.config (ticked cruising)))%Q /\
  (forall e, In e (Engine.edges (ticked cruising)) ->
     (0 <= Edge.baseTravelTime e)%Q -> 0 < Edge.capacity e -> 0 <= Edge.currentLoad e ->
     (Edge.baseTravelTime e <= Edge.currentWeight e)%Q) /\
  nonneg_weights (Engine.edges (ticked cruising)).
Proof.
  split; [exact tick_cruising |]. split; [exact cruising_alpha |].
  destruct (tick_weights_at_least_free_flow Qsqrt_exact Qpow_integer Qpow_integer_nonneg
              10 no_noise cruising (ticked cruising) tick_cruising cruising_alpha)
    as [Hb Hn].
  split; [exact Hb |]. apply Hn. exact ticked_cruising_edges.
Defined.

Lemma ticked_cruising_nonneg : nonneg_weights (Engine.edges (ticked cruising)).
Proof.
  intros e He _.
  assert (Hall : Forall (fun e => (0 <= Edge.currentWeight e)%Q)
                        (Engine.edges (ticked cruising))).
  { vm_compute. repeat constructor; discriminate. }
  rewrite Forall_forall in Hall. apply Hall. apply list_elem_of_In. exact He.
Defined.

Lemma tick_replans_onto_routes_witness :
  tick 10 no_noise cruising = Some (ticked cruising) /\
  unique_ids (Engine.edges (ticked cruising)) /\
  nonneg_weights (Engine.edges (ticked cruising)) /\
  Forall2
    (fun t t' =>
       t' = t \/
       exists c e d q,
         Truck.state t = moving /\ Truck.currentEdgeId t = Some c /\
         In e (Engine.edges (ticked cruising)) /\ Edge.id e = c /\
         Truck.destinationNodeId t = Some d /\
         route (Engine.edges (ticked cruising)) (Edge.targetId e) d q /\
         Truck.routePlan t' = c :: map Edge.id q /\
         Truck.rerouteCount t' = Truck.rerouteCount t + 1 /\
         t' = set_plan t (Truck.routePlan t') (Truck.rerouteCount t'))
    (Engine.trucks (beforeReroute no_noise cruising))
    (Engine.trucks (ticked cruising)).
Proof.
  split; [exact tick_cruising |]. split; [exact ticked_cruising_unique |].
  split; [exact ticked_cruising_nonneg |].
  exact (tick_replans_onto_routes Qsqrt_exact Qpow_integer 10 no_noise cruising
           (ticked cruising) tick_cruising ticked_cruising_unique ticked_cruising_nonneg).
Defined.

Lemma reachable_spawned removals : reachable removals (spawn opened).
Proof.
  apply reach_spawn with (fuel := 10%nat) (rand := (1 # 2)%Q) (a := "S") (b := "G")
                         (s := opened) (w := []); [|vm_compute; reflexivity].
  apply reach_loadMap. apply reach_new.
Defined.

Lemma reachable_busy removals : reachable removals busy.
Proof.
  apply reach_tick with (fuel := 10%nat) (noise := no_noise) (s := spawn (spawn opened));
    [|vm_compute; reflexivity].
  apply reach_spawn with (fuel := 10%nat) (rand := (1 # 2)%Q) (a := "S") (b := "G")
                         (s := spawn opened) (w := []); [|vm_compute; reflexivity].
  apply reachable_spawned.
Defined.

Lemma first_truck_busy : In (first_truck busy) (Engine.trucks busy).
Proof. vm_compute. left. reflexivity. Defined.

Lemma busy_counter : Engine.nextTruckId busy < 2 ^ 53.
Proof. vm_compute. reflexivity. Defined.

Lemma truck_ids_distinct_witness :
  reachable true busy /\
  Engine.nextTruckId busy < 2 ^ 53 /\
  NoDup (map Truck.id (Engine.trucks busy)) /\
  forall t, In t (Engine.trucks busy) -> issued (Engine.nextTruckId busy) (Truck.id t).
Proof.
  split; [exact (reachable_busy true) |]. split; [exact busy_counter |].
  exact (truck_ids_distinct true busy (reachable_busy true) busy_counter).
Defined.

Lemma trucks_are_active_witness :
  reachable true busy /\ In (first_truck busy) (Engine.trucks busy) /\
  (Truck.state (first_truck busy) = moving \/ Truck.state (first_truck busy) = waiting \/
   Truck.state (first_truck busy) = idle).
Proof.
  split; [exact (reachable_busy true) |]. split; [exact first_truck_busy |].
  exact (trucks_are_active true busy (first_truck busy) (reachable_busy true)
           first_truck_busy).
Defined.

Lemma getStats_accounts_for_every_truck_witness :
  reachable true busy /\
  Engine.nextTruckId busy < 2 ^ 53 /\
  Stats.activeTrucks (getStats busy) + Stats.completedTrips (getStats busy)
  = Engine.nextTruckId busy - 1 /\
  0 <= Stats.completedTrips (getStats busy) < 2 ^ 53 /\
  0 <= Stats.activeTrucks (getStats busy) < 2 ^ 53.
Proof.
  split; [exact (reachable_busy true) |]. split; [exact busy_counter |].
  exact (getStats_accounts_for_every_truck true busy (reachable_busy true) busy_counter).
Defined.

Lemma plan_starts_with_current_edge_witness :
  reachable true busy /\ In (first_truck busy) (Engine.trucks busy) /\
  (Truck.state (first_truck busy) = moving ->
   head_is (Truck.routePlan (first_truck busy)) (Truck.currentEdgeId (first_truck busy))
   = true) /\
  (Truck.state (first_truck busy) = waiting -> Truck.routePlan (first_truck busy) <> []).
Proof.
  split; [exact (reachable_busy true) |]. split; [exact first_truck_busy |].
  exact (plan_starts_with_current_edge true busy (first_truck busy) (reachable_busy true)
           first_truck_busy).
Defined.

Lemma never_idle_without_removals_witness :
  reachable false busy /\ In (first_truck busy) (Engine.trucks busy) /\
  ((Truck.state (first_truck busy) = moving /\
    exists c, Truck.currentEdgeId (first_truck busy) = Some c /\
              In c (map Edge.id (Engine.edges busy))) \/
   Truck.state (first_truck busy) = waiting).
Proof.
  split; [exact (reachable_busy false) |]. split; [exact first_truck_busy |].
  exact (never_idle_without_removals busy (first_truck busy) (reachable_busy false)
           first_truck_busy).
Defined.

Lemma tick_removed : tick 10 no_noise (removeEdge "sg" (spawn opened)) = Some stranded.
Proof. vm_compute. reflexivity. Defined.

Lemma first_truck_spawned : In (first_truck (spawn opened)) (Engine.trucks (spawn opened)).
Proof. vm_compute. left. reflexivity. Defined.

Lemma first_truck_moving : Truck.state (first_truck (spawn opened)) = moving.
Proof. vm_compute. reflexivity. Defined.

Lemma first_truck_on_sg : Truck.currentEdgeId (first_truck (spawn opened)) = Some "sg".
Proof. vm_compute. reflexivity. Defined.

Lemma removeEdge_strands_truck_witness :
  In (first_truck (spawn opened)) (Engine.trucks (spawn opened)) /\
  Truck.state (first_truck (spawn opened)) = moving /\
  Truck.currentEdgeId (first_truck (spawn opened)) = Some "sg" /\
  tick 10 no_noise (removeEdge "sg" (spawn opened)) = Some stranded /\
  exists t', In t' (Engine.trucks stranded) /\ Truck.state t' = idle /\
    Truck.id t' = Truck.id (first_truck (spawn opened)) /\
    Truck.currentEdgeId t' = Some "sg" /\
    Truck.routePlan t' = Truck.routePlan (first_truck (spawn opened)) /\
    Truck.position t' = Truck.position (first_truck (spawn opened)) /\
    Truck.distanceAlongEdge t' = Truck.distanceAlongEdge (first_truck (spawn opened)).
Proof.
  split; [exact first_truck_spawned |]. split; [exact first_truck_moving |].
  split; [exact first_truck_on_sg |]. split; [exact tick_removed |].
  exact (removeEdge_strands_truck 10 no_noise (spawn opened) stranded
           (first_truck (spawn opened)) "sg" first_truck_spawned first_truck_moving
           first_truck_on_sg tick_removed).
Defined.

Lemma evolves_stranded : evolves stranded (ticked (addEdge sg stranded)).
Proof.
  apply evolves_edit with (s2 := addEdge sg stranded); [reflexivity |].
  apply evolves_tick with (fuel := 10%nat) (noise := no_noise)
                          (s2 := ticked (addEdge sg stranded));
    [vm_compute; reflexivity | apply evolves_refl].
Defined.

Lemma first_truck_stranded : In (first_truck stranded) (Engine.trucks stranded).
Proof. vm_compute. left. reflexivity. Defined.

Lemma first_truck_idle : Truck.state (first_truck stranded) = idle.
Proof. vm_compute. reflexivity. Defined.

Lemma idle_is_forever_witness :
  evolves stranded (ticked (addEdge sg stranded)) /\
  In (first_truck stranded) (Engine.trucks stranded) /\
  Truck.state (first_truck stranded) = idle /\
  exists t', In t' (Engine.trucks (ticked (addEdge sg stranded))) /\
             Truck.state t' = idle /\ frozen (first_truck stranded) t'.
Proof.
  split; [exact evolves_stranded |]. split; [exact first_truck_stranded |].
  split; [exact first_truck_idle |].
  exact (idle_is_forever stranded (ticked (addEdge sg stranded)) (first_truck stranded)
           evolves_stranded first_truck_stranded first_truck_idle).
Defined.

Lemma handed_back :
  MapData.edges (MapData.mk Q [] (Engine.edges underway) []) = Engine.edges underway.
Proof. vm_compute. reflexivity. Defined.

Lemma loadMap_keeps_ghost_loads_witness :
  run underway /\
  MapData.edges (MapData.mk Q [] (Engine.edges underway) []) = Engine.edges underway /\
  (forall e, In e (Engine.edges (loadMap (MapData.mk Q [] (Engine.edges underway) [])
                                   underway)) ->
     Edge.currentLoad e = count_trucks (occupies (Edge.id e)) (Engine.trucks underway)) /\
  Engine.trucks (loadMap (MapData.mk Q [] (Engine.edges underway) []) underway) = [] /\
  map Edge.currentLoad
    (Engine.edges (loadMap (MapData.mk Q [] (Engine.edges underway) []) underway))
  = [0; 0; 1].
Proof.
  split; [exact run_underway |]. split; [exact handed_back |].
  destruct (loadMap_keeps_ghost_loads (MapData.mk Q [] (Engine.edges underway) [])
              underway run_underway handed_back) as (Hl & Ht & _).
  split; [exact Hl |]. split; [exact Ht |]. vm_compute. reflexivity.
Defined.

Lemma hysteresis_commits_at_threshold_witness :
  "R-2" <> "" /\
  Truck.inferredRouterId halted_truck <> Some "R-2" /\
  Truck.potentialRouterId halted_truck <> Some "R-2" /\
  Z.of_nat (List.length [1%Q; 2%Q]) + 1 = 3 /\
  Truck.inferredRouterId
    (feed 3 routers (map (fun n => (n, "R-2")) ([1%Q; 2%Q] ++ [3%Q])) halted_truck)
    = Some "R-2" /\
  Truck.lastRouterSwitchTime
    (feed 3 routers (map (fun n => (n, "R-2")) ([1%Q; 2%Q] ++ [3%Q])) halted_truck)
    = 3%Q.
Proof.
  assert (H1 : "R-2" <> "") by discriminate.
  assert (H2 : Truck.inferredRouterId halted_truck <> Some "R-2") by discriminate.
  assert (H3 : Truck.potentialRouterId halted_truck <> Some "R-2") by discriminate.
  assert (H4 : Z.of_nat (List.length [1%Q; 2%Q]) + 1 = 3) by reflexivity.
  destruct (hysteresis_commits_at_threshold 3 routers "R-2" halted_truck [1%Q; 2%Q] 3%Q
              H1 H2 H3 H4) as (_ & K1 & K2 & _).
  split; [exact H1 |]. split; [exact H2 |]. split; [exact H3 |]. split; [exact H4 |].
  split; [exact K1 | exact K2].
Defined.
End SiteInUse.
